(** * Past Forward: generation scheduler and album page compositor

    A shallow embedding of the two pieces of logic of the application:

    - [App]: the handlers [handleGenerateClick] and [handleRegenerateDecade]
      of [src/App.tsx] (a pool of two asynchronous workers draining a shared
      queue of decades, publishing one state update per decade);
    - [albumUtils]: [loadImage] and [createAlbumPage] of
      [src/lib/albumUtils.ts] (a canvas program that lays the generated
      images out on a fixed page and encodes it).

    JavaScript runs one task at a time: an [async] function runs without
    interruption up to its next [await].  The embedding follows that: the
    synchronous stretches are functions on an explicit state, and the only
    nondeterminism is the environment's, which chooses which outstanding
    promise settles next and how. *)

From Stdlib Require Import QArith Qabs Lqa.
From stdpp Require Import gmap strings list fin_maps sorting.

Open Scope string_scope.

(** ** JavaScript values shared by both files *)

(** A value caught by [catch (err)] or carried by a rejected promise:
    an [Error] object with its [message], or anything else. *)
Inductive Thrown :=
  | ErrorObject (message : string)
  | OtherValue.

(** What a promise settles to. *)
Inductive Settled (A : Type) :=
  | Fulfilled (value : A)
  | Rejected (reason : Thrown).
Arguments Fulfilled {A} value.
Arguments Rejected {A} reason.

(** Truthiness of a string: only the empty string is falsy. *)
Definition truthy (s : string) : bool := negb (String.eqb s "").

(** Truthiness of [string | null] and [string | undefined]. *)
Definition truthy_opt (o : option string) : bool :=
  match o with
  | Some s => truthy s
  | None => false
  end.

(** ** src/App.tsx *)
Module App.

Definition DECADES : list string :=
  ["1950s"; "1960s"; "1970s"; "1980s"; "1990s"; "2000s"].

(** [type ImageStatus = 'pending' | 'done' | 'error'] *)
Inductive ImageStatus := Pending | Done | Error.

(** [interface GeneratedImage { status; url?; error? }] *)
Record GeneratedImage := mkGeneratedImage {
  status : ImageStatus;
  url : option string;
  error : option string
}.

Definition imagePending : GeneratedImage := mkGeneratedImage Pending None None.
Definition imageDone (resultUrl : string) : GeneratedImage :=
  mkGeneratedImage Done (Some resultUrl) None.
Definition imageError (errorMessage : string) : GeneratedImage :=
  mkGeneratedImage Error None (Some errorMessage).

Inductive AppState := idle | image_uploaded | generating | results_shown.

(** The continuation waiting on an unresolved [generateDecadeImage] call:
    [processDecade(decade)] awaited by worker [w] of a round, or the body of
    [handleRegenerateDecade(decade)].  Both closures captured [uploadedImage]
    when they were created. *)
Inductive Awaiter :=
  | ByWorker (image : string) (w : nat) (decade : string)
  | ByRegenerate (image : string) (decade : string).

(** The component state ([uploadedImage], [generatedImages], [appState]), the
    local state of a round ([decadesQueue], the unresolved calls, the workers
    whose body has returned, the rejection of the round if any), and two
    logs kept for the statements: every [generateDecadeImage(image, prompt)]
    call made, and every functional update passed to [setGeneratedImages]. *)
Record Session := mkSession {
  uploadedImage : option string;
  generatedImages : gmap string GeneratedImage;
  appState : AppState;
  decadesQueue : list string;
  unresolved : list Awaiter;
  resolvedWorkers : list nat;
  roundRejected : option Thrown;
  invocations : list (string * string);
  published : list (string * GeneratedImage)
}.

Definition with_generatedImages (g : gmap string GeneratedImage) (s : Session) : Session :=
  mkSession (uploadedImage s) g (appState s) (decadesQueue s) (unresolved s)
            (resolvedWorkers s) (roundRejected s) (invocations s) (published s).

Definition setAppState (a : AppState) (s : Session) : Session :=
  mkSession (uploadedImage s) (generatedImages s) a (decadesQueue s) (unresolved s)
            (resolvedWorkers s) (roundRejected s) (invocations s) (published s).

Definition with_decadesQueue (q : list string) (s : Session) : Session :=
  mkSession (uploadedImage s) (generatedImages s) (appState s) q (unresolved s)
            (resolvedWorkers s) (roundRejected s) (invocations s) (published s).

(** The round a call of [handleGenerateClick] sets up: its own queue, and
    workers none of which has returned or rejected. *)
Definition with_round (q : list string) (s : Session) : Session :=
  mkSession (uploadedImage s) (generatedImages s) (appState s) q (unresolved s)
            [] None (invocations s) (published s).

Definition with_unresolved (u : list Awaiter) (s : Session) : Session :=
  mkSession (uploadedImage s) (generatedImages s) (appState s) (decadesQueue s) u
            (resolvedWorkers s) (roundRejected s) (invocations s) (published s).

Definition worker_returns (w : nat) (s : Session) : Session :=
  mkSession (uploadedImage s) (generatedImages s) (appState s) (decadesQueue s) (unresolved s)
            (resolvedWorkers s ++ [w]) (roundRejected s) (invocations s) (published s).

Definition round_rejects (e : Thrown) (s : Session) : Session :=
  mkSession (uploadedImage s) (generatedImages s) (appState s) (decadesQueue s) (unresolved s)
            (resolvedWorkers s)
            (match roundRejected s with Some e0 => Some e0 | None => Some e end)
            (invocations s) (published s).

(** [setGeneratedImages(prev => ({ ...prev, [decade]: image }))]: the spread
    copies every entry of [prev] and the computed key overwrites one. *)
Definition publish (decade : string) (image : GeneratedImage) (s : Session) : Session :=
  mkSession (uploadedImage s) (<[decade := image]> (generatedImages s)) (appState s)
            (decadesQueue s) (unresolved s) (resolvedWorkers s) (roundRejected s)
            (invocations s) (published s ++ [(decade, image)]).

Definition prompt (decade : string) : string :=
  "Reimagine the person in this photo in the style of the " ++ decade ++
  ". This includes clothing, hairstyle, photo quality, and the overall aesthetic of that decade. The output must be a photorealistic image showing the person clearly.".

(** [generateDecadeImage(image, prompt)] is external: calling it records the
    call and leaves a promise unresolved, with [a] waiting on it. *)
Definition generateDecadeImage (a : Awaiter) (image text : string) (s : Session) : Session :=
  mkSession (uploadedImage s) (generatedImages s) (appState s) (decadesQueue s)
            (unresolved s ++ [a]) (resolvedWorkers s) (roundRejected s)
            (invocations s ++ [(image, text)]) (published s).

(** [err instanceof Error ? err.message : "An unknown error occurred."] *)
Definition errorMessage (err : Thrown) : string :=
  match err with
  | ErrorObject message => message
  | OtherValue => "An unknown error occurred."
  end.

(** [try { body } catch (err) { handler }] on state-passing computations that
    either complete or throw. *)
Definition try_catch (body : Session -> Session * option Thrown)
    (handler : Thrown -> Session -> Session * option Thrown)
    (s : Session) : Session * option Thrown :=
  match body s with
  | (s', Some err) => handler err s'
  | (s', None) => (s', None)
  end.

(** [await p] when [p] has settled: the value, or a throw of the reason. *)
Definition await_settled (outcome : Settled string) (k : string -> Session -> Session * option Thrown)
    (s : Session) : Session * option Thrown :=
  match outcome with
  | Fulfilled v => k v s
  | Rejected err => (s, Some err)
  end.

(** [processDecade(decade)] up to its [await]: the call is issued. *)
Definition processDecade_call (image : string) (w : nat) (decade : string) (s : Session) : Session :=
  generateDecadeImage (ByWorker image w decade) image (prompt decade) s.

(** [processDecade(decade)] from its [await] on, once the call has settled. *)
Definition processDecade_resume (decade : string) (outcome : Settled string) : Session -> Session * option Thrown :=
  try_catch
    (await_settled outcome (fun resultUrl s => (publish decade (imageDone resultUrl) s, None)))
    (fun err s => (publish decade (imageError (errorMessage err)) s, None)).

Definition concurrencyLimit : nat := 2.

(** The body of a worker, from the loop test to its next [await] or to its
    return:
    [while (decadesQueue.length > 0) { const decade = decadesQueue.shift();
       if (decade) { await processDecade(decade); } }] *)
Fixpoint worker_loop (image : string) (w : nat) (queue : list string) (s : Session) : Session :=
  match queue with
  | [] => worker_returns w (with_decadesQueue [] s)
  | decade :: rest =>
      if truthy decade
      then processDecade_call image w decade (with_decadesQueue rest s)
      else worker_loop image w rest s
  end.

Definition worker (image : string) (w : nat) (s : Session) : Session :=
  worker_loop image w (decadesQueue s) s.

(** [await Promise.all(workers); setAppState('results-shown')]: runs when
    every worker has returned, and never once a worker has rejected. *)
Definition await_workers (s : Session) : Session :=
  match roundRejected s with
  | Some _ => s
  | None =>
      if decide (length (resolvedWorkers s) = concurrencyLimit)
      then setAppState results_shown s
      else s
  end.

(** [handleGenerateClick], up to [await Promise.all(workers)].  The source
    reads the constant [DECADES], so the handler of the component is
    [handleGenerateClick DECADES]; the list is a parameter here so that the
    statements do not depend on which six decades they are.  The queue and
    the workers are those of this call. *)
Definition handleGenerateClick (decades : list string) (s : Session) : Session :=
  match uploadedImage s with
  | None => s
  | Some image =>
      if truthy image then
        let s1 := setAppState generating s in
        let initialImages :=
          foldl (fun acc decade => <[decade := imagePending]> acc) ∅ decades in
        let s2 := with_generatedImages initialImages s1 in
        let s3 := with_round decades s2 in
        let s4 := foldl (fun s w => worker image w s) s3 (seq 0 concurrencyLimit) in
        await_workers s4
      else s
  end.

(** [generatedImages[decade]?.status === 'pending'] *)
Definition status_is_pending (o : option GeneratedImage) : bool :=
  match o with
  | Some (mkGeneratedImage Pending _ _) => true
  | _ => false
  end.

(** [handleRegenerateDecade(decade)] up to its [await]; the guard reads the
    [generatedImages] of the render the handler belongs to. *)
Definition handleRegenerateDecade (decade : string) (s : Session) : Session :=
  if negb (truthy_opt (uploadedImage s)) || status_is_pending (generatedImages s !! decade)
  then s
  else
    match uploadedImage s with
    | None => s
    | Some image =>
        generateDecadeImage (ByRegenerate image decade) image (prompt decade)
          (publish decade imagePending s)
    end.

(** [handleRegenerateDecade(decade)] from its [await] on. *)
Definition handleRegenerateDecade_resume (decade : string) (outcome : Settled string) : Session -> Session * option Thrown :=
  try_catch
    (await_settled outcome (fun resultUrl s => (publish decade (imageDone resultUrl) s, None)))
    (fun err s => (publish decade (imageError (errorMessage err)) s, None)).

(** The arguments a continuation called [generateDecadeImage] with. *)
Definition awaiter_decade (a : Awaiter) : string :=
  match a with
  | ByWorker _ _ decade => decade
  | ByRegenerate _ decade => decade
  end.

Definition awaiter_image (a : Awaiter) : string :=
  match a with
  | ByWorker image _ _ => image
  | ByRegenerate image _ => image
  end.

(** The environment settles the [i]-th unresolved call with [outcome]; the
    continuation waiting on it runs to its next [await]. *)
Definition settle (i : nat) (outcome : Settled string) (s : Session) : option Session :=
  match unresolved s !! i with
  | None => None
  | Some a =>
      let s1 := with_unresolved (delete i (unresolved s)) s in
      match a with
      | ByWorker image w decade =>
          match processDecade_resume decade outcome s1 with
          | (s2, None) => Some (await_workers (worker image w s2))
          | (s2, Some err) => Some (round_rejects err s2)
          end
      | ByRegenerate _ decade =>
          Some (fst (handleRegenerateDecade_resume decade outcome s1))
      end
  end.

(** A run of the environment: a sequence of settlements. *)
Fixpoint run (evs : list (nat * Settled string)) (s : Session) : option Session :=
  match evs with
  | [] => Some s
  | (i, outcome) :: evs' =>
      match settle i outcome s with
      | Some s' => run evs' s'
      | None => None
      end
  end.

(** A run against a given [generateDecadeImage]: the environment only
    chooses the order in which the unresolved calls settle, and each one
    settles to what the function gives for the arguments of that call. *)
Fixpoint run_generate (generate : string -> string -> Settled string)
    (order : list nat) (s : Session) : option Session :=
  match order with
  | [] => Some s
  | i :: order' =>
      match unresolved s !! i with
      | None => None
      | Some a =>
          match settle i (generate (awaiter_image a) (prompt (awaiter_decade a))) s with
          | Some s' => run_generate generate order' s'
          | None => None
          end
      end
  end.

(** The session after [handleFileChange]'s [onloadend]. *)
Definition imageUploaded (result : string) : Session :=
  mkSession (Some result) ∅ image_uploaded [] [] [] None [] [].

(** A round over [decades] on a freshly uploaded image. *)
Definition round (image : string) (decades : list string) : Session :=
  handleGenerateClick decades (imageUploaded image).

(** *** Bookkeeping used by the statements *)

Definition awaiter_worker (a : Awaiter) : option nat :=
  match a with
  | ByWorker _ w _ => Some w
  | ByRegenerate _ _ => None
  end.

(** The decades of the calls that are unresolved. *)
Definition awaited (s : Session) : list string := awaiter_decade <$> unresolved s.

(** The workers of a round that are suspended on a call or have returned. *)
Definition active (s : Session) : list nat :=
  omap awaiter_worker (unresolved s) ++ resolvedWorkers s.

(** The arguments of the call made for a decade. *)
Definition call (image decade : string) : string * string := (image, prompt decade).

(** The image a settled call is published as. *)
Definition outcome_image (outcome : Settled string) : GeneratedImage :=
  match outcome with
  | Fulfilled resultUrl => imageDone resultUrl
  | Rejected err => imageError (errorMessage err)
  end.

Definition initialImages (decades : list string) : gmap string GeneratedImage :=
  foldl (fun acc decade => <[decade := imagePending]> acc) ∅ decades.

Definition replay (m : gmap string GeneratedImage) (updates : list (string * GeneratedImage)) :
    gmap string GeneratedImage :=
  foldl (fun m p => <[p.1 := p.2]> m) m updates.

Definition settled_status (g : GeneratedImage) : Prop :=
  status g = Done \/ status g = Error.

Definition Truthy (s : string) : Prop := truthy s = true.

#[global] Instance Truthy_dec s : Decision (Truthy s).
Proof. unfold Truthy. apply _. Defined.

Local Open Scope list_scope.

(** The update published for a decade whose call [generate] rejects. *)
Definition rejected_update (generate : string -> string -> Settled string)
    (image : string) (p : string * GeneratedImage) : Prop :=
  exists err,
    generate image (prompt p.1) = Rejected err /\
    p.2 = mkGeneratedImage Error None (Some (errorMessage err)).

(** The invariant of a round over [decades] on [image]: the round has not
    rejected; every unresolved call is awaited by a worker; the non-empty
    decades are those published, awaited or still queued; the calls made are
    those of the decades published or awaited; every update published is
    done or error; once a worker has returned the queue is empty; and the
    result map is the initial one with the updates applied in order. *)
Record RoundInv (image : string) (decades : list string) (s : Session) : Prop := {
  inv_not_rejected : roundRejected s = None;
  inv_awaiters : Forall (fun a => exists w d, a = ByWorker image w d) (unresolved s);
  inv_accounted :
    filter Truthy decades ≡ₚ
      (published s).*1 ++ awaited s ++ filter Truthy (decadesQueue s);
  inv_invocations :
    invocations s ≡ₚ call image <$> ((published s).*1 ++ awaited s);
  inv_published : Forall (fun p => settled_status p.2) (published s);
  inv_queue : resolvedWorkers s <> [] -> decadesQueue s = [];
  inv_images : generatedImages s = replay (initialImages decades) (published s)
}.

(** A round as it stands when [handleGenerateClick] reaches its [await],
    and after any number of settlements. *)
Definition RoundState (image : string) (decades : list string) (s : Session) : Prop :=
  RoundInv image decades s /\
  active s ≡ₚ seq 0 concurrencyLimit /\
  appState s =
    (if decide (length (resolvedWorkers s) = concurrencyLimit)
     then results_shown else generating).

(** A sample run of the environment on a round over [DECADES]. *)
Definition sample_settlements : list (nat * Settled string) :=
  [(1, Fulfilled "data:image/png;base64,60s");
   (0, Rejected (ErrorObject "quota exceeded"));
   (1, Fulfilled "data:image/png;base64,80s");
   (0, Rejected OtherValue);
   (0, Fulfilled "data:image/png;base64,90s");
   (0, Fulfilled "data:image/png;base64,00s")].

(** A [generateDecadeImage] that always rejects. *)
Definition always_rejects (image text : string) : Settled string :=
  Rejected (ErrorObject "503 Service Unavailable").

(** *** The other handlers of the component *)

(** [handleReset]: the three state setters; the focused card is not part of
    the session, and nothing of a round or a retry in progress is touched. *)
Definition handleReset (s : Session) : Session :=
  mkSession None ∅ idle (decadesQueue s) (unresolved s) (resolvedWorkers s)
            (roundRejected s) (invocations s) (published s).

(** [reader.onloadend] of [handleFileChange(file)]; [reader.result] is the
    data URL, or [null] when the read failed. *)
Definition handleFileChange_onloadend (result : option string) (s : Session) : Session :=
  mkSession result ∅ image_uploaded (decadesQueue s) (unresolved s) (resolvedWorkers s)
            (roundRejected s) (invocations s) (published s).

(** [image?.status === 'done' && image.url] *)
Definition done_with_url (image : GeneratedImage) : bool :=
  match status image with
  | Done => truthy_opt (url image)
  | _ => false
  end.

(** [handleDownloadIndividualImage(decade)]: the link that is clicked, as its
    [href] and its [download] name, if there is one. *)
Definition handleDownloadIndividualImage (decade : string) (s : Session) :
    option (string * string) :=
  match generatedImages s !! decade with
  | Some image =>
      if done_with_url image
      then match url image with
           | Some href => Some (href, ("past-forward-" ++ decade ++ ".jpg")%string)
           | None => None
           end
      else None
  | None => None
  end.

(** [acc[key] = value] on an object held as its entries in the order of
    enumeration: a key already present keeps its place. *)
Fixpoint set_property (key value : string) (acc : list (string * string)) :
    list (string * string) :=
  match acc with
  | [] => [(key, value)]
  | (k, v) :: rest =>
      if String.eqb k key then (k, value) :: rest
      else (k, v) :: set_property key value rest
  end.

(** [Object.entries(generatedImages)
       .filter(([, image]) => image.status === 'done' && image.url)
       .reduce((acc, [decade, image]) => { acc[decade] = image.url; return acc; }, {})]
    on the entries of [generatedImages] in the order of enumeration. *)
Definition imageDataOf (entries : list (string * GeneratedImage)) : list (string * string) :=
  foldl (fun acc entry =>
           match url entry.2 with
           | Some href => set_property entry.1 href acc
           | None => acc
           end)
    [] (List.filter (fun entry => done_with_url entry.2) entries).

(** *** Bookkeeping used by the statements *)

(** A session with another component state and the same round. *)
Definition with_component (u : option string) (g : gmap string GeneratedImage)
    (a : AppState) (s : Session) : Session :=
  mkSession u g a (decadesQueue s) (unresolved s) (resolvedWorkers s)
            (roundRejected s) (invocations s) (published s).

(** Two sessions with the same round and retries in progress, and the same
    calls made and updates published so far. *)
Definition same_round (s t : Session) : Prop :=
  decadesQueue t = decadesQueue s /\ unresolved t = unresolved s /\
  resolvedWorkers t = resolvedWorkers s /\ roundRejected t = roundRejected s /\
  invocations t = invocations s /\ published t = published s.

(** The decades are taken off the queue from the front, and the calls made
    are those of the truthy decades taken, in that order. *)
Definition InOrder (image : string) (decades : list string) (s : Session) : Prop :=
  exists front,
    decades = front ++ decadesQueue s /\
    invocations s = call image <$> filter Truthy front.

(** The image a decade should end a round with, given what
    [generateDecadeImage] answers. *)
Definition expected_image (generate : string -> string -> Settled string)
    (image decade : string) : GeneratedImage :=
  outcome_image (generate image (prompt decade)).

(** A [generateDecadeImage] that fails for one decade only. *)
Definition fails_on_1970s (image text : string) : Settled string :=
  if String.eqb text (prompt "1970s")
  then Rejected (ErrorObject "safety filter")
  else Fulfilled ("data:image/png;base64," ++ String.substring 55 5 text)%string.

(** A session whose round over [DECADES] has resolved, every call
    rejected. *)
Definition failed_session : Session :=
  default (imageUploaded "photo")
    (run_generate always_rejects [0; 0; 0; 0; 0; 0] (round "photo" DECADES)).

Definition sample_entries : list (string * GeneratedImage) :=
  [("1950s", imageDone "data:image/png;base64,AAAA");
   ("1960s", imageError "quota exceeded");
   ("1970s", imagePending);
   ("1980s", imageDone "data:image/png;base64,BBBB");
   ("1990s", mkGeneratedImage Done None None);
   ("2000s", imageDone "")].

End App.

(** ** src/lib/albumUtils.ts *)
Module albumUtils.

(** JavaScript numbers are taken as exact rationals. *)
Local Open Scope Q_scope.

Definition Qnat (n : nat) : Q := inject_Z (Z.of_nat n).

(** The [HTMLImageElement] built by [loadImage]. *)
Record HTMLImageElement := mkImage {
  crossOrigin : string;
  src : string
}.

(** [ctx.translate] and [ctx.rotate] compose with the current transform: the
    transform of a context is the sequence applied since the identity. *)
Inductive Transform :=
  | Translate (x y : Q)
  | Rotate (angle : Q).

(** The drawing state of a 2D context, the part [save] and [restore] keep. *)
Record DrawState := mkDrawState {
  fillStyle : string;
  font : string;
  textAlign : string;
  shadowColor : string;
  shadowBlur : Q;
  shadowOffsetX : Q;
  shadowOffsetY : Q;
  transform : list Transform
}.

Inductive Draw :=
  | FillRect (x y w h : Q)
  | FillText (text : string) (x y : Q)
  | DrawImage (img : HTMLImageElement) (x y w h : Q).

(** What happens during a call, in order: a drawing on the surface under the
    drawing state of that moment, a font load awaited, an image load started
    ([img.src = src]) or settled ([onload] or [onerror]), the encoding. *)
Inductive Event :=
  | Paint (st : DrawState) (d : Draw)
  | FontLoaded (face : string)
  | LoadStarted (index : nat) (url : string)
  | LoadSettled (index : nat) (url : string) (loaded : bool)
  | Encoded (type : string) (quality : Q).

(** The canvas with its context, the events so far, and the number of
    [Math.random()] calls made. *)
Record Canvas := mkCanvas {
  width : Q;
  height : Q;
  current : DrawState;
  saved : list DrawState;
  trace : list Event;
  randoms : nat
}.

(** What the browser decides: whether [getContext('2d')] gives a context,
    whether [document.fonts.load] rejects, when the [index]-th image load
    settles and whether it is by [onload], and the values of
    [Math.random()]. *)
Record Env := mkEnv {
  getContext2d : bool;
  fonts_load : string -> option Thrown;
  image_load : nat -> string -> nat * bool;
  random : nat -> Q
}.

Definition initialDrawState : DrawState :=
  mkDrawState "#000000" "10px sans-serif" "start" "rgba(0, 0, 0, 0)" 0 0 0 [].

Definition createCanvas (w h : Q) : Canvas :=
  mkCanvas w h initialDrawState [] [] 0.

Definition with_current (st : DrawState) (c : Canvas) : Canvas :=
  mkCanvas (width c) (height c) st (saved c) (trace c) (randoms c).

Definition emit (e : Event) (c : Canvas) : Canvas :=
  mkCanvas (width c) (height c) (current c) (saved c) (trace c ++ [e]) (randoms c).

Definition set_fillStyle (v : string) (c : Canvas) : Canvas :=
  let st := current c in
  with_current (mkDrawState v (font st) (textAlign st) (shadowColor st) (shadowBlur st)
                  (shadowOffsetX st) (shadowOffsetY st) (transform st)) c.

Definition set_font (v : string) (c : Canvas) : Canvas :=
  let st := current c in
  with_current (mkDrawState (fillStyle st) v (textAlign st) (shadowColor st) (shadowBlur st)
                  (shadowOffsetX st) (shadowOffsetY st) (transform st)) c.

Definition set_textAlign (v : string) (c : Canvas) : Canvas :=
  let st := current c in
  with_current (mkDrawState (fillStyle st) (font st) v (shadowColor st) (shadowBlur st)
                  (shadowOffsetX st) (shadowOffsetY st) (transform st)) c.

Definition set_shadowColor (v : string) (c : Canvas) : Canvas :=
  let st := current c in
  with_current (mkDrawState (fillStyle st) (font st) (textAlign st) v (shadowBlur st)
                  (shadowOffsetX st) (shadowOffsetY st) (transform st)) c.

Definition set_shadowBlur (v : Q) (c : Canvas) : Canvas :=
  let st := current c in
  with_current (mkDrawState (fillStyle st) (font st) (textAlign st) (shadowColor st) v
                  (shadowOffsetX st) (shadowOffsetY st) (transform st)) c.

Definition set_shadowOffsetX (v : Q) (c : Canvas) : Canvas :=
  let st := current c in
  with_current (mkDrawState (fillStyle st) (font st) (textAlign st) (shadowColor st)
                  (shadowBlur st) v (shadowOffsetY st) (transform st)) c.

Definition set_shadowOffsetY (v : Q) (c : Canvas) : Canvas :=
  let st := current c in
  with_current (mkDrawState (fillStyle st) (font st) (textAlign st) (shadowColor st)
                  (shadowBlur st) (shadowOffsetX st) v (transform st)) c.

Definition apply_transform (t : Transform) (c : Canvas) : Canvas :=
  let st := current c in
  with_current (mkDrawState (fillStyle st) (font st) (textAlign st) (shadowColor st)
                  (shadowBlur st) (shadowOffsetX st) (shadowOffsetY st)
                  (transform st ++ [t])) c.

Definition translate (x y : Q) : Canvas -> Canvas := apply_transform (Translate x y).
Definition rotate (angle : Q) : Canvas -> Canvas := apply_transform (Rotate angle).

Definition save (c : Canvas) : Canvas :=
  mkCanvas (width c) (height c) (current c) (current c :: saved c) (trace c) (randoms c).

(** [restore] with nothing saved does nothing. *)
Definition restore (c : Canvas) : Canvas :=
  match saved c with
  | [] => c
  | st :: rest => mkCanvas (width c) (height c) st rest (trace c) (randoms c)
  end.

Definition paint (d : Draw) (c : Canvas) : Canvas := emit (Paint (current c) d) c.

Definition fillRect (x y w h : Q) : Canvas -> Canvas := paint (FillRect x y w h).
Definition fillText (text : string) (x y : Q) : Canvas -> Canvas := paint (FillText text x y).
Definition drawImage (img : HTMLImageElement) (x y w h : Q) : Canvas -> Canvas :=
  paint (DrawImage img x y w h).

(** [Math.random()]: the next value of the environment. *)
Definition Math_random (env : Env) (c : Canvas) : Q * Canvas :=
  (random env (randoms c),
   mkCanvas (width c) (height c) (current c) (saved c) (trace c) (S (randoms c))).

(** The value of [canvas.toDataURL(type, quality)]: the encoding, the size
    of the surface and what was drawn on it. *)
Record EncodedImage := mkEncodedImage {
  mimeType : string;
  encoderQuality : Q;
  pixelWidth : Q;
  pixelHeight : Q;
  painted : list (DrawState * Draw)
}.

Definition event_paint (e : Event) : option (DrawState * Draw) :=
  match e with
  | Paint st d => Some (st, d)
  | _ => None
  end.

Definition toDataURL (type : string) (quality : Q) (c : Canvas) : EncodedImage * Canvas :=
  (mkEncodedImage type quality (width c) (height c) (omap event_paint (trace c)),
   emit (Encoded type quality) c).

(** The rejection of [loadImage(src)]:
    [new Error(`Failed to load image: ${src.substring(0, 50)}...`)] *)
Definition loadFailure (url : string) : Thrown :=
  ErrorObject ("Failed to load image: " ++ String.substring 0 50 url ++ "...")%string.

(** [loadImage(src)] up to the return of its promise: the image element is
    created and its load started. *)
Definition loadImage (index : nat) (url : string) (c : Canvas) : HTMLImageElement * Canvas :=
  (mkImage "anonymous" url, emit (LoadStarted index url) c).

(** What the promise of the [index]-th [loadImage(src)] settles to. *)
Definition loadImage_settled (env : Env) (index : nat) (url : string) : Settled HTMLImageElement :=
  if (image_load env index url).2
  then Fulfilled (mkImage "anonymous" url)
  else Rejected (loadFailure url).

(** [values.map(url => loadImage(url))], from [index] on. *)
Fixpoint loadImages (index : nat) (urls : list string) (c : Canvas) : Canvas :=
  match urls with
  | [] => c
  | url :: rest => loadImages (S index) rest (snd (loadImage index url c))
  end.

Fixpoint indexed {A} (index : nat) (l : list A) : list (nat * A) :=
  match l with
  | [] => []
  | x :: rest => (index, x) :: indexed (S index) rest
  end.

(** The loads in the order in which they settle. *)
Definition settles_before (env : Env) (a b : nat * string) : Prop :=
  ((image_load env a.1 a.2).1 <= (image_load env b.1 b.2).1)%nat.

#[global] Instance settles_before_dec env a b : Decision (settles_before env a b).
Proof. unfold settles_before. apply _. Defined.

Definition settle_order (env : Env) (urls : list string) : list (nat * string) :=
  merge_sort (settles_before env) (indexed 0 urls).

(** [await Promise.all(promises)]: the loads settle in their order; the
    first rejection rejects the whole and is thrown at the [await], and
    when none rejects the values come in the order of the promises. *)
Fixpoint await_loads (env : Env) (settling : list (nat * string)) (c : Canvas) :
    Canvas * option Thrown :=
  match settling with
  | [] => (c, None)
  | (index, url) :: rest =>
      match loadImage_settled env index url with
      | Fulfilled _ => await_loads env rest (emit (LoadSettled index url true) c)
      | Rejected err => (emit (LoadSettled index url false) c, Some err)
      end
  end.

Definition Promise_all_loadImage (env : Env) (urls : list string) (c : Canvas) :
    Canvas * Settled (list HTMLImageElement) :=
  let c1 := loadImages 0 urls c in
  match await_loads env (settle_order env urls) c1 with
  | (c2, Some err) => (c2, Rejected err)
  | (c2, None) => (c2, Fulfilled (mkImage "anonymous" <$> urls))
  end.

(** [await document.fonts.load(face)] *)
Definition await_fonts_load (env : Env) (face : string) (c : Canvas) : Canvas * option Thrown :=
  match fonts_load env face with
  | Some err => (c, Some err)
  | None => (emit (FontLoaded face) c, None)
  end.

Definition canvasWidth : Q := 2480.
Definition canvasHeight : Q := 3508.

(** [const grid = { cols: 2, rows: 3, padding: 100 }] *)
Definition grid_cols : nat := 2.
Definition grid_rows : nat := 3.
Definition grid_padding : Q := 100.

Definition contentTopMargin : Q := 400.
Definition contentHeight : Q := canvasHeight - contentTopMargin.
Definition cellWidth : Q :=
  (canvasWidth - grid_padding * (Qnat grid_cols + 1)) / Qnat grid_cols.
Definition cellHeight : Q :=
  (contentHeight - grid_padding * (Qnat grid_rows + 1)) / Qnat grid_rows.

Definition polaroidFrameColor : string := "#FFFFFF".

(** [(Math.random() - 0.5) * 0.07] *)
Definition rotation (r : Q) : Q := (r - 0.5) * 0.07.

Definition cellX (index : nat) : Q :=
  grid_padding + Qnat (index mod grid_cols) * (cellWidth + grid_padding).
Definition cellY (index : nat) : Q :=
  contentTopMargin + grid_padding + Qnat (index / grid_cols) * (cellHeight + grid_padding).

Definition polaroidWidth : Q := cellWidth * 0.8.
Definition polaroidHeight : Q := polaroidWidth * 1.2.
Definition imageMargin : Q := polaroidWidth * 0.05.
Definition imageWidth : Q := polaroidWidth - imageMargin * 2.
Definition imageHeight : Q := imageWidth.
Definition imageX : Q := - imageWidth / 2.
Definition imageY : Q := - polaroidHeight / 2 + imageMargin.
Definition captionY : Q :=
  imageY + imageHeight + (polaroidHeight / 2 - imageMargin - imageHeight) / 2 + 30.

(** The body of [imagesWithDecades.forEach(({ decade, img }, index) => ...)]. *)
Definition drawPolaroid (env : Env) (index : nat) (decade : string) (img : HTMLImageElement)
    (c : Canvas) : Canvas :=
  let c := save c in
  let c := translate (cellX index + cellWidth / 2) (cellY index + cellHeight / 2) c in
  let (r, c) := Math_random env c in
  let c := rotate (rotation r) c in
  let c := set_shadowColor "rgba(40, 50, 70, 0.15)" c in
  let c := set_shadowBlur 60 c in
  let c := set_shadowOffsetX 0 c in
  let c := set_shadowOffsetY 15 c in
  let c := set_fillStyle polaroidFrameColor c in
  let c := fillRect (- polaroidWidth / 2) (- polaroidHeight / 2) polaroidWidth polaroidHeight c in
  let c := set_shadowColor "transparent" c in
  let c := drawImage img imageX imageY imageWidth imageHeight c in
  let c := set_fillStyle "#1e293b" c in
  let c := set_font "500 80px 'Inter', sans-serif" c in
  let c := set_textAlign "center" c in
  let c := fillText decade 0 captionY c in
  restore c.

(** [array.forEach((element, index) => ...)], from [index] on. *)
Fixpoint forEach {A : Type} (callback : A -> nat -> Canvas -> Canvas) (index : nat)
    (array : list A) (c : Canvas) : Canvas :=
  match array with
  | [] => c
  | element :: rest => forEach callback (S index) rest (callback element index c)
  end.

(** [createAlbumPage(imageData)], with [imageData] as its entries in the
    order [Object.keys] and [Object.values] enumerate them: the events of the
    call and what its promise settles to. *)
Definition createAlbumPage (env : Env) (imageData : list (string * string)) :
    list Event * Settled EncodedImage :=
  let canvas := createCanvas canvasWidth canvasHeight in
  if negb (getContext2d env)
  then (trace canvas, Rejected (ErrorObject "Could not get 2D canvas context"))
  else
    let c := set_fillStyle "#F8FAFC" canvas in
    let c := fillRect 0 0 canvasWidth canvasHeight c in
    let c := set_fillStyle "#0f172a" c in
    let c := set_textAlign "center" c in
    match await_fonts_load env "150px Poppins" c with
    | (c, Some err) => (trace c, Rejected err)
    | (c, None) =>
    match await_fonts_load env "80px Inter" c with
    | (c, Some err) => (trace c, Rejected err)
    | (c, None) =>
        let c := set_font "600 150px 'Poppins', sans-serif" c in
        let c := fillText "Past Forward" (canvasWidth / 2) 250 c in
        let decades := imageData.*1 in
        match Promise_all_loadImage env (imageData.*2) c with
        | (c, Rejected err) => (trace c, Rejected err)
        | (c, Fulfilled loadedImages) =>
            let imagesWithDecades := zip decades loadedImages in
            let c :=
              forEach (fun entry index => drawPolaroid env index entry.1 entry.2)
                0 imagesWithDecades c in
            let (dataUrl, c) := toDataURL "image/jpeg" 0.92 c in
            (trace c, Fulfilled dataUrl)
        end
    end
    end.

Local Open Scope list_scope.

(** *** Bookkeeping used by the statements *)

(** The paintings of one polaroid, drawn from the state [base] with the
    random value [r]: the frame, the image, the caption. *)
Definition polaroid_transform (base : DrawState) (index : nat) (r : Q) : list Transform :=
  (transform base ++
     [Translate (cellX index + cellWidth / 2) (cellY index + cellHeight / 2)]) ++
  [Rotate (rotation r)].

Definition polaroid_paints (base : DrawState) (index : nat) (r : Q)
    (decade : string) (img : HTMLImageElement) : list (DrawState * Draw) :=
  let t := polaroid_transform base index r in
  [(mkDrawState polaroidFrameColor (font base) (textAlign base)
      "rgba(40, 50, 70, 0.15)" 60 0 15 t,
    FillRect (- polaroidWidth / 2) (- polaroidHeight / 2) polaroidWidth polaroidHeight);
   (mkDrawState polaroidFrameColor (font base) (textAlign base) "transparent" 60 0 15 t,
    DrawImage img imageX imageY imageWidth imageHeight);
   (mkDrawState "#1e293b" "500 80px 'Inter', sans-serif" "center" "transparent" 60 0 15 t,
    FillText decade 0 captionY)].

Fixpoint polaroids (env : Env) (base : DrawState) (index n : nat)
    (imagesWithDecades : list (string * HTMLImageElement)) : list (DrawState * Draw) :=
  match imagesWithDecades with
  | [] => []
  | (decade, img) :: rest =>
      polaroid_paints base index (random env n) decade img ++
      polaroids env base (S index) (S n) rest
  end.

Definition paint_event (p : DrawState * Draw) : Event := Paint p.1 p.2.

Definition is_load (e : Event) : bool :=
  match e with
  | LoadStarted _ _ | LoadSettled _ _ _ => true
  | _ => false
  end.

Definition is_cell (p : DrawState * Draw) : bool :=
  match p.2 with
  | DrawImage _ _ _ _ _ => true
  | _ => false
  end.

(** The rendered cells of a page: its [drawImage] paintings, in order. *)
Definition cells (page : EncodedImage) : list (DrawState * Draw) :=
  List.filter is_cell (painted page).

(** The state under which the page is filled and the one under which the
    title is written, and the two paintings. *)
Definition backgroundState : DrawState :=
  mkDrawState "#F8FAFC" "10px sans-serif" "start" "rgba(0, 0, 0, 0)" 0 0 0 [].
Definition titleState : DrawState :=
  mkDrawState "#0f172a" "600 150px 'Poppins', sans-serif" "center" "rgba(0, 0, 0, 0)" 0 0 0 [].
Definition backgroundFill : DrawState * Draw :=
  (backgroundState, FillRect 0 0 canvasWidth canvasHeight).
Definition titleText : DrawState * Draw :=
  (titleState, FillText "Past Forward" (canvasWidth / 2) 250).

Definition fonts_ready (env : Env) : Prop :=
  fonts_load env "150px Poppins" = None /\ fonts_load env "80px Inter" = None.

Definition all_decode (env : Env) (urls : list string) : Prop :=
  forall i url, urls !! i = Some url -> (image_load env i url).2 = true.

(** The events up to the title, and the canvas they leave. *)
Definition header : list Event :=
  [paint_event backgroundFill; FontLoaded "150px Poppins"; FontLoaded "80px Inter";
   paint_event titleText].

Definition load_started (p : nat * string) : Event := LoadStarted p.1 p.2.
Definition load_settled (loaded : bool) (p : nat * string) : Event :=
  LoadSettled p.1 p.2 loaded.

(** The page [createAlbumPage] encodes for the entries [imageData]. *)
Definition album_polaroids (env : Env) (imageData : list (string * string)) :
    list (DrawState * Draw) :=
  polaroids env titleState 0 0 (zip imageData.*1 (mkImage "anonymous" <$> imageData.*2)).

Definition album_page (env : Env) (imageData : list (string * string)) : EncodedImage :=
  mkEncodedImage "image/jpeg" 0.92 canvasWidth canvasHeight
    ([backgroundFill; titleText] ++ album_polaroids env imageData).

Definition is_encoded (e : Event) : bool :=
  match e with
  | Encoded _ _ => true
  | _ => false
  end.

(** C4 as it is stated: every load has settled before anything is drawn. *)
Definition barrier_claim_as_stated : Prop :=
  forall env imageData n m st d i url loaded,
    (createAlbumPage env imageData).1 !! n = Some (Paint st d) ->
    (createAlbumPage env imageData).1 !! m = Some (LoadSettled i url loaded) ->
    (m < n)%nat.

(** Sample environments: every load succeeds, the later sources first; the
    same with the load of the first source failing. *)
Definition sample_env : Env :=
  mkEnv true (fun _ => None) (fun i _ => ((5 - i)%nat, true))
    (fun n => if Nat.even n then 0 else 0.9).
Definition failing_env : Env :=
  mkEnv true (fun _ => None) (fun i _ => ((5 - i)%nat, negb (Nat.eqb i 0)))
    (fun n => if Nat.even n then 0 else 0.9).
Definition sample_imageData : list (string * string) :=
  [("1950s", "data:image/png;base64,AAAA"); ("1980s", "data:image/png;base64,BBBB")]%string.

(** A load that has settled by [onload]. *)
Definition loaded (env : Env) (p : nat * string) : Prop :=
  (image_load env p.1 p.2).2 = true.

(** The edges, in page coordinates, of a rectangle drawn at [(x, y)] with
    size [(w, h)] under a translation by [(cx, cy)], no rotation applied,
    and whether they lie on a surface of the given size. *)
Definition on_surface (width height cx cy x y w h : Q) : Prop :=
  0 <= cx + x /\ cx + x + w <= width /\ 0 <= cy + y /\ cy + y + h <= height.

(** An environment in which the first two of three loads fail, the second
    before the first, and the part of the session they are requested for. *)
Definition racing_env : Env :=
  mkEnv true (fun _ => None)
    (fun i _ => match i with
                | 0%nat => (7%nat, false)
                | 1%nat => (3%nat, false)
                | _ => (1%nat, true)
                end)
    (fun _ => 0.5).
Definition three_sources : list (string * string) :=
  [("1950s", "data:image/png;base64,AAAA"); ("1980s", "data:image/png;base64,BBBB");
   ("2000s", "data:image/png;base64,CCCC")]%string.
Definition seven_sources : list (string * string) :=
  (fun decade => (decade, "data:image/png;base64,AAAA")) <$>
  ["1940s"; "1950s"; "1960s"; "1970s"; "1980s"; "1990s"; "2000s"]%string.

End albumUtils.

(** ** src/App.tsx, the handlers that download and share *)
Module AppAlbum.
Import App.
Import albumUtils.
Local Open Scope list_scope.

(** What these handlers ask of the browser, besides the canvas of
    [createAlbumPage]: the answer to [window.confirm]; the rejection of
    [zip.generateAsync], if it rejects; whether the [fetch] of
    [dataUrlToFile] or its [blob()] fails; whether
    [navigator.canShare] is there and accepts the file; and the rejection
    of [navigator.share], if it rejects. *)
Record Browser := mkBrowser {
  canvas : Env;
  confirm : bool;
  zip_fails : option Thrown;
  fetch_fails : bool;
  canShare : bool;
  share_rejects : option Thrown
}.

(** The data given to [zip.file(name, data, { base64: true })]: the part of
    the album page's data URL after its comma, or [url.split(',')[1]] of an
    image, which is [undefined] when the URL has no comma. *)
Inductive ZipData :=
  | AlbumData (page : EncodedImage)
  | ImageData (base64Data : option string).

(** What a handler does that can be seen, in order.  [Confirm ready total]
    is [window.confirm] asked whether to download [ready] images out of
    [total]; [CreateAlbumPage] is a call of [createAlbumPage] with what
    happened in it; [ZipDownload] is the click on the link to the ZIP blob;
    [Share] is [navigator.share] called with a file of that name.  Console
    output is left out. *)
Inductive Effect :=
  | SetIsDownloading (value : bool)
  | SetIsSharing (value : bool)
  | Alert (message : string)
  | Confirm (ready total : nat)
  | CreateAlbumPage (imageData : list (string * string)) (events : list Event)
  | ZipFile (name : string) (data : ZipData)
  | ZipDownload (name : string)
  | Share (file title text : string).

(** [s.split(',')] *)
Fixpoint split_comma (s : string) : list string :=
  match s with
  | EmptyString => [EmptyString]
  | String c rest =>
      if String.eqb (String c EmptyString) "," then EmptyString :: split_comma rest
      else match split_comma rest with
           | first :: others => String c first :: others
           | [] => [String c EmptyString]
           end
  end.

(** [dataUrlToFile(dataUrl, filename)]: the file, as its name, or [null];
    it never rejects. *)
Definition dataUrlToFile (browser : Browser) (filename : string) : option string :=
  if fetch_fails browser then None else Some filename.

(** [handleShareIndividualImage(decade)] *)
Definition handleShareIndividualImage (browser : Browser) (decade : string)
    (s : Session) : list Effect :=
  match generatedImages s !! decade with
  | None => []
  | Some image =>
      if negb (done_with_url image) then []
      else
        match dataUrlToFile browser ("past-forward-" ++ decade ++ ".jpg")%string with
        | None => [Alert "Could not prepare image for sharing."]
        | Some file =>
            if canShare browser
            then [Share file ("My " ++ decade ++ " look! | Past Forward")%string
                    ("Check out my photo from the " ++ decade ++
                     ", generated with Past Forward on Google AI Studio!")%string]
            else [Alert "Sharing this image is not supported on your browser."]
        end
  end.

(** The files added to the ZIP: the album page, then one per image of
    [imageData], in the order of [for (const decade in imageData)]. *)
Definition zipFiles (page : EncodedImage) (imageData : list (string * string)) :
    list Effect :=
  ZipFile "past-forward-album.jpg" (AlbumData page) ::
  ((fun entry =>
      ZipFile ("past-forward-" ++ entry.1 ++ ".jpg")%string
        (ImageData (split_comma entry.2 !! 1%nat))) <$> imageData).

(** The [try] block of [handleDownloadAlbum], on the entries of
    [generatedImages]: what it does, and what it throws when it does. *)
Definition downloadAlbum_try (browser : Browser)
    (entries : list (string * GeneratedImage)) : list Effect * option Thrown :=
  let imageData := imageDataOf entries in
  let generatedCount := length imageData in
  if (generatedCount =? 0)%nat
  then ([Alert "There are no images to download yet."], None)
  else
    let partial := (generatedCount <? length DECADES)%nat in
    let asked := if partial then [Confirm generatedCount (length DECADES)] else [] in
    if partial && negb (confirm browser)
    then (asked, None)
    else
      match createAlbumPage (canvas browser) imageData with
      | (events, Rejected err) => (asked ++ [CreateAlbumPage imageData events], Some err)
      | (events, Fulfilled albumDataUrl) =>
          let zipped :=
            asked ++ [CreateAlbumPage imageData events] ++ zipFiles albumDataUrl imageData in
          match zip_fails browser with
          | Some err => (zipped, Some err)
          | None => (zipped ++ [ZipDownload "past-forward-album.zip"], None)
          end
      end.

(** [handleDownloadAlbum]: the [try] block between the two settings of the
    flag, with the alert of the [catch] when the block throws. *)
Definition handleDownloadAlbum (browser : Browser)
    (entries : list (string * GeneratedImage)) : list Effect :=
  [SetIsDownloading true] ++
  (downloadAlbum_try browser entries).1 ++
  match (downloadAlbum_try browser entries).2 with
  | Some _ =>
      [Alert "Sorry, there was an error creating your album ZIP file. Please try again."]
  | None => []
  end ++
  [SetIsDownloading false].

(** The [try] block of [handleShareAlbum]. *)
Definition shareAlbum_try (browser : Browser)
    (entries : list (string * GeneratedImage)) : list Effect * option Thrown :=
  let imageData := imageDataOf entries in
  if (length imageData =? 0)%nat
  then ([Alert "No finished images to share in an album yet."], None)
  else
    match createAlbumPage (canvas browser) imageData with
    | (events, Rejected err) => ([CreateAlbumPage imageData events], Some err)
    | (events, Fulfilled albumDataUrl) =>
        match dataUrlToFile browser "past-forward-album.jpg" with
        | None =>
            ([CreateAlbumPage imageData events;
              Alert "Could not prepare album for sharing."], None)
        | Some file =>
            if canShare browser
            then ([CreateAlbumPage imageData events;
                   Share file "My Past Forward Album!"
                     "I traveled through time with Past Forward on Google AI Studio! Check out my album."],
                  share_rejects browser)
            else ([CreateAlbumPage imageData events;
                   Alert "Sharing albums is not supported on your browser. Please download it to share."],
                  None)
        end
    end.

(** [handleShareAlbum] *)
Definition handleShareAlbum (browser : Browser)
    (entries : list (string * GeneratedImage)) : list Effect :=
  [SetIsSharing true] ++
  (shareAlbum_try browser entries).1 ++
  match (shareAlbum_try browser entries).2 with
  | Some _ =>
      [Alert "Sorry, there was an error creating your album for sharing. Please try again."]
  | None => []
  end ++
  [SetIsSharing false].

(** *** Bookkeeping used by the statements *)

(** The entry of the album for an entry of [generatedImages], if it is done
    and has a URL. *)
Definition ready (entry : string * GeneratedImage) : option (string * string) :=
  if done_with_url entry.2
  then (fun href => (entry.1, href)) <$> url entry.2
  else None.

Definition is_alert (e : Effect) : bool :=
  match e with Alert _ => true | _ => false end.

Definition is_zip_file (e : Effect) : bool :=
  match e with ZipFile _ _ => true | _ => false end.

Definition is_download (e : Effect) : bool :=
  match e with ZipDownload _ => true | _ => false end.

Definition is_composition (e : Effect) : bool :=
  match e with CreateAlbumPage _ _ => true | _ => false end.

Definition is_flag (e : Effect) : bool :=
  match e with SetIsDownloading _ | SetIsSharing _ => true | _ => false end.

Definition is_share (e : Effect) : bool :=
  match e with Share _ _ _ => true | _ => false end.

Definition is_confirm (e : Effect) : bool :=
  match e with Confirm _ _ => true | _ => false end.

(** A browser in which everything works and the user accepts. *)
Definition sample_browser : Browser :=
  mkBrowser sample_env true None false true None.

End AppAlbum.

(** ** Properties of the generation scheduler *)
Module AppProps.
Import App.
Local Open Scope list_scope.

(** *** The worker loop *)

(** A worker that resumes either finds no truthy decade left and returns, or
    shifts the queue down to its first truthy decade and issues one call. *)
Lemma worker_loop_cases image w queue s :
  (filter Truthy queue = [] /\
   worker_loop image w queue s = worker_returns w (with_decadesQueue [] s))
  \/ (exists decade rest,
       Truthy decade /\
       filter Truthy queue = decade :: filter Truthy rest /\
       queue <> [] /\
       worker_loop image w queue s =
         processDecade_call image w decade (with_decadesQueue rest s)).
Proof.
  induction queue as [|d q IH]; simpl.
  - by left.
  - destruct (truthy d) eqn:Hd.
    + right. exists d, q. rewrite filter_cons_True by done. done.
    + rewrite filter_cons_False by (unfold Truthy; congruence).
      destruct IH as [[-> ->]|(d' & rest & ? & -> & ? & ->)]; [by left|].
      right. by exists d', rest.
Qed.

(** *** The invariant of a round *)

Lemma worker_inv image decades w s :
  RoundInv image decades s ->
  RoundInv image decades (worker image w s) /\
  active (worker image w s) ≡ₚ w :: active s.
Proof.
  intros [Hrej Haw Hacc Hinv Hpub Hq Himg]. unfold worker.
  destruct (worker_loop_cases image w (decadesQueue s) s)
    as [[Hf ->]|(d & rest & Hd & Hf & Hne & ->)].
  - split; [split; simpl; try done|].
    + rewrite Hf in Hacc. by rewrite filter_nil.
    + unfold active; simpl. rewrite (assoc_L (++)). by rewrite <- Permutation_cons_append.
  - split; [split; simpl; try done|].
    + apply Forall_app; split; [done|]. apply Forall_singleton. by exists w, d.
    + unfold awaited in *; simpl. rewrite Hacc, Hf, fmap_app. simpl.
      by rewrite <- !(assoc_L (++)).
    + unfold awaited in *; simpl. rewrite Hinv, !fmap_app. simpl.
      by rewrite (assoc_L (++)).
    + intros Hr. specialize (Hq Hr). congruence.
    + unfold active; simpl. rewrite omap_app; simpl.
      rewrite <- !(assoc_L (++)). simpl. by rewrite <- Permutation_middle.
Qed.

Lemma RoundInv_setAppState image decades a s :
  RoundInv image decades s -> RoundInv image decades (setAppState a s).
Proof. intros []. by split. Qed.

Lemma await_workers_cases s :
  await_workers s = s \/
  (roundRejected s = None /\ length (resolvedWorkers s) = concurrencyLimit /\
   await_workers s = setAppState results_shown s).
Proof.
  unfold await_workers. destruct (roundRejected s); [by left|].
  case_decide; [by right|by left].
Qed.

Lemma await_workers_inv image decades s :
  RoundInv image decades s ->
  RoundInv image decades (await_workers s) /\
  active (await_workers s) = active s /\
  published (await_workers s) = published s /\
  resolvedWorkers (await_workers s) = resolvedWorkers s.
Proof.
  intros H. destruct (await_workers_cases s) as [->|(_ & _ & ->)]; [done|].
  split; [by apply RoundInv_setAppState|done].
Qed.

Lemma await_workers_appState s :
  roundRejected s = None -> appState s = generating ->
  appState (await_workers s) =
    if decide (length (resolvedWorkers s) = concurrencyLimit)
    then results_shown else generating.
Proof.
  intros Hr Hg. unfold await_workers. rewrite Hr. by case_decide.
Qed.

(** Both branches of [processDecade] end in one update and complete
    normally: the [catch] leaves nothing to propagate. *)
Lemma processDecade_resume_publishes decade outcome s :
  processDecade_resume decade outcome s =
    (publish decade (outcome_image outcome) s, None).
Proof. by destruct outcome. Qed.

Lemma handleRegenerateDecade_resume_publishes decade outcome s :
  handleRegenerateDecade_resume decade outcome s =
    (publish decade (outcome_image outcome) s, None).
Proof. by destruct outcome. Qed.

Lemma settle_worker image w decade i outcome s :
  unresolved s !! i = Some (ByWorker image w decade) ->
  settle i outcome s =
    Some (await_workers (worker image w
      (publish decade (outcome_image outcome)
         (with_unresolved (delete i (unresolved s)) s)))).
Proof.
  intros H. unfold settle. rewrite H.
  by rewrite processDecade_resume_publishes.
Qed.

Lemma settled_status_outcome outcome : settled_status (outcome_image outcome).
Proof. destruct outcome; [by left|by right]. Qed.

(** The state in which a worker resumes: its call has left the unresolved
    ones and the update of its decade is published. *)
Lemma resumed_inv image decades i w decade g s :
  RoundInv image decades s ->
  unresolved s !! i = Some (ByWorker image w decade) ->
  settled_status g ->
  let s1 := publish decade g (with_unresolved (delete i (unresolved s)) s) in
  RoundInv image decades s1 /\ w :: active s1 ≡ₚ active s.
Proof.
  intros [Hrej Haw Hacc Hinv Hpub Hq Himg] Hi Hg.
  pose proof (delete_Permutation _ _ _ Hi) as Hperm.
  unfold active, awaited in *. simpl.
  revert Hperm. generalize (delete i (unresolved s)). intros u' Hperm.
  split; [split; simpl; try done|].
  - rewrite Hperm in Haw. by apply Forall_cons in Haw as [_ ?].
  - unfold awaited; simpl. rewrite fmap_app, Hacc, Hperm. csimpl.
    rewrite <- (assoc_L (++)). simpl. by rewrite <- Permutation_middle.
  - unfold awaited; simpl. rewrite Hinv, Hperm, !fmap_app. csimpl.
    rewrite <- !(assoc_L (++)). simpl. by rewrite <- Permutation_middle.
  - apply Forall_app; split; [done|]. by apply Forall_singleton.
  - unfold replay in *. rewrite foldl_app. simpl. by rewrite Himg.
  - by rewrite Hperm.
Qed.

Lemma settle_inv image decades i outcome s s' :
  RoundInv image decades s ->
  settle i outcome s = Some s' ->
  exists w decade,
    unresolved s !! i = Some (ByWorker image w decade) /\
    published s' = published s ++ [(decade, outcome_image outcome)] /\
    resolvedWorkers s' =
      resolvedWorkers
        (worker image w
           (publish decade (outcome_image outcome)
              (with_unresolved (delete i (unresolved s)) s))) /\
    RoundInv image decades s' /\
    active s' ≡ₚ active s.
Proof.
  intros Hs Hstep.
  destruct (unresolved s !! i) as [a|] eqn:Hi;
    [|by unfold settle in Hstep; rewrite Hi in Hstep].
  assert (exists w d, a = ByWorker image w d) as (w & d & ->).
  { pose proof (inv_awaiters _ _ _ Hs) as Haw.
    rewrite Forall_forall in Haw. apply Haw. by eapply list_elem_of_lookup_2. }
  rewrite (settle_worker _ _ _ _ _ _ Hi) in Hstep.
  injection Hstep as <-. exists w, d. split; [done|].
  destruct (resumed_inv _ _ _ _ _ _ _ Hs Hi (settled_status_outcome outcome))
    as [H1 Hact1].
  set (s1 := publish d (outcome_image outcome)
               (with_unresolved (delete i (unresolved s)) s)) in *.
  destruct (worker_inv image decades w s1 H1) as [H2 Hact].
  destruct (await_workers_inv _ _ _ H2) as (H3 & -> & -> & ->).
  split; [|split; [done|split; [done|]]].
  - unfold worker.
    destruct (worker_loop_cases image w (decadesQueue s1) s1)
      as [[_ ->]|(? & ? & _ & _ & _ & ->)]; done.
  - by rewrite Hact.
Qed.

Lemma spawn_inv image decades ws s :
  RoundInv image decades s ->
  RoundInv image decades (foldl (fun s w => worker image w s) s ws) /\
  active (foldl (fun s w => worker image w s) s ws) ≡ₚ ws ++ active s.
Proof.
  revert s. induction ws as [|w ws IH]; intros s Hs; simpl; [done|].
  destruct (worker_inv image decades w s Hs) as [H1 Hact].
  destruct (IH _ H1) as [H2 Hact2]. split; [done|].
  rewrite Hact2, Hact. by rewrite <- Permutation_middle.
Qed.

Lemma round_unfold image decades :
  Truthy image ->
  round image decades =
    await_workers
      (foldl (fun s w => worker image w s)
         (with_decadesQueue decades
            (with_generatedImages (initialImages decades)
               (setAppState generating (imageUploaded image))))
         (seq 0 concurrencyLimit)).
Proof.
  intros Hi. unfold round, handleGenerateClick. simpl. by rewrite Hi.
Qed.

Lemma spawn_fields image ws s :
  roundRejected (foldl (fun s w => worker image w s) s ws) = roundRejected s /\
  appState (foldl (fun s w => worker image w s) s ws) = appState s.
Proof.
  revert s. induction ws as [|w ws IH]; intros s; simpl; [done|].
  destruct (IH (worker image w s)) as [-> ->]. unfold worker.
  destruct (worker_loop_cases image w (decadesQueue s) s)
    as [[_ ->]|(? & ? & _ & _ & _ & ->)]; done.
Qed.

Lemma round_start image decades :
  Truthy image -> RoundState image decades (round image decades).
Proof.
  intros Hi. rewrite (round_unfold _ _ Hi).
  set (s0 := with_decadesQueue decades _).
  assert (RoundInv image decades s0) as H0.
  { by split. }
  destruct (spawn_inv image decades (seq 0 concurrencyLimit) s0 H0) as [H1 Hact].
  destruct (spawn_fields image (seq 0 concurrencyLimit) s0) as [Hrej Happ].
  destruct (await_workers_inv _ _ _ H1) as (H2 & Ha & _ & Hr).
  split; [done|split].
  - rewrite Ha, Hact. by unfold active.
  - rewrite Hr. by apply await_workers_appState.
Qed.

Lemma worker_appState image w s : appState (worker image w s) = appState s.
Proof.
  unfold worker.
  destruct (worker_loop_cases image w (decadesQueue s) s)
    as [[_ ->]|(? & ? & _ & _ & _ & ->)]; done.
Qed.

Lemma RoundState_resolved image decades s :
  RoundState image decades s ->
  (appState s = results_shown <-> unresolved s = []).
Proof.
  intros (Hs & Hact & Happ). rewrite Happ.
  pose proof (inv_awaiters _ _ _ Hs) as Haw.
  assert (length (omap awaiter_worker (unresolved s)) = length (unresolved s)) as Hlen.
  { clear -Haw. induction Haw as [|a u (w & d & ->) _ IH]; simpl; [done|]. by f_equal. }
  apply Permutation_length in Hact. unfold active in Hact.
  rewrite length_app, length_seq, Hlen in Hact.
  case_decide as Hl.
  - split; [intros _|done]. apply length_zero_iff_nil. lia.
  - split; [done|]. intros Hu. rewrite Hu in Hact. simpl in Hact. lia.
Qed.

Lemma settle_state image decades i outcome s s' :
  RoundState image decades s ->
  settle i outcome s = Some s' ->
  RoundState image decades s' /\
  exists w decade,
    unresolved s !! i = Some (ByWorker image w decade) /\
    published s' = published s ++ [(decade, outcome_image outcome)].
Proof.
  intros Hst Hstep. pose proof Hst as (Hs & Hact & Happ).
  destruct (settle_inv _ _ _ _ _ _ Hs Hstep)
    as (w & d & Hi & Hpub & Hrw & Hs' & Hact').
  split; [|by exists w, d].
  split; [done|]. split; [by rewrite Hact'|].
  assert (appState s = generating) as Hgen.
  { destruct (appState s) eqn:Ha; try done; try (by case_decide).
    apply (RoundState_resolved _ _ _ Hst) in Ha. by rewrite Ha in Hi. }
  rewrite (settle_worker _ _ _ _ _ _ Hi) in Hstep. injection Hstep as <-.
  destruct (resumed_inv _ _ _ _ _ _ _ Hs Hi (settled_status_outcome outcome))
    as [H1 _].
  set (s1 := publish d _ _) in *.
  destruct (worker_inv image decades w s1 H1) as [H2 _].
  destruct (await_workers_inv _ _ _ H2) as (_ & _ & _ & ->).
  apply await_workers_appState; [by apply H2|].
  by rewrite worker_appState.
Qed.

Lemma spawn_published image ws s :
  published (foldl (fun s w => worker image w s) s ws) = published s.
Proof.
  revert s. induction ws as [|w ws IH]; intros s; simpl; [done|].
  rewrite IH. unfold worker.
  destruct (worker_loop_cases image w (decadesQueue s) s)
    as [[_ ->]|(? & ? & _ & _ & _ & ->)]; done.
Qed.

Lemma round_published image decades : published (round image decades) = [].
Proof.
  destruct (truthy image) eqn:Hi.
  - rewrite (round_unfold _ _ Hi).
    set (s := foldl _ _ _).
    assert (published s = []) as Hs by apply spawn_published.
    by destruct (await_workers_cases s) as [->|(_ & _ & ->)].
  - unfold round, handleGenerateClick. simpl. by rewrite Hi.
Qed.

(** Every settlement of a run publishes one update. *)
Lemma run_state image decades evs s s' :
  RoundState image decades s ->
  run evs s = Some s' ->
  RoundState image decades s' /\
  length (published s') = length (published s) + length evs.
Proof.
  revert s. induction evs as [|[i outcome] evs IH]; intros s Hs Hrun; simpl in *.
  - injection Hrun as <-. split; [done|lia].
  - destruct (settle i outcome s) as [s1|] eqn:Hstep; [|done].
    destruct (settle_state _ _ _ _ _ _ Hs Hstep) as (H1 & w & d & _ & Hpub).
    destruct (IH _ H1 Hrun) as [H2 Hlen]. split; [done|].
    rewrite Hlen, Hpub, length_app. simpl. lia.
Qed.

Lemma filter_Truthy_all (decades : list string) :
  Forall Truthy decades -> filter Truthy decades = decades.
Proof.
  induction 1 as [|d l Hd _ IH]; [done|]. by rewrite filter_cons_True, IH.
Qed.

Lemma awaited_nil s : awaited s = [] <-> unresolved s = [].
Proof. unfold awaited. by destruct (unresolved s). Qed.

(** What a state of a round says about its decades. *)
Lemma RoundState_progress image decades s :
  Forall Truthy decades ->
  RoundState image decades s ->
  length (published s) <= length decades /\
  (appState s = results_shown <-> length (published s) = length decades) /\
  (appState s = results_shown -> (published s).*1 ≡ₚ decades).
Proof.
  intros Hd Hst. pose proof (RoundState_resolved _ _ _ Hst) as Hres.
  destruct Hst as (Hs & Hact & Happ).
  pose proof (inv_accounted _ _ _ Hs) as Hacc.
  rewrite (filter_Truthy_all _ Hd) in Hacc.
  pose proof (Permutation_length Hacc) as Hlen.
  rewrite !length_app, length_fmap in Hlen.
  split; [lia|]. rewrite Hres.
  assert (unresolved s = [] -> decadesQueue s = []) as Hq.
  { intros Hu. apply (inv_queue _ _ _ Hs). intros Hr.
    apply Permutation_length in Hact. unfold active in Hact.
    rewrite Hu, Hr in Hact. done. }
  split; [split|].
  - intros Hu. rewrite (proj2 (awaited_nil s) Hu), (Hq Hu) in Hlen.
    simpl in Hlen. lia.
  - intros Hp. apply awaited_nil. apply length_zero_iff_nil. lia.
  - intros Hu. rewrite (proj2 (awaited_nil s) Hu), (Hq Hu) in Hacc.
    by rewrite filter_nil, !app_nil_r in Hacc.
Qed.

(** The map is the initial one with the published updates applied in
    order: a decade that had an update holds its last one. *)
Lemma replay_lookup_published m updates decade :
  decade ∈ updates.*1 ->
  exists g, (decade, g) ∈ updates /\ replay m updates !! decade = Some g.
Proof.
  induction updates as [|[d g] l IH] using rev_ind; [by intros ?%elem_of_nil|].
  unfold replay in *. rewrite fmap_app, foldl_app. simpl. intros Hin.
  destruct (decide (d = decade)) as [->|Hne].
  - exists g. split; [apply elem_of_app; right; by apply list_elem_of_singleton|].
    by apply lookup_insert_eq.
  - apply elem_of_app in Hin as [Hin|Hin%list_elem_of_singleton]; [|congruence].
    destruct (IH Hin) as (g' & Hg' & Hl). exists g'.
    split; [apply elem_of_app; by left|]. by rewrite lookup_insert_ne.
Qed.

Lemma RoundState_final image decades s decade :
  Forall Truthy decades ->
  RoundState image decades s ->
  appState s = results_shown ->
  decade ∈ decades ->
  exists g, (decade, g) ∈ published s /\ generatedImages s !! decade = Some g.
Proof.
  intros Hd Hst Hres Hin.
  destruct (RoundState_progress _ _ _ Hd Hst) as (_ & _ & Hperm).
  destruct Hst as (Hs & _ & _). rewrite (inv_images _ _ _ Hs).
  apply replay_lookup_published. by rewrite (Hperm Hres).
Qed.

Lemma RoundState_invocations image decades s :
  RoundState image decades s ->
  invocations s ⊆+ call image <$> filter Truthy decades.
Proof.
  intros (Hs & _ & _).
  rewrite (inv_invocations _ _ _ Hs), (inv_accounted _ _ _ Hs).
  rewrite (assoc_L (++)), (fmap_app _ (_ ++ _)).
  by apply submseteq_inserts_r.
Qed.

(** C1: for every ordered list of decades, each a non-empty string as those
    of [DECADES] are, a round on an uploaded image calls
    [generateDecadeImage] at most once per decade at any time, takes exactly
    one settlement per decade to resolve, and when it has resolved the calls
    made are exactly one per decade and every decade has had its update
    published, as done or as error, and holds it. *)
Theorem round_calls_each_decade_once image decades evs s :
  Truthy image ->
  Forall Truthy decades ->
  run evs (round image decades) = Some s ->
  invocations s ⊆+ call image <$> decades /\
  length evs <= length decades /\
  (length evs < length decades -> unresolved s <> []) /\
  (appState s = results_shown <-> length evs = length decades) /\
  (appState s = results_shown ->
     invocations s ≡ₚ call image <$> decades /\
     (published s).*1 ≡ₚ decades /\
     Forall (fun p => settled_status p.2) (published s) /\
     forall decade, decade ∈ decades ->
       exists g, (decade, g) ∈ published s /\
                 generatedImages s !! decade = Some g /\ settled_status g).
Proof.
  intros Hi Hd Hrun.
  destruct (run_state _ _ _ _ _ (round_start image decades Hi) Hrun) as [Hst Hlen].
  rewrite round_published in Hlen. simpl in Hlen. rewrite <- Hlen.
  destruct (RoundState_progress _ _ _ Hd Hst) as (Hle & Hiff & Hperm).
  pose proof (RoundState_invocations _ _ _ Hst) as Hsub.
  rewrite (filter_Truthy_all _ Hd) in Hsub.
  pose proof (RoundState_resolved _ _ _ Hst) as Hres.
  pose proof Hst as (Hs & _ & _).
  pose proof (inv_published _ _ _ Hs) as Hpub.
  split; [done|]. split; [done|]. split; [|split; [done|]].
  - intros Hlt Hu. apply Hres, Hiff in Hu. lia.
  - intros Hr. split; [|split; [by apply Hperm|split; [done|]]].
    + rewrite (inv_invocations _ _ _ Hs).
      rewrite (proj2 (awaited_nil s) (proj1 Hres Hr)), app_nil_r.
      by rewrite (Hperm Hr).
    + intros d Hin.
      destruct (RoundState_final _ _ _ _ Hd Hst Hr Hin) as (g & Hg & Hl).
      exists g. split; [done|split; [done|]].
      rewrite Forall_forall in Hpub. apply (Hpub _ Hg).
Qed.

Lemma round_calls_each_decade_once_witness :
  exists s,
    run sample_settlements (round "photo" DECADES) = Some s /\
    appState s = results_shown /\
    invocations s ≡ₚ call "photo" <$> DECADES.
Proof.
  exists (default (imageUploaded "") (run sample_settlements (round "photo" DECADES))).
  assert (run sample_settlements (round "photo" DECADES) =
          Some (default (imageUploaded "")
                  (run sample_settlements (round "photo" DECADES)))) as Hrun
    by (vm_compute; reflexivity).
  assert (Truthy "photo") as Hi by reflexivity.
  assert (Forall Truthy DECADES) as Hd by (repeat constructor).
  destruct (round_calls_each_decade_once "photo" DECADES _ _ Hi Hd Hrun)
    as (_ & _ & _ & Hiff & Hfin).
  split; [exact Hrun|].
  assert (appState (default (imageUploaded "")
            (run sample_settlements (round "photo" DECADES))) = results_shown) as Hr
    by (apply Hiff; reflexivity).
  split; [exact Hr|]. exact (proj1 (Hfin Hr)).
Defined.

(** *** In-flight calls *)

Lemma RoundState_bounded image decades s :
  RoundState image decades s ->
  length (unresolved s) <= concurrencyLimit /\
  NoDup (omap awaiter_worker (unresolved s)) /\
  Forall (fun a => exists w decade,
            a = ByWorker image w decade /\ w < concurrencyLimit) (unresolved s).
Proof.
  intros (Hs & Hact & _). pose proof (inv_awaiters _ _ _ Hs) as Haw.
  assert (NoDup (active s)) as Hnd by (rewrite Hact; apply NoDup_seq).
  apply NoDup_app in Hnd as (Hnd & _ & _).
  assert (forall w, w ∈ omap awaiter_worker (unresolved s) -> w < concurrencyLimit) as Hlt.
  { intros w Hw.
    assert (w ∈ seq 0 concurrencyLimit) as Hin
      by (rewrite <- Hact; apply elem_of_app; by left).
    apply elem_of_seq in Hin. lia. }
  assert (length (omap awaiter_worker (unresolved s)) = length (unresolved s)) as Hlen.
  { clear -Haw. induction Haw as [|a u (w & d & ->) _ IH]; simpl; [done|]. by f_equal. }
  split; [|split; [done|]].
  - apply Permutation_length in Hact. unfold active in Hact.
    rewrite length_app, length_seq in Hact. lia.
  - rewrite Forall_forall in Haw |- *. intros a Ha.
    destruct (Haw a Ha) as (w & d & ->). exists w, d. split; [done|].
    apply Hlt. apply list_elem_of_omap. by exists (ByWorker image w d).
Qed.

Lemma run_falsy_image image decades evs s :
  truthy image = false ->
  run evs (round image decades) = Some s ->
  unresolved s = [].
Proof.
  intros Hi. unfold round, handleGenerateClick. simpl. rewrite Hi.
  destruct evs as [|[i o] evs]; simpl; [by intros [= <-]|done].
Qed.

(** C2: at every point of a round, whatever the decades and however the
    calls settle, at most [concurrencyLimit] = 2 calls are unresolved, each
    one is awaited by a worker of the pool, and no two by the same worker. *)
Theorem round_unresolved_bounded image decades evs s :
  run evs (round image decades) = Some s ->
  concurrencyLimit = 2 /\
  length (unresolved s) <= concurrencyLimit /\
  NoDup (omap awaiter_worker (unresolved s)) /\
  Forall (fun a => exists w decade,
            a = ByWorker image w decade /\ w < concurrencyLimit) (unresolved s).
Proof.
  intros Hrun. split; [done|]. destruct (truthy image) eqn:Hi.
  - destruct (run_state _ _ _ _ _ (round_start image decades Hi) Hrun) as [Hst _].
    by apply (RoundState_bounded image decades).
  - rewrite (run_falsy_image _ _ _ _ Hi Hrun). simpl.
    split; [lia|]. split; [constructor|constructor].
Qed.

Lemma round_unresolved_bounded_witness :
  exists s,
    run (take 3 sample_settlements) (round "photo" DECADES) = Some s /\
    length (unresolved s) = 2 /\
    length (unresolved s) <= concurrencyLimit /\
    NoDup (omap awaiter_worker (unresolved s)).
Proof.
  exists (default (imageUploaded "")
            (run (take 3 sample_settlements) (round "photo" DECADES))).
  assert (run (take 3 sample_settlements) (round "photo" DECADES) =
          Some (default (imageUploaded "")
                  (run (take 3 sample_settlements) (round "photo" DECADES)))) as Hrun
    by (vm_compute; reflexivity).
  destruct (round_unresolved_bounded "photo" DECADES _ _ Hrun) as (_ & Hle & Hnd & _).
  split; [exact Hrun|]. split; [by vm_compute|]. split; [exact Hle|exact Hnd].
Defined.

(** *** Rejections *)

Lemma RoundState_awaited image decades s decade :
  RoundState image decades s -> decade ∈ awaited s -> decade ∈ decades.
Proof.
  intros (Hs & _ & _) Hin.
  assert (decade ∈ filter Truthy decades) as Hf.
  { rewrite (inv_accounted _ _ _ Hs). rewrite !elem_of_app. auto. }
  by apply list_elem_of_filter in Hf as [_ ?].
Qed.

Lemma run_generate_state image decades generate order s s' :
  (forall decade, decade ∈ decades ->
     exists err, generate image (prompt decade) = Rejected err) ->
  RoundState image decades s ->
  Forall (rejected_update generate image) (published s) ->
  run_generate generate order s = Some s' ->
  RoundState image decades s' /\
  Forall (rejected_update generate image) (published s') /\
  length (published s') = length (published s) + length order.
Proof.
  intros Hgen. revert s.
  induction order as [|i order IH]; intros s Hst Hpub Hrun; simpl in *.
  - injection Hrun as <-. split; [done|]. split; [done|lia].
  - destruct (unresolved s !! i) as [a|] eqn:Hi; [|done].
    destruct (settle i _ s) as [s1|] eqn:Hstep; [|done].
    destruct (settle_state _ _ _ _ _ _ Hst Hstep) as (H1 & w & d & Hi' & Hp1).
    rewrite Hi in Hi'. injection Hi' as ->. simpl in Hp1.
    assert (d ∈ decades) as Hd.
    { apply (RoundState_awaited image decades s); [done|].
      unfold awaited. apply list_elem_of_fmap.
      exists (ByWorker image w d). split; [done|]. by eapply list_elem_of_lookup_2. }
    destruct (Hgen d Hd) as [err Herr].
    destruct (IH s1 H1) as (H2 & Hp2 & Hlen); [|done|].
    + rewrite Hp1. apply Forall_app; split; [done|]. apply Forall_singleton.
      exists err. simpl. split; [done|]. by rewrite Herr.
    + split; [done|]. split; [done|]. rewrite Hlen, Hp1, length_app. simpl. lia.
Qed.

(** C5: when [generateDecadeImage] rejects for every decade, a round never
    rejects: each rejection is caught and published as the error state of
    its decade, with the message of the rejection (that of an [Error]
    object, the fixed text for any other value), the worker goes on to the
    next decade, and after one settlement per decade the round has resolved
    with every decade in the error state. *)
Theorem round_all_rejected image decades generate order s :
  Truthy image ->
  Forall Truthy decades ->
  (forall decade, decade ∈ decades ->
     exists err, generate image (prompt decade) = Rejected err) ->
  run_generate generate order (round image decades) = Some s ->
  roundRejected s = None /\
  length order <= length decades /\
  (length order < length decades -> unresolved s <> []) /\
  (appState s = results_shown <-> length order = length decades) /\
  Forall (rejected_update generate image) (published s) /\
  (appState s = results_shown ->
   forall decade, decade ∈ decades ->
     exists err,
       generate image (prompt decade) = Rejected err /\
       generatedImages s !! decade =
         Some (mkGeneratedImage Error None (Some (errorMessage err))) /\
       forall message, err = ErrorObject message ->
         generatedImages s !! decade =
           Some (mkGeneratedImage Error None (Some message))).
Proof.
  intros Hi Hd Hgen Hrun.
  destruct (run_generate_state image decades generate order _ s Hgen
              (round_start image decades Hi))
    as (Hst & Hpub & Hlen); [by rewrite round_published|done|].
  rewrite round_published in Hlen. simpl in Hlen. rewrite <- Hlen.
  destruct (RoundState_progress _ _ _ Hd Hst) as (Hle & Hiff & Hperm).
  pose proof (RoundState_resolved _ _ _ Hst) as Hres.
  split; [by apply Hst|]. split; [done|]. split; [|split; [done|split; [done|]]].
  - intros Hlt Hu. apply Hres, Hiff in Hu. lia.
  - intros Hr d Hin.
    destruct (RoundState_final _ _ _ _ Hd Hst Hr Hin) as (g & Hg & Hl).
    rewrite Forall_forall in Hpub.
    destruct (Hpub _ Hg) as (err & Herr & Heq). simpl in Herr, Heq. subst g.
    exists err. split; [done|]. split; [done|]. by intros message ->.
Qed.

Lemma round_all_rejected_witness :
  exists s,
    run_generate always_rejects [1; 0; 1; 0; 1; 0] (round "photo" DECADES) = Some s /\
    appState s = results_shown /\
    generatedImages s !! "1970s" =
      Some (mkGeneratedImage Error None (Some "503 Service Unavailable")).
Proof.
  set (order := [1; 0; 1; 0; 1; 0]).
  exists (default (imageUploaded "")
            (run_generate always_rejects order (round "photo" DECADES))).
  assert (run_generate always_rejects order (round "photo" DECADES) =
          Some (default (imageUploaded "")
                  (run_generate always_rejects order (round "photo" DECADES)))) as Hrun
    by (vm_compute; reflexivity).
  assert (Truthy "photo") as Hi by reflexivity.
  assert (Forall Truthy DECADES) as Hd by (repeat constructor).
  assert (forall decade, decade ∈ DECADES ->
            exists err, always_rejects "photo" (prompt decade) = Rejected err) as Hgen
    by (intros d _; by eexists).
  destruct (round_all_rejected "photo" DECADES always_rejects order _ Hi Hd Hgen Hrun)
    as (_ & _ & _ & Hiff & _ & Hfin).
  assert (appState (default (imageUploaded "")
            (run_generate always_rejects order (round "photo" DECADES))) = results_shown)
    as Hr by (apply Hiff; reflexivity).
  split; [exact Hrun|]. split; [exact Hr|].
  destruct (Hfin Hr "1970s") as (err & Herr & _ & Hmsg).
  { by vm_compute; repeat constructor. }
  apply Hmsg. by injection Herr as <-.
Defined.

(** *** Retry of one decade *)

(** C6: [handleRegenerateDecade] on a decade whose state is pending returns
    at its guard: no call is made and nothing is published, the result map
    and the whole session are as they were. *)
Theorem regenerate_pending_is_noop decade s g :
  generatedImages s !! decade = Some g ->
  status g = Pending ->
  handleRegenerateDecade decade s = s /\
  invocations (handleRegenerateDecade decade s) = invocations s /\
  unresolved (handleRegenerateDecade decade s) = unresolved s /\
  published (handleRegenerateDecade decade s) = published s /\
  generatedImages (handleRegenerateDecade decade s) = generatedImages s.
Proof.
  intros Hl Hg.
  assert (handleRegenerateDecade decade s = s) as ->; [|done].
  unfold handleRegenerateDecade. rewrite Hl.
  destruct g as [st u e]. simpl in Hg. subst st. simpl.
  by rewrite orb_true_r.
Qed.

Lemma regenerate_pending_is_noop_witness :
  generatedImages (round "photo" DECADES) !! "1950s" = Some imagePending /\
  handleRegenerateDecade "1950s" (round "photo" DECADES) = round "photo" DECADES.
Proof.
  assert (generatedImages (round "photo" DECADES) !! "1950s" = Some imagePending) as Hl
    by (by vm_compute).
  split; [exact Hl|].
  exact (proj1 (regenerate_pending_is_noop "1950s" (round "photo" DECADES)
                  imagePending Hl eq_refl)).
Defined.

(** *** Frame of an update *)

Lemma worker_images image w s :
  generatedImages (worker image w s) = generatedImages s /\
  published (worker image w s) = published s.
Proof.
  unfold worker.
  destruct (worker_loop_cases image w (decadesQueue s) s)
    as [[_ ->]|(? & ? & _ & _ & _ & ->)]; done.
Qed.

Lemma await_workers_images s :
  generatedImages (await_workers s) = generatedImages s /\
  published (await_workers s) = published s.
Proof. by destruct (await_workers_cases s) as [->|(_ & _ & ->)]. Qed.

Lemma settle_publishes i outcome s s' :
  settle i outcome s = Some s' ->
  exists a,
    unresolved s !! i = Some a /\
    published s' = published s ++ [(awaiter_decade a, outcome_image outcome)] /\
    generatedImages s' =
      <[awaiter_decade a := outcome_image outcome]> (generatedImages s).
Proof.
  unfold settle. destruct (unresolved s !! i) as [a|]; [|done].
  intros Hstep. exists a. split; [done|]. destruct a as [image w d|image d].
  - rewrite processDecade_resume_publishes in Hstep. injection Hstep as <-.
    destruct (await_workers_images
                (worker image w
                   (publish d (outcome_image outcome)
                      (with_unresolved (delete i (unresolved s)) s)))) as [-> ->].
    by destruct (worker_images image w
                (publish d (outcome_image outcome)
                   (with_unresolved (delete i (unresolved s)) s))) as [-> ->].
  - rewrite handleRegenerateDecade_resume_publishes in Hstep.
    by injection Hstep as <-.
Qed.

(** C10: every update the scheduler publishes writes one decade.  A settled
    call, of a round or of a retry, publishes exactly one update, done or
    error, for the decade of that call; a retry that passes its guard
    publishes exactly one, pending, for its decade; in both the entry of the
    decade is the published image and every other entry of the result map is
    as it was. *)
Theorem updates_touch_one_decade :
  (forall i outcome s s',
     settle i outcome s = Some s' ->
     exists decade g,
       published s' = published s ++ [(decade, g)] /\
       settled_status g /\
       generatedImages s' !! decade = Some g /\
       forall other, other <> decade ->
         generatedImages s' !! other = generatedImages s !! other) /\
  (forall decade s,
     handleRegenerateDecade decade s = s \/
     (published (handleRegenerateDecade decade s) =
        published s ++ [(decade, imagePending)] /\
      generatedImages (handleRegenerateDecade decade s) !! decade = Some imagePending /\
      forall other, other <> decade ->
        generatedImages (handleRegenerateDecade decade s) !! other =
          generatedImages s !! other)).
Proof.
  split.
  - intros i outcome s s' Hstep.
    destruct (settle_publishes _ _ _ _ Hstep) as (a & _ & Hpub & Himg).
    exists (awaiter_decade a), (outcome_image outcome).
    split; [done|]. split; [apply settled_status_outcome|]. rewrite Himg.
    split; [by apply lookup_insert_eq|].
    intros other Hne. by apply lookup_insert_ne.
  - intros decade s. unfold handleRegenerateDecade.
    destruct (negb _ || _); [by left|].
    destruct (uploadedImage s); [right|by left]. simpl.
    split; [done|]. split; [by apply lookup_insert_eq|].
    intros other Hne. by apply lookup_insert_ne.
Qed.

Lemma updates_touch_one_decade_witness :
  exists s',
    settle 1 (Fulfilled "data:image/png;base64,60s") (round "photo" DECADES) = Some s' /\
    generatedImages s' !! "1960s" = Some (imageDone "data:image/png;base64,60s") /\
    generatedImages s' !! "1950s" = generatedImages (round "photo" DECADES) !! "1950s".
Proof.
  set (s := round "photo" DECADES).
  set (o := Fulfilled "data:image/png;base64,60s").
  exists (default s (settle 1 o s)).
  assert (settle 1 o s = Some (default s (settle 1 o s))) as Hstep
    by (vm_compute; reflexivity).
  split; [exact Hstep|].
  destruct (proj1 updates_touch_one_decade 1 o s _ Hstep)
    as (d & g & Hpub & _ & Hl & Hframe).
  assert (published (default s (settle 1 o s)) =
          [("1960s", imageDone "data:image/png;base64,60s")]) as Hp
    by (by vm_compute).
  assert (published s = []) as Hp0 by apply round_published.
  rewrite Hp, Hp0 in Hpub. simpl in Hpub. injection Hpub as <- <-.
  split; [exact Hl|]. by apply Hframe.
Defined.

End AppProps.

(** ** Properties of the page compositor *)
Module albumUtilsProps.
Import albumUtils.
Local Open Scope Q_scope.
Local Open Scope list_scope.

(** *** One polaroid, then all of them *)

Lemma drawPolaroid_paints env index decade img c :
  drawPolaroid env index decade img c =
    mkCanvas (width c) (height c) (current c) (saved c)
      (trace c ++
       (paint_event <$>
          polaroid_paints (current c) index (random env (randoms c)) decade img))
      (S (randoms c)).
Proof.
  destruct c as [w h [fs fo ta sc sb sx sy tf] sv tr rn].
  cbv [drawPolaroid Math_random restore fillText drawImage fillRect paint
       set_textAlign set_font set_fillStyle set_shadowColor set_shadowOffsetY
       set_shadowOffsetX set_shadowBlur rotate translate apply_transform save
       with_current emit polaroid_paints polaroid_transform paint_event
       width height current saved trace randoms fillStyle font textAlign shadowColor
       shadowBlur shadowOffsetX shadowOffsetY transform fmap list_fmap fst snd].
  by rewrite <- !(assoc_L (++)).
Qed.

Lemma forEach_cons {A} (callback : A -> nat -> Canvas -> Canvas) index element rest c :
  forEach callback index (element :: rest) c =
    forEach callback (S index) rest (callback element index c).
Proof. reflexivity. Qed.

Lemma polaroids_cons env base index n decade img rest :
  polaroids env base index n ((decade, img) :: rest) =
    polaroid_paints base index (random env n) decade img ++
    polaroids env base (S index) (S n) rest.
Proof. reflexivity. Qed.

Lemma forEach_polaroid_paints env index imagesWithDecades c :
  forEach (fun entry index => drawPolaroid env index entry.1 entry.2)
      index imagesWithDecades c =
    mkCanvas (width c) (height c) (current c) (saved c)
      (trace c ++
       (paint_event <$>
          polaroids env (current c) index (randoms c) imagesWithDecades))
      (randoms c + length imagesWithDecades).
Proof.
  revert index c. induction imagesWithDecades as [|[decade img] rest IH];
    intros index c.
  - destruct c as [w h cur sv tr rn]. cbn [forEach polaroids length fmap
      list_fmap width height current saved trace randoms].
    by rewrite app_nil_r, Nat.add_0_r.
  - rewrite forEach_cons, IH. cbn [fst snd].
    rewrite drawPolaroid_paints, polaroids_cons.
    destruct c as [w h cur sv tr rn].
    cbn [width height current saved trace randoms length].
    rewrite fmap_app, <- (assoc_L (++)). f_equal. lia.
Qed.

(** *** Loading *)

Lemma loadImages_trace index urls c :
  loadImages index urls c =
    mkCanvas (width c) (height c) (current c) (saved c)
      (trace c ++ (load_started <$> indexed index urls)) (randoms c).
Proof.
  revert index c. induction urls as [|url rest IH]; intros index c; simpl.
  - rewrite app_nil_r. by destruct c.
  - rewrite IH. simpl. by rewrite <- (assoc_L (++)).
Qed.

Lemma indexed_lookup {A} (l : list A) k i x :
  (i, x) ∈ indexed k l <-> (k <= i)%nat /\ l !! (i - k)%nat = Some x.
Proof.
  revert k. induction l as [|y l IH]; intros k; simpl.
  - split; [by intros ?%elem_of_nil|by intros [_ ?]].
  - rewrite elem_of_cons, IH. split.
    + intros [[= -> ->]|[Hle Hl]].
      * split; [lia|]. by rewrite Nat.sub_diag.
      * split; [lia|]. by replace (i - k)%nat with (S (i - S k)) by lia.
    + intros [Hle Hl]. destruct (decide (i = k)) as [->|Hne].
      * left. rewrite Nat.sub_diag in Hl. simpl in Hl. congruence.
      * right. split; [lia|].
        by replace (i - k)%nat with (S (i - S k)) in Hl by lia.
Qed.

Lemma settle_order_lookup env urls i url :
  (i, url) ∈ settle_order env urls <-> urls !! i = Some url.
Proof.
  unfold settle_order. rewrite merge_sort_Permutation, indexed_lookup.
  rewrite Nat.sub_0_r. split; [by intros [_ ?]|]. split; [lia|done].
Qed.

(** The loads settle in order up to the first failure, which is the
    rejection; without a failure every one of them has loaded. *)
Lemma await_loads_settles env settling c :
  exists evs,
    (await_loads env settling c).1 =
      mkCanvas (width c) (height c) (current c) (saved c) (trace c ++ evs) (randoms c) /\
    Forall (fun e => is_load e = true) evs /\
    match (await_loads env settling c).2 with
    | None =>
        evs = load_settled true <$> settling /\
        forall i url, (i, url) ∈ settling -> (image_load env i url).2 = true
    | Some err =>
        exists i url,
          (i, url) ∈ settling /\ (image_load env i url).2 = false /\
          err = loadFailure url /\ LoadSettled i url false ∈ evs
    end.
Proof.
  revert c. induction settling as [|[i url] rest IH]; intros c; simpl.
  - exists []. rewrite app_nil_r. split; [by destruct c|]. split; [done|].
    split; [done|]. by intros ? ? ?%elem_of_nil.
  - unfold loadImage_settled. destruct (image_load env i url).2 eqn:Hok.
    + destruct (IH (emit (LoadSettled i url true) c)) as (evs & Hc & Hall & Hres).
      exists (LoadSettled i url true :: evs). rewrite Hc. simpl.
      split; [by rewrite <- (assoc_L (++))|]. split; [by constructor|].
      destruct (await_loads env rest _).2 as [err|].
      * destruct Hres as (j & bad & Hin & Hbad & -> & Hev).
        exists j, bad. rewrite !elem_of_cons. auto.
      * destruct Hres as [-> Hdec]. split; [done|].
        intros j u [[= -> ->]|Hin]%elem_of_cons; auto.
    + exists [LoadSettled i url false]. simpl. split; [done|].
      split; [by repeat constructor|].
      exists i, url. rewrite elem_of_cons, list_elem_of_singleton. auto.
Qed.

Lemma omap_paint_events (l : list (DrawState * Draw)) :
  omap event_paint (paint_event <$> l) = l.
Proof. induction l as [|[st d] l IH]; simpl; [done|]. by f_equal. Qed.

Lemma omap_paint_loads (evs : list Event) :
  Forall (fun e => is_load e = true) evs -> omap event_paint evs = [].
Proof. induction 1 as [|e l He _ IH]; [done|]. by destruct e. Qed.

Lemma load_started_is_load (l : list (nat * string)) :
  Forall (fun e => is_load e = true) (load_started <$> l).
Proof. induction l; by constructor. Qed.

(** [createAlbumPage] when there is a context and the fonts load: the
    header, the start of every load, then either every load and the
    polaroids and the encoding, or the loads up to the first failure. *)
Lemma createAlbumPage_cases env imageData :
  getContext2d env = true ->
  fonts_ready env ->
  let starts := load_started <$> indexed 0 imageData.*2 in
  (all_decode env imageData.*2 /\
   createAlbumPage env imageData =
     (header ++ starts ++
      (load_settled true <$> settle_order env imageData.*2) ++
      (paint_event <$> album_polaroids env imageData) ++
      [Encoded "image/jpeg" 0.92],
      Fulfilled (album_page env imageData)))
  \/ (exists settled j bad,
        imageData.*2 !! j = Some bad /\
        (image_load env j bad).2 = false /\
        Forall (fun e => is_load e = true) settled /\
        LoadSettled j bad false ∈ settled /\
        createAlbumPage env imageData =
          (header ++ starts ++ settled, Rejected (loadFailure bad))).
Proof.
  intros Hctx [Hf1 Hf2]. simpl.
  unfold createAlbumPage, await_fonts_load. rewrite Hctx. simpl.
  rewrite Hf1. simpl. rewrite Hf2.
  set (c0 := fillText _ _ _ _).
  assert (c0 = mkCanvas canvasWidth canvasHeight titleState [] header 0) as -> by done.
  unfold Promise_all_loadImage. rewrite loadImages_trace.
  match goal with |- context [await_loads env ?l ?c] =>
    destruct (await_loads_settles env l c) as (evs & Hc & Hall & Hres);
    destruct (await_loads env l c) as [c2 [err|]] end; simpl in Hc, Hres; subst c2.
  - right. destruct Hres as (j & bad & Hin & Hbad & -> & Hev).
    exists evs, j, bad. apply settle_order_lookup in Hin.
    by simpl.
  - left. destruct Hres as [-> Hdec]. split.
    { intros i url Hl. apply Hdec. by apply settle_order_lookup. }
    rewrite forEach_polaroid_paints. unfold toDataURL, album_page, album_polaroids.
    cbn [width height current saved trace randoms emit fst snd].
    f_equal; [simpl; by rewrite <- !(assoc_L (++))|]. do 2 f_equal.
    rewrite omap_app, omap_paint_events. simpl. do 2 f_equal.
    rewrite omap_app, (omap_paint_loads _ (load_started_is_load _)).
    rewrite omap_paint_loads; [done|]. apply Forall_fmap. by apply Forall_true.
Qed.

(** The events of any call: a prefix of the header, then only load events,
    then nothing or, every source having loaded, the polaroids and the
    encoding. *)
Lemma createAlbumPage_trace env imageData :
  exists k loads post,
    (createAlbumPage env imageData).1 = take k header ++ loads ++ post /\
    Forall (fun e => is_load e = true) loads /\
    (post = [] \/
     (post = (paint_event <$> album_polaroids env imageData) ++
             [Encoded "image/jpeg" 0.92] /\
      (createAlbumPage env imageData).2 = Fulfilled (album_page env imageData) /\
      forall i url, imageData.*2 !! i = Some url -> LoadSettled i url true ∈ loads)).
Proof.
  destruct (getContext2d env) eqn:Hctx.
  - destruct (fonts_load env "150px Poppins") as [e1|] eqn:Hf1.
    { exists 1%nat, [], []. unfold createAlbumPage, await_fonts_load.
      rewrite Hctx. simpl. rewrite Hf1. simpl. auto. }
    destruct (fonts_load env "80px Inter") as [e2|] eqn:Hf2.
    { exists 2%nat, [], []. unfold createAlbumPage, await_fonts_load.
      rewrite Hctx. simpl. rewrite Hf1. simpl. rewrite Hf2. simpl. auto. }
    destruct (createAlbumPage_cases env imageData Hctx (conj Hf1 Hf2))
      as [[Hdec ->]|(settled & j & bad & _ & _ & Hall & _ & ->)].
    + exists 4%nat, ((load_started <$> indexed 0 imageData.*2) ++
                 (load_settled true <$> settle_order env imageData.*2)),
        ((paint_event <$> album_polaroids env imageData) ++ [Encoded "image/jpeg" 0.92]).
      simpl. split; [by rewrite <- !(assoc_L (++))|]. split.
      * apply Forall_app. split; [apply load_started_is_load|].
        apply Forall_fmap. by apply Forall_true.
      * right. split; [done|]. split; [done|]. intros i url Hl.
        apply elem_of_app. right. apply list_elem_of_fmap.
        exists (i, url). split; [done|]. by apply settle_order_lookup.
    + exists 4%nat, ((load_started <$> indexed 0 imageData.*2) ++ settled), [].
      simpl. split; [by rewrite app_nil_r|]. split; [|by left].
      apply Forall_app. split; [apply load_started_is_load|done].
  - exists 0%nat, [], []. unfold createAlbumPage. rewrite Hctx. simpl. auto.
Qed.

Lemma header_paint k st d :
  Paint st d ∈ take k header -> (st, d) = backgroundFill \/ (st, d) = titleText.
Proof.
  intros Hin. apply elem_of_take in Hin as (i & Hi & _).
  destruct i as [|[|[|[|i]]]]; simpl in Hi; try done.
  - injection Hi as <- <-. by left.
  - injection Hi as <- <-. by right.
Qed.

Lemma header_no_load k e : e ∈ take k header -> is_load e = false.
Proof.
  intros Hin. apply elem_of_take in Hin as (i & Hi & _).
  destruct i as [|[|[|[|i]]]]; simpl in Hi; try done; by injection Hi as <-.
Qed.

(** *** The polaroids *)

Lemma zip_entries (imageData : list (string * string)) :
  zip imageData.*1 (mkImage "anonymous" <$> imageData.*2) =
    (fun p => (p.1, mkImage "anonymous" p.2)) <$> imageData.
Proof. induction imageData as [|[d u] l IH]; simpl; [done|]. by f_equal. Qed.

Lemma polaroid_paints_cells base index r decade img :
  length (polaroid_paints base index r decade img) = 3%nat /\
  exists p,
    polaroid_paints base index r decade img !! 1%nat = Some p /\
    List.filter is_cell (polaroid_paints base index r decade img) = [p].
Proof. split; [done|]. by eexists. Qed.

Lemma polaroids_cells env base l :
  forall index n,
    length (List.filter is_cell (polaroids env base index n l)) = length l /\
    forall k decade img,
      l !! k = Some (decade, img) ->
      List.filter is_cell (polaroids env base index n l) !! k =
        polaroid_paints base (index + k) (random env (n + k)) decade img !! 1%nat /\
      polaroids env base index n l !! (3 * k + 2)%nat =
        polaroid_paints base (index + k) (random env (n + k)) decade img !! 2%nat.
Proof.
  induction l as [|[d0 img0] rest IH]; intros index n.
  - split; [done|]. intros k ? ? Hk. done.
  - rewrite polaroids_cons, List.filter_app.
    destruct (IH (S index) (S n)) as [Hlen Hlook].
    destruct (polaroid_paints_cells base index (random env n) d0 img0)
      as (Hthree & p & Hp & ->).
    split; [by rewrite length_app, Hlen|].
    intros [|k] decade img Hk; simpl in Hk.
    + injection Hk as -> ->. rewrite !Nat.add_0_r. split; [by rewrite Hp|].
      by rewrite lookup_app_l by (rewrite Hthree; lia).
    + destruct (Hlook k decade img Hk) as [H1 H2].
      replace (index + S k)%nat with (S index + k)%nat by lia.
      replace (n + S k)%nat with (S n + k)%nat by lia.
      split; [done|].
      rewrite lookup_app_r by (rewrite Hthree; lia). rewrite Hthree, <- H2.
      f_equal. lia.
Qed.

Lemma polaroids_transform env base l :
  forall index n st d,
    (st, d) ∈ polaroids env base index n l ->
    exists k, transform st = polaroid_transform base (index + k) (random env (n + k)).
Proof.
  induction l as [|[d0 img0] rest IH]; intros index n st d; simpl.
  - by intros ?%elem_of_nil.
  - rewrite !elem_of_cons.
    intros [[= -> ->]|[[= -> ->]|[[= -> ->]|Hin]]];
      try (exists 0%nat; by rewrite !Nat.add_0_r).
    destruct (IH _ _ _ _ Hin) as [k Hk]. exists (S k). rewrite Hk.
    by replace (S index + k)%nat with (index + S k)%nat by lia;
       replace (S n + k)%nat with (n + S k)%nat by lia.
Qed.

(** *** The page *)

(** C3: with a context, the fonts and every source loading,
    [createAlbumPage] on K entries fulfils with one image, encoded once as
    JPEG at quality 0.92 from the 2480 by 3508 surface, holding exactly K
    drawn images; the i-th is the image of the i-th entry, drawn about the
    centre of the cell of row [i / 2] and column [i mod 2], and the caption
    drawn with it is the decade of that entry. *)
Theorem createAlbumPage_lays_out_cells env imageData :
  getContext2d env = true ->
  fonts_ready env ->
  all_decode env imageData.*2 ->
  exists events page,
    createAlbumPage env imageData = (events, Fulfilled page) /\
    List.filter is_encoded events = [Encoded "image/jpeg" 0.92] /\
    mimeType page = "image/jpeg"%string /\
    encoderQuality page = 0.92 /\
    pixelWidth page = 2480 /\ pixelHeight page = 3508 /\
    length (cells page) = length imageData /\
    grid_cols = 2%nat /\
    forall i decade url,
      imageData !! i = Some (decade, url) ->
      exists st st' r,
        cells page !! i =
          Some (st, DrawImage (mkImage "anonymous" url)
                      imageX imageY imageWidth imageHeight) /\
        transform st =
          [Translate
             (grid_padding + Qnat (i mod grid_cols) * (cellWidth + grid_padding)
              + cellWidth / 2)
             (contentTopMargin + grid_padding
              + Qnat (i / grid_cols) * (cellHeight + grid_padding) + cellHeight / 2);
           Rotate r] /\
        painted page !! (3 * i + 4)%nat = Some (st', FillText decade 0 captionY) /\
        transform st' = transform st.
Proof.
  intros Hctx Hfonts Hdec.
  destruct (createAlbumPage_cases env imageData Hctx Hfonts)
    as [[_ Heq]|(settled & j & bad & Hj & Hbad & _)];
    [|rewrite (Hdec j bad Hj) in Hbad; done].
  eexists _, (album_page env imageData). split; [exact Heq|].
  unfold album_page, cells, album_polaroids. cbn [mimeType encoderQuality pixelWidth
    pixelHeight painted]. rewrite zip_entries.
  set (l := (fun p => (p.1, mkImage "anonymous" p.2)) <$> imageData).
  destruct (polaroids_cells env titleState l 0 0) as [Hlen Hlook].
  split.
  { rewrite !List.filter_app.
    assert (forall evs, Forall (fun e => is_load e = true) evs ->
              List.filter is_encoded evs = []) as Hnone.
    { induction 1 as [|e evs He _ IH]; [done|]. by destruct e. }
    assert (forall ps, List.filter is_encoded (paint_event <$> ps) = []) as Hpaint.
    { induction ps as [|p ps IH]; [done|]. done. }
    rewrite (Hnone _ (load_started_is_load _)), Hpaint.
    rewrite (Hnone (load_settled true <$> _)); [reflexivity|].
    apply Forall_fmap. by apply Forall_true. }
  do 4 (split; [reflexivity|]).
  split; [simpl; rewrite Hlen; unfold l; by rewrite length_fmap|].
  split; [done|].
  intros i decade url Hi.
  assert (l !! i = Some (decade, mkImage "anonymous" url)) as Hl
    by (unfold l; by rewrite list_lookup_fmap, Hi).
  destruct (Hlook i decade _ Hl) as [Hcell Hcap].
  eexists _, _, (rotation (random env i)). split; [exact Hcell|].
  split; [reflexivity|]. split; [|shelve].
  rewrite lookup_app_r by (simpl; lia).
  replace (3 * i + 4 - length [backgroundFill; titleText])%nat
    with (3 * i + 2)%nat by (simpl; lia).
  rewrite Hcap. reflexivity.
  Unshelve. reflexivity.
Qed.

Lemma createAlbumPage_lays_out_cells_witness :
  exists events page,
    createAlbumPage sample_env sample_imageData = (events, Fulfilled page) /\
    length (cells page) = 2%nat /\
    encoderQuality page = 0.92.
Proof.
  assert (getContext2d sample_env = true) as Hctx by reflexivity.
  assert (fonts_ready sample_env) as Hfonts by (split; reflexivity).
  assert (all_decode sample_env sample_imageData.*2) as Hdec by (intros i url _; reflexivity).
  destruct (createAlbumPage_lays_out_cells sample_env sample_imageData Hctx Hfonts Hdec)
    as (events & page & Heq & _ & _ & Hq & _ & _ & Hlen & _).
  exists events, page. split; [exact Heq|]. split; [exact Hlen|exact Hq].
Defined.

(** *** The barrier *)

(** C4, as stated, fails: the page is filled and the title written before
    the first load is even started. *)
Lemma background_drawn_before_loads :
  (createAlbumPage sample_env sample_imageData).1 !! 0%nat =
    Some (Paint backgroundState (FillRect 0 0 canvasWidth canvasHeight)) /\
  (createAlbumPage sample_env sample_imageData).1 !! 3%nat =
    Some (Paint titleState (FillText "Past Forward" (canvasWidth / 2) 250)) /\
  (createAlbumPage sample_env sample_imageData).1 !! 4%nat =
    Some (LoadStarted 0 "data:image/png;base64,AAAA") /\
  (createAlbumPage sample_env sample_imageData).1 !! 6%nat =
    Some (LoadSettled 1 "data:image/png;base64,BBBB" true) /\
  ~ barrier_claim_as_stated.
Proof.
  assert ((createAlbumPage sample_env sample_imageData).1 !! 0%nat =
            Some (Paint backgroundState (FillRect 0 0 canvasWidth canvasHeight)))
    as Hfill by (vm_compute; reflexivity).
  assert ((createAlbumPage sample_env sample_imageData).1 !! 6%nat =
            Some (LoadSettled 1 "data:image/png;base64,BBBB" true))
    as Hsettled by (vm_compute; reflexivity).
  split; [exact Hfill|]. split; [vm_compute; reflexivity|].
  split; [vm_compute; reflexivity|]. split; [exact Hsettled|].
  intros H. specialize (H sample_env sample_imageData 0%nat 6%nat _ _ _ _ _ Hfill Hsettled).
  lia.
Qed.

(** C4, as amended: whatever the environment does, a drawing of
    [createAlbumPage] is either the background fill or the title text, drawn
    before any load is started, or a drawing of a polaroid, made after every
    image source has loaded. *)
Theorem polaroids_drawn_after_loads env imageData n st d :
  (createAlbumPage env imageData).1 !! n = Some (Paint st d) ->
  (((st, d) = backgroundFill \/ (st, d) = titleText) /\
   forall m e, (createAlbumPage env imageData).1 !! m = Some e ->
               is_load e = true -> (n < m)%nat)
  \/ ((st, d) ∈ album_polaroids env imageData /\
      forall i url, imageData.*2 !! i = Some url ->
        exists m, (m < n)%nat /\
          (createAlbumPage env imageData).1 !! m = Some (LoadSettled i url true)).
Proof.
  destruct (createAlbumPage_trace env imageData) as (k & loads & post & -> & Hall & Hpost).
  intros Hn. rewrite Forall_forall in Hall.
  apply lookup_app_Some in Hn as [Hn|[Hge Hn]].
  - left. split; [apply (header_paint k); by eapply list_elem_of_lookup_2|].
    intros m e Hm He. apply lookup_lt_Some in Hn.
    destruct (decide (m < length (take k header))%nat) as [Hlt|]; [|lia].
    rewrite lookup_app_l in Hm by done.
    apply list_elem_of_lookup_2, header_no_load in Hm. congruence.
  - apply lookup_app_Some in Hn as [Hn|[Hge' Hn]].
    { apply list_elem_of_lookup_2, Hall in Hn. done. }
    destruct Hpost as [->|(-> & _ & Hloaded)]; [done|]. right. split.
    + apply lookup_app_Some in Hn as [Hn|[_ Hn]].
      * apply list_elem_of_lookup_2, list_elem_of_fmap in Hn as ([st' d'] & Heq & Hin).
        by injection Heq as -> ->.
      * by apply list_lookup_singleton_Some in Hn as [_ ?].
    + intros i url Hi. apply Hloaded, list_elem_of_lookup in Hi as [m Hm].
      exists (length (take k header) + m)%nat.
      apply lookup_lt_Some in Hm as Hlt. split; [lia|].
      rewrite lookup_app_r by lia. rewrite lookup_app_l by lia.
      rewrite <- Hm. f_equal. lia.
Qed.

Lemma polaroids_drawn_after_loads_witness :
  exists st d,
    (createAlbumPage sample_env sample_imageData).1 !! 8%nat = Some (Paint st d) /\
    exists m, (m < 8)%nat /\
      (createAlbumPage sample_env sample_imageData).1 !! m =
        Some (LoadSettled 0 "data:image/png;base64,AAAA" true).
Proof.
  assert (exists st d,
            (createAlbumPage sample_env sample_imageData).1 !! 8%nat = Some (Paint st d))
    as (st & d & Hn) by (vm_compute; eexists _, _; reflexivity).
  assert ((createAlbumPage sample_env sample_imageData).1 !! 4%nat =
            Some (LoadStarted 0 "data:image/png;base64,AAAA"))
    as Hstart by (vm_compute; reflexivity).
  exists st, d. split; [exact Hn|].
  destruct (polaroids_drawn_after_loads sample_env sample_imageData 8 st d Hn)
    as [[_ Hbefore]|[_ Hafter]].
  - exfalso. specialize (Hbefore 4%nat _ Hstart eq_refl). lia.
  - exact (Hafter 0%nat _ eq_refl).
Defined.

(** *** Failures *)

Lemma createAlbumPage_rejects_without_context env imageData :
  getContext2d env = false ->
  createAlbumPage env imageData =
    ([], Rejected (ErrorObject "Could not get 2D canvas context")).
Proof. intros H. unfold createAlbumPage. by rewrite H. Qed.

Lemma createAlbumPage_rejects_without_fonts env imageData :
  getContext2d env = true ->
  ~ fonts_ready env ->
  exists k err,
    (fonts_load env "150px Poppins" = Some err \/
     (fonts_load env "150px Poppins" = None /\ fonts_load env "80px Inter" = Some err)) /\
    createAlbumPage env imageData = (take k header, Rejected err).
Proof.
  intros Hctx Hnot. unfold createAlbumPage, await_fonts_load. rewrite Hctx. simpl.
  destruct (fonts_load env "150px Poppins") as [e1|] eqn:Hf1.
  { exists 1%nat, e1. auto. }
  simpl. destruct (fonts_load env "80px Inter") as [e2|] eqn:Hf2.
  { exists 2%nat, e2. auto. }
  destruct Hnot. by split.
Qed.

Lemma fonts_ready_dec env : {fonts_ready env} + {~ fonts_ready env}.
Proof.
  unfold fonts_ready.
  destruct (fonts_load env "150px Poppins"); [right; by intros [? _]|].
  destruct (fonts_load env "80px Inter"); [right; by intros [_ ?]|]. by left.
Qed.

(** C7: when a source does not decode, the call is rejected and nothing is
    encoded; given a context and the fonts, the rejection is the load error
    of a source that failed, an [Error] whose message names that source by
    its first 50 characters. *)
Theorem createAlbumPage_load_failure env imageData i url :
  imageData.*2 !! i = Some url ->
  (image_load env i url).2 = false ->
  (exists err, (createAlbumPage env imageData).2 = Rejected err) /\
  (forall e, e ∈ (createAlbumPage env imageData).1 -> is_encoded e = false) /\
  (getContext2d env = true -> fonts_ready env ->
   exists j bad,
     imageData.*2 !! j = Some bad /\
     (image_load env j bad).2 = false /\
     LoadSettled j bad false ∈ (createAlbumPage env imageData).1 /\
     (createAlbumPage env imageData).2 =
       Rejected (ErrorObject
         ("Failed to load image: " ++ String.substring 0 50 bad ++ "...")%string)).
Proof.
  intros Hi Hbad.
  assert (forall k e, e ∈ take k header -> is_encoded e = false) as Hheader.
  { intros k e Hin. apply elem_of_take in Hin as (n & Hn & _).
    destruct n as [|[|[|[|n]]]]; simpl in Hn; try done; by injection Hn as <-. }
  assert (forall evs e, Forall (fun e => is_load e = true) evs -> e ∈ evs ->
            is_encoded e = false) as Hloads.
  { intros evs e Hall Hin. rewrite Forall_forall in Hall.
    specialize (Hall e Hin). by destruct e. }
  destruct (getContext2d env) eqn:Hctx.
  - destruct (fonts_ready_dec env) as [Hfonts|Hnot].
    + destruct (createAlbumPage_cases env imageData Hctx Hfonts)
        as [[Hdec _]|(settled & j & bad & Hj & Hjbad & Hall & Hev & ->)];
        [rewrite (Hdec i url Hi) in Hbad; done|]. cbn [fst snd].
      split; [by eexists|]. split.
      * intros e [Hin|[Hin|Hin]%elem_of_app]%elem_of_app.
        -- by apply (Hheader 4%nat).
        -- exact (Hloads _ _ (load_started_is_load _) Hin).
        -- by apply (Hloads _ _ Hall).
      * intros _ _. exists j, bad. split; [done|]. split; [done|]. split; [|done].
        rewrite !elem_of_app. auto.
    + destruct (createAlbumPage_rejects_without_fonts env imageData Hctx Hnot)
        as (k & err & _ & ->). simpl.
      split; [by eexists|]. split; [apply Hheader|done].
  - rewrite (createAlbumPage_rejects_without_context env imageData Hctx). simpl.
    split; [by eexists|]. split; [by intros e ?%elem_of_nil|done].
Qed.

Lemma createAlbumPage_load_failure_witness :
  (createAlbumPage failing_env sample_imageData).2 =
    Rejected (ErrorObject "Failed to load image: data:image/png;base64,AAAA...").
Proof.
  destruct (createAlbumPage_load_failure failing_env sample_imageData 0
              "data:image/png;base64,AAAA" eq_refl eq_refl) as (_ & _ & Hload).
  destruct (Hload eq_refl (conj eq_refl eq_refl)) as (j & bad & Hj & Hbad & _ & Heq).
  rewrite Heq. destruct j as [|[|j]]; simpl in Hj; [| |done].
  - by injection Hj as <-.
  - injection Hj as <-. vm_compute in Hbad. done.
Defined.

(** C8: on the empty mapping [createAlbumPage] settles one way or the other,
    and which way is the environment's doing alone: it rejects exactly when
    there is no context or a font load rejects, with that error, and
    otherwise fulfils with the page holding the background fill and the
    title and no cell. *)
Theorem createAlbumPage_empty env :
  match (createAlbumPage env []).2 with
  | Fulfilled page =>
      getContext2d env = true /\ fonts_ready env /\
      page = mkEncodedImage "image/jpeg" 0.92 canvasWidth canvasHeight
               [backgroundFill; titleText] /\
      cells page = [] /\
      List.filter is_encoded (createAlbumPage env []).1 = [Encoded "image/jpeg" 0.92]
  | Rejected err =>
      (getContext2d env = false /\
       err = ErrorObject "Could not get 2D canvas context") \/
      (getContext2d env = true /\
       (fonts_load env "150px Poppins" = Some err \/
        (fonts_load env "150px Poppins" = None /\
         fonts_load env "80px Inter" = Some err)))
  end.
Proof.
  destruct (getContext2d env) eqn:Hctx.
  - destruct (fonts_ready_dec env) as [Hfonts|Hnot].
    + destruct (createAlbumPage_cases env [] Hctx Hfonts)
        as [[_ ->]|(settled & j & bad & Hj & _)]; [|done].
      simpl. done.
    + destruct (createAlbumPage_rejects_without_fonts env [] Hctx Hnot)
        as (k & err & Hwhy & ->). simpl. by right.
  - rewrite (createAlbumPage_rejects_without_context env [] Hctx). simpl. by left.
Qed.

(** *** The rotation *)

Lemma rotation_bound r : 0 <= r -> r < 1 -> Qabs (rotation r) <= 0.035.
Proof. intros H0 H1. unfold rotation. apply Qabs_case; intros _; lra. Qed.

(** C9: when the random source stays in [[0, 1)], everything
    [createAlbumPage] draws is either under no rotation (the background and
    the title) or in a cell, translated to the cell and then rotated by
    [(r - 0.5) * 0.07] for a value [r] of the source, an angle of absolute
    value at most 0.035. *)
Theorem cell_rotation_bounded env imageData st d :
  (forall n, 0 <= random env n /\ random env n < 1) ->
  Paint st d ∈ (createAlbumPage env imageData).1 ->
  (forall r, 0 <= r -> r < 1 -> Qabs ((r - 0.5) * 0.07) <= 0.035) /\
  (transform st = [] \/
   exists x y n,
     transform st = [Translate x y; Rotate (rotation (random env n))] /\
     Qabs (rotation (random env n)) <= 0.035).
Proof.
  intros Hrandom Hin. split; [exact rotation_bound|].
  destruct (createAlbumPage_trace env imageData) as (k & loads & post & Heq & Hall & Hpost).
  rewrite Heq in Hin. rewrite Forall_forall in Hall.
  apply elem_of_app in Hin as [Hin|[Hin|Hin]%elem_of_app].
  - left. by destruct (header_paint _ _ _ Hin) as [[= -> _]|[= -> _]].
  - by apply Hall in Hin.
  - destruct Hpost as [->|(-> & _)]; [by apply elem_of_nil in Hin|].
    apply elem_of_app in Hin as [Hin|Hin%list_elem_of_singleton]; [|done].
    apply list_elem_of_fmap in Hin as ([st' d'] & [= -> ->] & Hin).
    destruct (polaroids_transform _ _ _ _ _ _ _ Hin) as [j Hj].
    right. eexists _, _, (0 + j)%nat. split; [exact Hj|].
    destruct (Hrandom (0 + j)%nat). by apply rotation_bound.
Qed.

Lemma cell_rotation_bounded_witness :
  exists st d,
    (createAlbumPage sample_env sample_imageData).1 !! 12%nat = Some (Paint st d) /\
    exists x y n,
      transform st = [Translate x y; Rotate (rotation (random sample_env n))] /\
      Qabs (rotation (random sample_env n)) <= 0.035.
Proof.
  assert (forall n, 0 <= random sample_env n /\ random sample_env n < 1) as Hrandom.
  { intros n. simpl. destruct (Nat.even n); by vm_compute. }
  assert (exists st d,
            (createAlbumPage sample_env sample_imageData).1 !! 12%nat = Some (Paint st d) /\
            transform st <> [])
    as (st & d & Hn & Hne) by (vm_compute; eexists _, _; split; [reflexivity|done]).
  exists st, d. split; [exact Hn|].
  destruct (cell_rotation_bounded sample_env sample_imageData st d Hrandom
              (list_elem_of_lookup_2 _ _ _ Hn)) as [_ [Hnil|Hrot]].
  - destruct (Hne Hnil).
  - exact Hrot.
Defined.

End albumUtilsProps.

(** ** More on the scheduler and the handlers *)
Module AppFacts.
Import App. Import AppProps.
Local Open Scope list_scope.

(** *** The start of a round *)

Lemma initialImages_lookup decades d :
  initialImages decades !! d =
    if decide (d ∈ decades) then Some imagePending else None.
Proof.
  unfold initialImages.
  induction decades as [|x l IH] using rev_ind; [done|].
  rewrite foldl_app. simpl. destruct (decide (x = d)) as [->|Hne].
  - rewrite lookup_insert_eq. rewrite decide_True; [done|].
    apply elem_of_app. right. by apply list_elem_of_singleton.
  - rewrite lookup_insert_ne by done. rewrite IH.
    destruct (decide (d ∈ l)) as [Hin|Hnin].
    + rewrite decide_True; [done|]. apply elem_of_app. by left.
    + rewrite decide_False; [done|].
      intros [?|?%list_elem_of_singleton]%elem_of_app; congruence.
Qed.

Lemma spawn_images image ws s :
  generatedImages (foldl (fun s w => worker image w s) s ws) = generatedImages s /\
  uploadedImage (foldl (fun s w => worker image w s) s ws) = uploadedImage s.
Proof.
  revert s. induction ws as [|w ws IH]; intros s; simpl; [done|].
  destruct (IH (worker image w s)) as [-> ->]. unfold worker.
  destruct (worker_loop_cases image w (decadesQueue s) s)
    as [[_ ->]|(? & ? & _ & _ & _ & ->)]; done.
Qed.

(** X1: [handleGenerateClick] without an uploaded image (none, or the empty
    string) does nothing at all; with one, whatever the results of an
    earlier round were, the result map it leaves holds exactly the decades
    of the new round, each pending, and the image and the updates published
    so far are as they were. *)
Theorem new_round_resets_results decades s :
  (truthy_opt (uploadedImage s) = false /\ handleGenerateClick decades s = s) \/
  (truthy_opt (uploadedImage s) = true /\
   uploadedImage (handleGenerateClick decades s) = uploadedImage s /\
   published (handleGenerateClick decades s) = published s /\
   forall decade,
     generatedImages (handleGenerateClick decades s) !! decade =
       if decide (decade ∈ decades) then Some imagePending else None).
Proof.
  unfold handleGenerateClick. destruct (uploadedImage s) as [image|] eqn:Hu; [|by left].
  cbn [truthy_opt]. destruct (truthy image) eqn:Hi; [right|by left]. split; [done|].
  cbv zeta. set (s3 := with_round _ _).
  assert (uploadedImage s3 = Some image /\ published s3 = published s /\
          generatedImages s3 = initialImages decades) as (Hu3 & Hp3 & Hg3) by done.
  clearbody s3.
  destruct (await_workers_images
              (foldl (fun s w => worker image w s) s3 (seq 0 concurrencyLimit)))
    as [Himg Hpub].
  destruct (spawn_images image (seq 0 concurrencyLimit) s3) as [Hg Hup].
  split; [|split].
  - destruct (await_workers_cases
                (foldl (fun s w => worker image w s) s3 (seq 0 concurrencyLimit)))
      as [->|(_ & _ & ->)]; cbn [uploadedImage setAppState]; by rewrite Hup.
  - by rewrite Hpub, spawn_published.
  - intros decade. rewrite Himg, Hg, Hg3. apply initialImages_lookup.
Qed.

(** *** The order of the calls *)

(** What a worker finds in the queue: nothing truthy, or a first truthy
    decade after those it skips. *)
Lemma worker_loop_shifts image w queue s :
  (filter Truthy queue = [] /\
   worker_loop image w queue s = worker_returns w (with_decadesQueue [] s))
  \/ (exists skipped decade rest,
       queue = skipped ++ decade :: rest /\
       filter Truthy skipped = [] /\
       Truthy decade /\
       worker_loop image w queue s =
         processDecade_call image w decade (with_decadesQueue rest s)).
Proof.
  induction queue as [|d q IH]; simpl.
  - by left.
  - destruct (truthy d) eqn:Hd.
    + right. by exists [], d, q.
    + rewrite filter_cons_False by (unfold Truthy; congruence).
      destruct IH as [[-> ->]|(sk & d' & rest & -> & Hsk & Hd' & ->)]; [by left|].
      right. exists (d :: sk), d', rest. split; [done|]. split; [|done].
      by rewrite filter_cons_False by (unfold Truthy; congruence).
Qed.

Lemma worker_in_order image decades w s :
  InOrder image decades s -> InOrder image decades (worker image w s).
Proof.
  intros (front & Hd & Hinv). unfold worker.
  destruct (worker_loop_shifts image w (decadesQueue s) s)
    as [[Hf ->]|(sk & d & rest & Hq & Hsk & Hdt & ->)].
  - exists (front ++ decadesQueue s). simpl. rewrite app_nil_r. split; [done|].
    by rewrite filter_app, Hf, app_nil_r.
  - exists (front ++ sk ++ [d]). simpl. split.
    + by rewrite Hd, Hq, <- !(assoc_L (++)).
    + rewrite Hinv, !filter_app, Hsk, filter_cons_True, filter_nil by done.
      by rewrite !fmap_app.
Qed.

Lemma await_workers_in_order image decades s :
  InOrder image decades s -> InOrder image decades (await_workers s).
Proof. by destruct (await_workers_cases s) as [->|(_ & _ & ->)]. Qed.

Lemma settle_in_order image decades i outcome s s' :
  RoundInv image decades s ->
  InOrder image decades s ->
  settle i outcome s = Some s' ->
  InOrder image decades s'.
Proof.
  intros Hs Hord Hstep.
  destruct (settle_inv _ _ _ _ _ _ Hs Hstep) as (w & d & Hi & _).
  rewrite (settle_worker _ _ _ _ _ _ Hi) in Hstep. injection Hstep as <-.
  by apply await_workers_in_order, worker_in_order.
Qed.

Lemma run_in_order image decades evs s s' :
  RoundState image decades s ->
  InOrder image decades s ->
  run evs s = Some s' ->
  InOrder image decades s'.
Proof.
  revert s. induction evs as [|[i outcome] evs IH]; intros s Hst Hord Hrun; simpl in *.
  - by injection Hrun as <-.
  - destruct (settle i outcome s) as [s1|] eqn:Hstep; [|done].
    destruct (settle_state _ _ _ _ _ _ Hst Hstep) as [H1 _].
    apply (IH s1); [done| |done]. destruct Hst as [Hs _].
    by apply (settle_in_order _ _ _ _ _ _ Hs Hord Hstep).
Qed.

Lemma spawn_in_order image decades ws s :
  InOrder image decades s ->
  InOrder image decades (foldl (fun s w => worker image w s) s ws).
Proof.
  revert s. induction ws as [|w ws IH]; intros s Hs; simpl; [done|].
  by apply IH, worker_in_order.
Qed.

Lemma round_in_order image decades :
  Truthy image -> InOrder image decades (round image decades).
Proof.
  intros Hi. rewrite (round_unfold _ _ Hi).
  apply await_workers_in_order, spawn_in_order. by exists [].
Qed.

Lemma awaiters_length image (u : list Awaiter) :
  Forall (fun a => exists w d, a = ByWorker image w d) u ->
  length (omap awaiter_worker u) = length u.
Proof. induction 1 as [|a u (w & d & ->) _ IH]; simpl; [done|]. by f_equal. Qed.

(** X2: the calls of a round are made in the order of the decades, and a
    new one is made as soon as one settles: after [n] settlements the calls
    made are exactly those of the first [2 + n] decades, in order, and the
    queue holds the others. *)
Theorem round_calls_in_order image decades evs s :
  Truthy image ->
  Forall Truthy decades ->
  run evs (round image decades) = Some s ->
  invocations s = call image <$> take (concurrencyLimit + length evs) decades /\
  decadesQueue s = drop (concurrencyLimit + length evs) decades.
Proof.
  intros Hi Hd Hrun.
  destruct (run_state _ _ _ _ _ (round_start image decades Hi) Hrun) as [Hst Hlen].
  rewrite round_published in Hlen. simpl in Hlen.
  destruct (run_in_order _ _ _ _ _ (round_start image decades Hi)
              (round_in_order image decades Hi) Hrun) as (front & Hfront & Hinv).
  assert (filter Truthy front = front) as Hff.
  { apply filter_Truthy_all. rewrite Hfront in Hd. by apply Forall_app in Hd as [? _]. }
  rewrite Hff in Hinv.
  destruct Hst as (Hs & Hact & _).
  pose proof (Permutation_length (inv_invocations _ _ _ Hs)) as Hcount.
  rewrite Hinv, !length_fmap, length_app, length_fmap in Hcount.
  unfold awaited in Hcount. rewrite length_fmap in Hcount.
  apply Permutation_length in Hact. unfold active in Hact.
  rewrite length_app, length_seq, (awaiters_length image _ (inv_awaiters _ _ _ Hs)) in Hact.
  assert (front = take (concurrencyLimit + length evs) decades /\
          decadesQueue s = drop (concurrencyLimit + length evs) decades) as [Hf Hq].
  { destruct (resolvedWorkers s) as [|w0 ws] eqn:Hr.
    - simpl in Hact. rewrite Hfront.
      replace (concurrencyLimit + length evs) with (length front) by lia.
      by rewrite take_app_length, drop_app_length.
    - rewrite (inv_queue _ _ _ Hs) in Hfront |- * by (by rewrite Hr).
      rewrite app_nil_r in Hfront. subst front. simpl in Hact.
      rewrite take_ge, drop_ge by lia. done. }
  by rewrite Hinv, Hf at 1.
Qed.

Lemma round_calls_in_order_witness :
  exists s,
    run (take 3 sample_settlements) (round "photo" DECADES) = Some s /\
    invocations s = call "photo" <$> ["1950s"; "1960s"; "1970s"; "1980s"; "1990s"] /\
    decadesQueue s = ["2000s"].
Proof.
  exists (default (imageUploaded "")
            (run (take 3 sample_settlements) (round "photo" DECADES))).
  assert (run (take 3 sample_settlements) (round "photo" DECADES) =
          Some (default (imageUploaded "")
                  (run (take 3 sample_settlements) (round "photo" DECADES)))) as Hrun
    by (vm_compute; reflexivity).
  assert (Truthy "photo") as Hi by reflexivity.
  assert (Forall Truthy DECADES) as Hd by (repeat constructor).
  split; [exact Hrun|].
  exact (round_calls_in_order "photo" DECADES _ _ Hi Hd Hrun).
Defined.

(** *** Completion *)

Lemma settle_is_Some i outcome s a :
  unresolved s !! i = Some a -> is_Some (settle i outcome s).
Proof.
  intros Hi. unfold settle. rewrite Hi. destruct a as [image w d|image d]; [|done].
  by rewrite processDecade_resume_publishes.
Qed.

Lemma RoundState_completes image decades outcomes :
  Forall Truthy decades ->
  forall s,
    RoundState image decades s ->
    length (published s) + length outcomes = length decades ->
    exists s',
      run ((fun outcome => (0, outcome)) <$> outcomes) s = Some s' /\
      appState s' = results_shown.
Proof.
  intros Hd. induction outcomes as [|outcome outcomes IH]; intros s Hst Hlen; simpl in *.
  - exists s. split; [done|].
    apply (RoundState_progress _ _ _ Hd Hst). lia.
  - destruct (unresolved s) as [|a u] eqn:Hu.
    { apply (RoundState_resolved _ _ _ Hst) in Hu.
      destruct (RoundState_progress _ _ _ Hd Hst) as (_ & Hiff & _).
      apply Hiff in Hu. lia. }
    destruct (settle_is_Some 0 outcome s a) as [s1 Hstep]; [by rewrite Hu|].
    rewrite Hstep.
    destruct (settle_state _ _ _ _ _ _ Hst Hstep) as (H1 & w & d & _ & Hpub).
    apply IH; [done|]. rewrite Hpub, length_app. simpl. lia.
Qed.

(** X3: a round cannot get stuck.  From any state a round over non-empty
    decades reaches, settling the oldest unresolved call, whatever the
    outcomes, as many times as there are decades left, is always possible
    and ends with the round resolved. *)
Theorem round_can_complete image decades evs s outcomes :
  Truthy image ->
  Forall Truthy decades ->
  run evs (round image decades) = Some s ->
  length evs + length outcomes = length decades ->
  exists s',
    run ((fun outcome => (0, outcome)) <$> outcomes) s = Some s' /\
    appState s' = results_shown.
Proof.
  intros Hi Hd Hrun Hlen.
  destruct (run_state _ _ _ _ _ (round_start image decades Hi) Hrun) as [Hst Hpub].
  rewrite round_published in Hpub. simpl in Hpub.
  apply (RoundState_completes image decades outcomes Hd s Hst). lia.
Qed.

Lemma round_can_complete_witness :
  exists s s',
    run (take 2 sample_settlements) (round "photo" DECADES) = Some s /\
    run ((fun outcome => (0, outcome)) <$> replicate 4 (Rejected OtherValue)) s = Some s' /\
    appState s' = results_shown.
Proof.
  exists (default (imageUploaded "")
            (run (take 2 sample_settlements) (round "photo" DECADES))).
  assert (run (take 2 sample_settlements) (round "photo" DECADES) =
          Some (default (imageUploaded "")
                  (run (take 2 sample_settlements) (round "photo" DECADES)))) as Hrun
    by (vm_compute; reflexivity).
  assert (Truthy "photo") as Hi by reflexivity.
  assert (Forall Truthy DECADES) as Hd by (repeat constructor).
  destruct (round_can_complete "photo" DECADES _ _ (replicate 4 (Rejected OtherValue))
              Hi Hd Hrun eq_refl) as (s' & Hrun' & Hres).
  exists s'. split; [exact Hrun|]. split; [exact Hrun'|exact Hres].
Defined.

(** *** The results of a round *)

Lemma run_generate_expected image decades generate order s s' :
  RoundState image decades s ->
  Forall (fun p => p.2 = expected_image generate image p.1) (published s) ->
  run_generate generate order s = Some s' ->
  RoundState image decades s' /\
  Forall (fun p => p.2 = expected_image generate image p.1) (published s').
Proof.
  revert s. induction order as [|i order IH]; intros s Hst Hpub Hrun; simpl in *.
  - by injection Hrun as <-.
  - destruct (unresolved s !! i) as [a|] eqn:Hi; [|done].
    destruct (settle i _ s) as [s1|] eqn:Hstep; [|done].
    destruct (settle_state _ _ _ _ _ _ Hst Hstep) as (H1 & w & d & Hi' & Hp1).
    rewrite Hi in Hi'. injection Hi' as ->. simpl in Hp1.
    apply (IH s1 H1); [|done]. rewrite Hp1.
    apply Forall_app; split; [done|]. by apply Forall_singleton.
Qed.

(** X4: whatever [generateDecadeImage] answers, when a round has resolved
    every decade holds the outcome of its own call: done with the URL the
    call gave for it, or error with the message of its rejection. *)
Theorem round_results_match_calls image decades generate order s :
  Truthy image ->
  Forall Truthy decades ->
  run_generate generate order (round image decades) = Some s ->
  appState s = results_shown ->
  forall decade, decade ∈ decades ->
    generatedImages s !! decade =
      Some (match generate image (prompt decade) with
            | Fulfilled resultUrl => mkGeneratedImage Done (Some resultUrl) None
            | Rejected err => mkGeneratedImage Error None (Some (errorMessage err))
            end).
Proof.
  intros Hi Hd Hrun Hres decade Hin.
  assert (Forall (fun p => p.2 = expected_image generate image p.1)
            (published (round image decades))) as Hnil
    by (by rewrite round_published).
  destruct (run_generate_expected image decades generate order _ s
              (round_start image decades Hi) Hnil Hrun) as [Hst Hpub].
  destruct (RoundState_final _ _ _ _ Hd Hst Hres Hin) as (g & Hg & ->).
  rewrite Forall_forall in Hpub. specialize (Hpub _ Hg). simpl in Hpub. rewrite Hpub.
  unfold expected_image. by destruct (generate image (prompt decade)).
Qed.

Lemma round_results_match_calls_witness :
  exists s,
    run_generate fails_on_1970s [1; 1; 0; 0; 1; 0] (round "photo" DECADES) = Some s /\
    generatedImages s !! "1970s" = Some (imageError "safety filter") /\
    generatedImages s !! "1990s" = Some (imageDone "data:image/png;base64,1990s").
Proof.
  exists (default (imageUploaded "")
            (run_generate fails_on_1970s [1; 1; 0; 0; 1; 0] (round "photo" DECADES))).
  assert (run_generate fails_on_1970s [1; 1; 0; 0; 1; 0] (round "photo" DECADES) =
          Some (default (imageUploaded "")
                  (run_generate fails_on_1970s [1; 1; 0; 0; 1; 0]
                     (round "photo" DECADES)))) as Hrun
    by (vm_compute; reflexivity).
  assert (Truthy "photo") as Hi by reflexivity.
  assert (Forall Truthy DECADES) as Hd by (repeat constructor).
  assert (appState (default (imageUploaded "")
            (run_generate fails_on_1970s [1; 1; 0; 0; 1; 0] (round "photo" DECADES)))
          = results_shown) as Hres by (vm_compute; reflexivity).
  pose proof (round_results_match_calls "photo" DECADES fails_on_1970s _ _
                Hi Hd Hrun Hres) as Hfinal.
  assert ("1970s" ∈ DECADES) as H70 by (unfold DECADES; repeat constructor).
  assert ("1990s" ∈ DECADES) as H90 by (unfold DECADES; repeat constructor).
  split; [exact Hrun|]. split.
  - rewrite (Hfinal "1970s" H70). vm_compute. reflexivity.
  - rewrite (Hfinal "1990s" H90). vm_compute. reflexivity.
Defined.

(** *** A round and the component state *)

Lemma worker_loop_with_component u g a image w queue s :
  worker_loop image w queue (with_component u g a s) =
    with_component u g a (worker_loop image w queue s).
Proof.
  revert s. induction queue as [|d q IH]; intros s; simpl; [done|].
  destruct (truthy d); [done|apply IH].
Qed.

Lemma worker_with_component u g a image w s :
  worker image w (with_component u g a s) = with_component u g a (worker image w s).
Proof. unfold worker. apply worker_loop_with_component. Qed.

Lemma await_workers_with_component u g a s :
  exists a',
    await_workers (with_component u g a s) = with_component u g a' (await_workers s) /\
    ((a' = a /\ appState (await_workers s) = appState s) \/
     (a' = results_shown /\ appState (await_workers s) = results_shown)).
Proof.
  unfold await_workers. cbn [with_component roundRejected resolvedWorkers].
  destruct (roundRejected s); [exists a; auto|].
  case_decide; [exists results_shown|exists a]; auto.
Qed.

Lemma settle_with_component u g a i outcome s s' :
  settle i outcome s = Some s' ->
  exists x a',
    published s' = published s ++ [x] /\
    settle i outcome (with_component u g a s) =
      Some (with_component u (<[x.1 := x.2]> g) a' s') /\
    ((a' = a /\ appState s' = appState s) \/
     (a' = results_shown /\ appState s' = results_shown)).
Proof.
  unfold settle. cbn [with_component unresolved].
  destruct (unresolved s !! i) as [[image w d|image d]|]; [| |done].
  - rewrite !processDecade_resume_publishes. intros [= <-].
    exists (d, outcome_image outcome).
    set (s1 := publish d _ (with_unresolved _ s)).
    replace (publish d (outcome_image outcome)
               (with_unresolved (delete i (unresolved s)) (with_component u g a s)))
      with (with_component u (<[d := outcome_image outcome]> g) a s1) by done.
    rewrite worker_with_component. cbn [fst snd].
    destruct (await_workers_with_component u (<[d := outcome_image outcome]> g) a
                (worker image w s1)) as (a' & -> & Ha).
    exists a'. split; [|split; [done|]].
    + destruct (await_workers_images (worker image w s1)) as [_ ->].
      by destruct (worker_images image w s1) as [_ ->].
    + rewrite worker_appState in Ha. done.
  - rewrite !handleRegenerateDecade_resume_publishes. intros [= <-].
    exists (d, outcome_image outcome), a. auto.
Qed.

Lemma run_with_component u evs :
  forall g a s s',
    run evs s = Some s' ->
    exists updates a',
      published s' = published s ++ updates /\
      run evs (with_component u g a s) = Some (with_component u (replay g updates) a' s') /\
      ((a' = a /\ appState s' = appState s) \/
       (a' = results_shown /\ appState s' = results_shown)).
Proof.
  induction evs as [|[i outcome] evs IH]; intros g a s s' Hrun; simpl in *.
  - injection Hrun as <-. exists [], a. rewrite app_nil_r. auto.
  - destruct (settle i outcome s) as [s1|] eqn:Hstep; [|done].
    destruct (settle_with_component u g a _ _ _ _ Hstep) as (x & a1 & Hp1 & -> & Ha1).
    destruct (IH (<[x.1 := x.2]> g) a1 _ _ Hrun) as (updates & a' & Hp & -> & Ha).
    exists (x :: updates), a'. split; [by rewrite Hp, Hp1, <- (assoc_L (++))|].
    split; [done|].
    destruct Ha as [[-> Hs']|[-> Hs']]; [|by right].
    rewrite Hs'. done.
Qed.

(** X5: [handleReset] and a new upload cancel nothing.  Whatever
    settlements could follow without them can follow them, and they make
    the same calls, from the image the round or the retry started with, and
    publish the same updates; the updates land in the emptied result map,
    and a round, when it resolves, still sets the state to results-shown,
    whatever the uploaded image has become. *)
Theorem reset_does_not_cancel evs s s' result :
  run evs s = Some s' ->
  exists updates,
    published s' = published s ++ updates /\
    (exists t',
       run evs (handleReset s) = Some t' /\
       same_round s' t' /\
       uploadedImage t' = None /\
       generatedImages t' = replay ∅ updates /\
       ((appState t' = idle /\ appState s' = appState s) \/
        (appState t' = results_shown /\ appState s' = results_shown))) /\
    (exists t',
       run evs (handleFileChange_onloadend result s) = Some t' /\
       same_round s' t' /\
       uploadedImage t' = result /\
       generatedImages t' = replay ∅ updates /\
       ((appState t' = image_uploaded /\ appState s' = appState s) \/
        (appState t' = results_shown /\ appState s' = results_shown))).
Proof.
  intros Hrun.
  destruct (run_with_component None evs ∅ idle s s' Hrun)
    as (updates & a1 & Hp & Ht1 & Ha1).
  destruct (run_with_component result evs ∅ image_uploaded s s' Hrun)
    as (updates' & a2 & Hp' & Ht2 & Ha2).
  assert (updates' = updates) as ->
    by (rewrite Hp in Hp'; by apply app_inv_head in Hp').
  exists updates. split; [done|]. split.
  - exists (with_component None (replay ∅ updates) a1 s').
    split; [exact Ht1|]. by repeat split.
  - exists (with_component result (replay ∅ updates) a2 s').
    split; [exact Ht2|]. by repeat split.
Qed.

Lemma reset_does_not_cancel_witness :
  exists s t',
    run (take 2 sample_settlements) (round "photo" DECADES) = Some s /\
    run (drop 2 sample_settlements) (handleReset s) = Some t' /\
    uploadedImage t' = None /\
    appState t' = results_shown /\
    invocations t' = call "photo" <$> DECADES.
Proof.
  exists (default (imageUploaded "")
            (run (take 2 sample_settlements) (round "photo" DECADES))).
  set (s := default (imageUploaded "")
              (run (take 2 sample_settlements) (round "photo" DECADES))).
  assert (run (take 2 sample_settlements) (round "photo" DECADES) = Some s) as Hs
    by (vm_compute; reflexivity).
  assert (run (drop 2 sample_settlements) s =
          Some (default (imageUploaded "") (run (drop 2 sample_settlements) s))) as Hrun
    by (vm_compute; reflexivity).
  destruct (reset_does_not_cancel _ _ _ None Hrun)
    as (updates & _ & (t' & Ht & Hsame & Hu & _ & Ha) & _).
  destruct Hsame as (_ & _ & _ & _ & Hinv & _).
  exists t'. split; [exact Hs|]. split; [exact Ht|]. split; [exact Hu|]. split.
  - destruct Ha as [[_ Ha]|[Ha _]]; [|exact Ha].
    exfalso. vm_compute in Ha. discriminate Ha.
  - rewrite Hinv. vm_compute. reflexivity.
Defined.

(** *** A retry from start to end *)

(** X6: a retry of a decade that is not pending (done, failed, or not in
    the result map at all), with an image uploaded, makes exactly one call,
    with that image and the prompt of the decade, and shows the decade as
    pending; when the call settles, the decade holds its outcome, done with
    the URL or error with the message, every other entry and the state of
    the application are as before the retry, and no call is left over. *)
Theorem regenerate_round_trip decade outcome image s :
  uploadedImage s = Some image ->
  Truthy image ->
  status_is_pending (generatedImages s !! decade) = false ->
  invocations (handleRegenerateDecade decade s) = invocations s ++ [call image decade] /\
  unresolved (handleRegenerateDecade decade s) =
    unresolved s ++ [ByRegenerate image decade] /\
  generatedImages (handleRegenerateDecade decade s) =
    <[decade := imagePending]> (generatedImages s) /\
  exists s',
    settle (length (unresolved s)) outcome (handleRegenerateDecade decade s) = Some s' /\
    generatedImages s' = <[decade := outcome_image outcome]> (generatedImages s) /\
    published s' =
      published s ++ [(decade, imagePending); (decade, outcome_image outcome)] /\
    unresolved s' = unresolved s /\
    invocations s' = invocations s ++ [call image decade] /\
    appState s' = appState s /\
    decadesQueue s' = decadesQueue s.
Proof.
  intros Hu Hi Hp. unfold handleRegenerateDecade. rewrite Hu, Hp. cbn [truthy_opt].
  rewrite Hi. cbn [negb orb].
  split; [done|]. split; [done|]. split; [done|].
  unfold settle. cbn [generateDecadeImage publish unresolved].
  rewrite lookup_app_r by lia. rewrite Nat.sub_diag. cbn [lookup list_lookup].
  rewrite handleRegenerateDecade_resume_publishes. eexists. split; [reflexivity|].
  cbn. rewrite insert_insert_eq.
  replace (delete (length (unresolved s)) (unresolved s ++ [ByRegenerate image decade]))
    with (unresolved s).
  2:{ clear. induction (unresolved s) as [|a l IH]; simpl; [done|]. by f_equal. }
  by rewrite <- (assoc_L (++)).
Qed.

Lemma regenerate_round_trip_witness :
  exists s',
    generatedImages failed_session !! "1970s" =
      Some (imageError "503 Service Unavailable") /\
    settle 0 (Fulfilled "data:image/png;base64,70s")
      (handleRegenerateDecade "1970s" failed_session) = Some s' /\
    generatedImages s' !! "1970s" = Some (imageDone "data:image/png;base64,70s") /\
    unresolved s' = [].
Proof.
  assert (uploadedImage failed_session = Some "photo") as Hu by (vm_compute; reflexivity).
  assert (status_is_pending (generatedImages failed_session !! "1970s") = false) as Hp
    by (vm_compute; reflexivity).
  assert (unresolved failed_session = []) as Hnil by (vm_compute; reflexivity).
  destruct (regenerate_round_trip "1970s" (Fulfilled "data:image/png;base64,70s")
              "photo" failed_session Hu eq_refl Hp)
    as (_ & _ & _ & s' & Hstep & Hg & _ & Hun & _).
  rewrite Hnil in Hstep, Hun. exists s'.
  split; [vm_compute; reflexivity|]. split; [exact Hstep|]. split; [|exact Hun].
  rewrite Hg. apply lookup_insert_eq.
Defined.

End AppFacts.

(** ** More on the page compositor *)
Module albumFacts.
Import albumUtils. Import albumUtilsProps.
Local Open Scope Q_scope.
Local Open Scope list_scope.

(** *** When the page is made *)

Lemma createAlbumPage_fulfilled env imageData page :
  (createAlbumPage env imageData).2 = Fulfilled page ->
  getContext2d env = true /\ fonts_ready env /\ all_decode env imageData.*2 /\
  page = album_page env imageData.
Proof.
  intros Hpage. destruct (getContext2d env) eqn:Hctx.
  - destruct (fonts_ready_dec env) as [Hf|Hnf].
    + destruct (createAlbumPage_cases env imageData Hctx Hf)
        as [[Hdec Heq]|(settled & j & bad & _ & _ & _ & _ & Heq)];
        rewrite Heq in Hpage; [|done].
      by injection Hpage as <-.
    + destruct (createAlbumPage_rejects_without_fonts env imageData Hctx Hnf)
        as (k & err & _ & Heq).
      rewrite Heq in Hpage. done.
  - rewrite createAlbumPage_rejects_without_context in Hpage by done. done.
Qed.

(** X7: [createAlbumPage] fulfils exactly when the browser gives a 2D
    context, both font loads resolve and every image source loads; in every
    other case it rejects. *)
Theorem createAlbumPage_fulfils_iff env imageData :
  (exists page, (createAlbumPage env imageData).2 = Fulfilled page) <->
  getContext2d env = true /\ fonts_ready env /\ all_decode env imageData.*2.
Proof.
  split.
  - intros [page Hpage].
    by destruct (createAlbumPage_fulfilled env imageData page Hpage) as (? & ? & ? & _).
  - intros (Hctx & Hf & Hdec).
    destruct (createAlbumPage_cases env imageData Hctx Hf)
      as [[_ ->]|(settled & j & bad & Hj & Hbad & _)]; [by eexists|].
    rewrite (Hdec _ _ Hj) in Hbad. done.
Qed.

(** *** The loads *)

(** The loads settle in order up to the first that fails. *)
Lemma await_loads_first_failure env settling c :
  match (await_loads env settling c).2 with
  | None =>
      Forall (loaded env) settling /\
      trace (await_loads env settling c).1 = trace c ++ (load_settled true <$> settling)
  | Some err =>
      exists pre j bad post,
        settling = pre ++ (j, bad) :: post /\
        Forall (loaded env) pre /\
        (image_load env j bad).2 = false /\
        err = loadFailure bad /\
        trace (await_loads env settling c).1 =
          trace c ++ (load_settled true <$> pre) ++ [LoadSettled j bad false]
  end.
Proof.
  revert c. induction settling as [|[i url] rest IH]; intros c; simpl.
  - split; [done|]. by rewrite app_nil_r.
  - unfold loadImage_settled. destruct (image_load env i url).2 eqn:Hok.
    + specialize (IH (emit (LoadSettled i url true) c)).
      destruct (await_loads env rest _) as [c2 [err|]]; simpl in *.
      * destruct IH as (pre & j & bad & post & -> & Hpre & Hbad & -> & ->).
        exists ((i, url) :: pre), j, bad, post. split; [done|].
        split; [by constructor|]. split; [done|]. split; [done|].
        by rewrite <- !(assoc_L (++)).
      * destruct IH as [Hall ->]. split; [by constructor|].
        by rewrite <- !(assoc_L (++)).
    + exists [], i, url, rest. simpl. done.
Qed.

Lemma createAlbumPage_outcomes env imageData :
  getContext2d env = true ->
  fonts_ready env ->
  let starts := load_started <$> indexed 0 imageData.*2 in
  exists settled,
    (createAlbumPage env imageData).1 = header ++ starts ++ settled /\
    Forall (fun e => match e with LoadStarted _ _ => False | _ => True end) settled /\
    match (createAlbumPage env imageData).2 with
    | Fulfilled _ => True
    | Rejected err =>
        exists pre j bad post,
          settle_order env imageData.*2 = pre ++ (j, bad) :: post /\
          Forall (loaded env) pre /\
          (image_load env j bad).2 = false /\
          err = loadFailure bad /\
          settled = (load_settled true <$> pre) ++ [LoadSettled j bad false]
    end.
Proof.
  intros Hctx Hfonts. simpl.
  destruct (createAlbumPage_cases env imageData Hctx Hfonts)
    as [[_ ->]|(settled0 & j0 & bad0 & _ & _ & _ & _ & Heq0)].
  { eexists. split; [reflexivity|]. split; [|done].
    rewrite !Forall_app. split; [|split].
    - apply Forall_fmap. by apply Forall_true.
    - apply Forall_fmap. by apply Forall_true.
    - by repeat constructor. }
  clear Heq0. destruct Hfonts as [Hf1 Hf2].
  unfold createAlbumPage, await_fonts_load. rewrite Hctx. simpl.
  rewrite Hf1. simpl. rewrite Hf2.
  set (c0 := fillText _ _ _ _).
  assert (c0 = mkCanvas canvasWidth canvasHeight titleState [] header 0) as -> by done.
  unfold Promise_all_loadImage. rewrite loadImages_trace.
  match goal with |- context [await_loads env ?l ?c] =>
    pose proof (await_loads_first_failure env l c) as Hres;
    destruct (await_loads env l c) as [c2 [err|]] end; simpl in Hres.
  - destruct Hres as (pre & j & bad & post & Hsplit & Hpre & Hbad & -> & Htr).
    cbn [fst snd]. rewrite Htr. eexists. split; [reflexivity|].
    split.
    + apply Forall_app. split; [|by repeat constructor].
      apply Forall_fmap. by apply Forall_true.
    + by exists pre, j, bad, post.
  - destruct Hres as [Hall Htr].
    cbn [fst snd]. rewrite forEach_polaroid_paints. cbn [trace]. rewrite Htr.
    simpl. rewrite <- !(assoc_L (++)).
    eexists. split; [reflexivity|]. split; [|done].
    rewrite !Forall_app. split; [|split].
    + apply Forall_fmap. by apply Forall_true.
    + apply Forall_fmap. by apply Forall_true.
    + by repeat constructor.
Qed.

Lemma header_events n e :
  header !! n = Some e ->
  match e with LoadStarted _ _ | LoadSettled _ _ _ => False | _ => True end.
Proof. destruct n as [|[|[|[|n]]]]; simpl; intros [= <-]; done. Qed.

Lemma indexed_lookup_index {A} (l : list A) k n :
  indexed k l !! n = (fun x => ((k + n)%nat, x)) <$> l !! n.
Proof.
  revert k n. induction l as [|y l IH]; intros k [|n]; simpl; try done.
  - by rewrite Nat.add_0_r.
  - rewrite IH. by replace (S k + n)%nat with (k + S n)%nat by lia.
Qed.

Lemma indexed_length {A} (l : list A) k : length (indexed k l) = length l.
Proof. revert k. induction l as [|y l IH]; intros k; simpl; [done|]. by rewrite IH. Qed.

(** X8: the loads run together.  No load is started unless there is a
    context and both fonts have loaded; then the load of every source is
    started, in the order of the entries and right after the title is
    drawn, and every one of them is started before the first of them
    settles. *)
Theorem loads_start_together env imageData :
  (forall i url,
     LoadStarted i url ∈ (createAlbumPage env imageData).1 ->
     getContext2d env = true /\ fonts_ready env /\ imageData.*2 !! i = Some url) /\
  (getContext2d env = true -> fonts_ready env ->
   forall i url,
     imageData.*2 !! i = Some url ->
     (createAlbumPage env imageData).1 !! (4 + i)%nat = Some (LoadStarted i url)) /\
  (forall n m i url j other result,
     (createAlbumPage env imageData).1 !! n = Some (LoadStarted i url) ->
     (createAlbumPage env imageData).1 !! m = Some (LoadSettled j other result) ->
     (n < m)%nat).
Proof.
  destruct (getContext2d env) eqn:Hctx.
  2:{ rewrite (createAlbumPage_rejects_without_context env imageData Hctx). simpl.
      split; [by intros i url ?%elem_of_nil|]. split; [done|].
      intros n m i url j other result Hn. by rewrite lookup_nil in Hn. }
  destruct (fonts_ready_dec env) as [Hfonts|Hnot].
  2:{ destruct (createAlbumPage_rejects_without_fonts env imageData Hctx Hnot)
        as (k & err & _ & ->). simpl.
      split; [|split; [done|]].
      - intros i url Hin. apply elem_of_take in Hin as (n & Hn & _).
        by apply header_events in Hn.
      - intros n m i url j other result Hn.
        apply lookup_take_Some in Hn as [Hn _]. by apply header_events in Hn. }
  destruct (createAlbumPage_outcomes env imageData Hctx Hfonts)
    as (settled & -> & Hsettled & _).
  assert (length header = 4%nat) as Hlen by done.
  split; [|split].
  - intros i url [Hin|[Hin|Hin]%elem_of_app]%elem_of_app.
    + apply list_elem_of_lookup in Hin as [n Hn]. by apply header_events in Hn.
    + apply list_elem_of_fmap in Hin as ([i' url'] & [= -> ->] & Hin).
      apply indexed_lookup in Hin as [_ Hin]. by rewrite Nat.sub_0_r in Hin.
    + rewrite Forall_forall in Hsettled. by apply Hsettled in Hin.
  - intros _ _ i url Hi.
    rewrite lookup_app_r by (rewrite Hlen; lia). rewrite Hlen.
    replace (4 + i - 4)%nat with i by lia.
    rewrite lookup_app_l
      by (rewrite length_fmap, indexed_length; by eapply lookup_lt_Some).
    by rewrite list_lookup_fmap, indexed_lookup_index, Hi.
  - intros n m i url j other result Hn Hm.
    set (starts := load_started <$> indexed 0 imageData.*2) in *.
    assert (n < length header + length starts)%nat as Hlt.
    { destruct (decide (n < length header + length starts)%nat) as [|Hge]; [done|].
      rewrite lookup_app_r in Hn by lia. rewrite lookup_app_r in Hn by lia.
      apply list_elem_of_lookup_2 in Hn. rewrite Forall_forall in Hsettled.
      by apply Hsettled in Hn. }
    destruct (decide (m < length header + length starts)%nat) as [Hm'|]; [|lia].
    exfalso. destruct (decide (m < length header)%nat) as [Hh|Hh].
    + rewrite lookup_app_l in Hm by done. by apply header_events in Hm.
    + rewrite lookup_app_r in Hm by lia. rewrite lookup_app_l in Hm by lia.
      apply list_elem_of_lookup_2, list_elem_of_fmap in Hm as (? & ? & _). done.
Qed.

#[local] Instance settles_before_total env : Total (settles_before env).
Proof. intros a b. unfold settles_before. lia. Qed.

#[local] Instance settles_before_transitive env : Transitive (settles_before env).
Proof. intros a b c. unfold settles_before. lia. Qed.

(** X9: when loads fail, the rejection of [createAlbumPage] is that of the
    failing source that settles first: no failing source settles before the
    one reported, and every source that settles before it has loaded, and
    is seen to before the rejection. *)
Theorem first_failure_is_reported env imageData err :
  getContext2d env = true ->
  fonts_ready env ->
  (createAlbumPage env imageData).2 = Rejected err ->
  exists j bad,
    imageData.*2 !! j = Some bad /\
    (image_load env j bad).2 = false /\
    err = ErrorObject ("Failed to load image: " ++ String.substring 0 50 bad ++ "...")%string /\
    (forall k other,
       imageData.*2 !! k = Some other ->
       (image_load env k other).2 = false ->
       ((image_load env j bad).1 <= (image_load env k other).1)%nat) /\
    (forall k other,
       imageData.*2 !! k = Some other ->
       ((image_load env k other).1 < (image_load env j bad).1)%nat ->
       LoadSettled k other true ∈ (createAlbumPage env imageData).1).
Proof.
  intros Hctx Hfonts Hrej.
  destruct (createAlbumPage_outcomes env imageData Hctx Hfonts)
    as (settled & Htrace & _ & Hres).
  rewrite Hrej in Hres.
  destruct Hres as (pre & j & bad & post & Hsplit & Hpre & Hbad & -> & ->).
  pose proof (StronglySorted_merge_sort (settles_before env) (indexed 0 imageData.*2))
    as Hsorted.
  fold (settle_order env imageData.*2) in Hsorted. rewrite Hsplit in Hsorted.
  assert (forall k other, imageData.*2 !! k = Some other ->
            (k, other) ∈ pre \/ (k, other) = (j, bad) \/ (k, other) ∈ post) as Hwhere.
  { intros k other Hk. apply (settle_order_lookup env) in Hk.
    rewrite Hsplit, elem_of_app, elem_of_cons in Hk. tauto. }
  assert (forall k other, (k, other) ∈ post ->
            ((image_load env j bad).1 <= (image_load env k other).1)%nat) as Hafter.
  { intros k other Hin. apply StronglySorted_app_1_r in Hsorted.
    apply StronglySorted_cons in Hsorted as [Hall _].
    rewrite Forall_forall in Hall. apply (Hall _ Hin). }
  exists j, bad. split; [|split; [done|split; [done|split]]].
  - apply (settle_order_lookup env). rewrite Hsplit, elem_of_app, elem_of_cons. auto.
  - intros k other Hk Hfail. destruct (Hwhere k other Hk) as [Hin|[[= -> ->]|Hin]].
    + rewrite Forall_forall in Hpre. specialize (Hpre _ Hin).
      unfold loaded in Hpre. simpl in Hpre. congruence.
    + done.
    + by apply Hafter.
  - intros k other Hk Hlt. rewrite Htrace, !elem_of_app.
    destruct (Hwhere k other Hk) as [Hin|[[= -> ->]|Hin]].
    + right. right. left. apply list_elem_of_fmap. by exists (k, other).
    + lia.
    + specialize (Hafter k other Hin). lia.
Qed.

Lemma first_failure_is_reported_witness :
  (createAlbumPage racing_env three_sources).2 =
    Rejected (ErrorObject "Failed to load image: data:image/png;base64,BBBB...") /\
  LoadSettled 2 "data:image/png;base64,CCCC" true ∈
    (createAlbumPage racing_env three_sources).1.
Proof.
  assert (exists err, (createAlbumPage racing_env three_sources).2 = Rejected err)
    as [err Hrej] by (vm_compute; by eexists).
  destruct (first_failure_is_reported racing_env three_sources err
              eq_refl (conj eq_refl eq_refl) Hrej)
    as (j & bad & Hj & Hbad & -> & Hfirst & Hbefore).
  destruct j as [|[|[|j]]]; simpl in Hj; try discriminate Hj; injection Hj as <-.
  - exfalso. specialize (Hfirst 1%nat _ eq_refl eq_refl). simpl in Hfirst. lia.
  - split; [exact Hrej|]. apply (Hbefore 2%nat _ eq_refl). simpl. lia.
  - discriminate Hbad.
Defined.

(** *** The polaroids on the page *)

Lemma polaroids_length env base l :
  forall index n, length (polaroids env base index n l) = (3 * length l)%nat.
Proof.
  induction l as [|[d img] rest IH]; intros index n; [done|].
  rewrite polaroids_cons, length_app, IH. cbn [length polaroid_paints]. lia.
Qed.

Lemma polaroids_lookup env base l :
  forall index n k m decade img,
    l !! k = Some (decade, img) ->
    (m < 3)%nat ->
    polaroids env base index n l !! (3 * k + m)%nat =
      polaroid_paints base (index + k) (random env (n + k)) decade img !! m.
Proof.
  induction l as [|[d0 img0] rest IH]; intros index n k m decade img Hk Hm; [done|].
  rewrite polaroids_cons. destruct k as [|k]; simpl in Hk.
  - injection Hk as -> ->. rewrite !Nat.add_0_r.
    by rewrite lookup_app_l by (cbn [length polaroid_paints]; lia).
  - rewrite lookup_app_r by (cbn [length polaroid_paints]; lia).
    cbn [length polaroid_paints].
    replace (3 * S k + m - 3)%nat with (3 * k + m)%nat by lia.
    rewrite (IH (S index) (S n) k m decade img Hk Hm).
    by replace (S index + k)%nat with (index + S k)%nat by lia;
       replace (S n + k)%nat with (n + S k)%nat by lia.
Qed.

Lemma polaroids_lookup_inv env base l index n j p :
  polaroids env base index n l !! j = Some p ->
  exists k m decade img,
    j = (3 * k + m)%nat /\ (m < 3)%nat /\
    l !! k = Some (decade, img) /\
    polaroid_paints base (index + k) (random env (n + k)) decade img !! m = Some p.
Proof.
  intros Hj. pose proof (lookup_lt_Some _ _ _ Hj) as Hlt.
  rewrite polaroids_length in Hlt.
  assert (j = 3 * (j / 3) + j mod 3)%nat as Hdiv by (apply Nat.div_mod_eq).
  assert (j mod 3 < 3)%nat as Hmod by (by apply Nat.mod_upper_bound).
  destruct (l !! (j / 3)%nat) as [[decade img]|] eqn:Hk.
  - exists (j / 3)%nat, (j mod 3)%nat, decade, img.
    split; [done|]. split; [done|]. split; [done|].
    by rewrite <- (polaroids_lookup env base l index n _ _ _ _ Hk Hmod), <- Hdiv.
  - apply lookup_ge_None in Hk. lia.
Qed.

(** X10: drawing the polaroids leaves the context as it found it.  Each
    polaroid is drawn between a [save] and a [restore]: after any number of
    them the drawing state and the stack of saved states are those before
    the first, one random value has been used per polaroid, and every one
    of the three paintings per polaroid is under exactly one translation
    and one rotation on top of the caller's transform, never under those of
    an earlier polaroid. *)
Theorem polaroids_restore_state env index imagesWithDecades c :
  current (forEach (fun entry index => drawPolaroid env index entry.1 entry.2)
             index imagesWithDecades c) = current c /\
  saved (forEach (fun entry index => drawPolaroid env index entry.1 entry.2)
           index imagesWithDecades c) = saved c /\
  randoms (forEach (fun entry index => drawPolaroid env index entry.1 entry.2)
             index imagesWithDecades c) = (randoms c + length imagesWithDecades)%nat /\
  exists paints,
    trace (forEach (fun entry index => drawPolaroid env index entry.1 entry.2)
             index imagesWithDecades c) = trace c ++ (paint_event <$> paints) /\
    length paints = (3 * length imagesWithDecades)%nat /\
    Forall (fun p => exists x y angle,
              transform p.1 = transform (current c) ++ [Translate x y; Rotate angle])
      paints.
Proof.
  rewrite forEach_polaroid_paints. cbn [current saved randoms trace].
  split; [done|]. split; [done|]. split; [done|].
  eexists. split; [reflexivity|]. split; [apply polaroids_length|].
  apply Forall_forall. intros [st d] Hin.
  destruct (polaroids_transform _ _ _ _ _ _ _ Hin) as [k Hk].
  cbn [fst]. rewrite Hk. unfold polaroid_transform.
  rewrite <- (assoc_L (++)). by eexists _, _, _.
Qed.

(** X11: what is on the page, and in which order.  A page that is made
    holds the background, the title and three paintings per entry, in the
    order of the entries: the frame, then the image over it, then the
    caption; the three are under the same transform, the translation to
    the centre of the cell followed by the rotation drawn from the [i]-th
    value of the random source; the frame is white and is the only one to
    cast a shadow, and the caption is written in the caption colour and
    font, centred. *)
Theorem page_paint_order env imageData page :
  (createAlbumPage env imageData).2 = Fulfilled page ->
  length (painted page) = (2 + 3 * length imageData)%nat /\
  forall i decade url,
    imageData !! i = Some (decade, url) ->
    exists frame image caption,
      painted page !! (3 * i + 2)%nat =
        Some (frame, FillRect (- polaroidWidth / 2) (- polaroidHeight / 2)
                       polaroidWidth polaroidHeight) /\
      painted page !! (3 * i + 3)%nat =
        Some (image, DrawImage (mkImage "anonymous" url)
                       imageX imageY imageWidth imageHeight) /\
      painted page !! (3 * i + 4)%nat = Some (caption, FillText decade 0 captionY) /\
      Forall (fun st =>
                transform st =
                  [Translate (cellX i + cellWidth / 2) (cellY i + cellHeight / 2);
                   Rotate ((random env i - 0.5) * 0.07)])
        [frame; image; caption] /\
      fillStyle frame = "#FFFFFF"%string /\
      shadowColor frame = "rgba(40, 50, 70, 0.15)"%string /\
      (shadowBlur frame, shadowOffsetX frame, shadowOffsetY frame) = (60, 0, 15) /\
      shadowColor image = "transparent"%string /\
      shadowColor caption = "transparent"%string /\
      fillStyle caption = "#1e293b"%string /\
      font caption = "500 80px 'Inter', sans-serif"%string /\
      textAlign caption = "center"%string.
Proof.
  intros Hpage.
  destruct (createAlbumPage_fulfilled env imageData page Hpage) as (_ & _ & _ & ->).
  unfold album_page, album_polaroids. cbn [painted]. rewrite zip_entries.
  set (l := (fun p => (p.1, mkImage "anonymous" p.2)) <$> imageData).
  split.
  { rewrite length_app, polaroids_length. unfold l. by rewrite length_fmap. }
  intros i decade url Hi.
  assert (l !! i = Some (decade, mkImage "anonymous" url)) as Hl
    by (unfold l; by rewrite list_lookup_fmap, Hi).
  assert (forall m, (m < 3)%nat ->
            ([backgroundFill; titleText] ++ polaroids env titleState 0 0 l)
              !! (3 * i + (2 + m))%nat =
            polaroid_paints titleState i (random env i) decade
              (mkImage "anonymous" url) !! m) as Hat.
  { intros m Hm. rewrite lookup_app_r by (simpl; lia).
    replace (3 * i + (2 + m) - length [backgroundFill; titleText])%nat
      with (3 * i + m)%nat by (simpl; lia).
    by rewrite (polaroids_lookup env titleState l 0 0 i m _ _ Hl Hm). }
  eexists _, _, _.
  split; [exact (Hat 0%nat ltac:(lia))|].
  split; [exact (Hat 1%nat ltac:(lia))|].
  split; [exact (Hat 2%nat ltac:(lia))|].
  split; [by repeat constructor|]. done.
Qed.

Lemma page_paint_order_witness :
  exists page frame,
    (createAlbumPage sample_env sample_imageData).2 = Fulfilled page /\
    length (painted page) = 8%nat /\
    painted page !! 5%nat =
      Some (frame, FillRect (- polaroidWidth / 2) (- polaroidHeight / 2)
                     polaroidWidth polaroidHeight) /\
    shadowColor frame = "rgba(40, 50, 70, 0.15)"%string.
Proof.
  assert (exists page, (createAlbumPage sample_env sample_imageData).2 = Fulfilled page)
    as [page Hpage] by (vm_compute; by eexists).
  destruct (page_paint_order sample_env sample_imageData page Hpage) as [Hlen Hcells].
  destruct (Hcells 1%nat "1980s"%string "data:image/png;base64,BBBB"%string eq_refl)
    as (frame & image & caption & Hframe & _ & _ & _ & _ & Hshadow & _).
  exists page, frame. split; [exact Hpage|]. split; [exact Hlen|].
  split; [exact Hframe|exact Hshadow].
Defined.

(** *** The page and the grid *)

Lemma Qnat_le (a b : nat) : (a <= b)%nat -> Qnat a <= Qnat b.
Proof. intros H. unfold Qnat, Qle. simpl. lia. Qed.

Lemma frame_on_surface_iff k :
  on_surface canvasWidth canvasHeight
    (cellX k + cellWidth / 2) (cellY k + cellHeight / 2)
    (- polaroidWidth / 2) (- polaroidHeight / 2) polaroidWidth polaroidHeight <->
  (k < grid_cols * grid_rows)%nat.
Proof.
  split.
  - intros (_ & _ & _ & Hbottom).
    destruct (decide (k < grid_cols * grid_rows)%nat) as [|Hge]; [done|]. exfalso.
    assert (3 <= k / 2)%nat as Hrow.
    { apply (Nat.div_le_lower_bound k 2 3); [done|]. unfold grid_cols, grid_rows in Hge. lia. }
    apply Qnat_le in Hrow. change (Qnat 3) with 3 in Hrow.
    revert Hbottom.
    unfold cellY, polaroidHeight, polaroidWidth, cellHeight, cellWidth, contentHeight,
      contentTopMargin, canvasHeight, canvasWidth, grid_padding.
    change (Qnat grid_cols) with 2. change (Qnat grid_rows) with 3. unfold grid_cols.
    revert Hrow. generalize (Qnat (k / 2)). intros q Hrow.
    intros Hbottom.
    match type of Hbottom with
    | ?bottom <= _ =>
        assert (bottom == q * (3008 # 3) + (22118 # 15)) as Heq by field
    end.
    rewrite Heq in Hbottom. lra.
  - intros Hk. unfold grid_cols, grid_rows in Hk.
    do 6 (destruct k as [|k];
          [repeat split; vm_compute; intros Hgt; discriminate Hgt|]).
    lia.
Qed.

Lemma page_frame env imageData page n st x y w h :
  (createAlbumPage env imageData).2 = Fulfilled page ->
  painted page !! S n = Some (st, FillRect x y w h) ->
  exists k,
    n = (3 * k + 1)%nat /\ (k < length imageData)%nat /\
    transform st =
      [Translate (cellX k + cellWidth / 2) (cellY k + cellHeight / 2);
       Rotate (rotation (random env k))] /\
    FillRect x y w h =
      FillRect (- polaroidWidth / 2) (- polaroidHeight / 2) polaroidWidth polaroidHeight /\
    pixelWidth page = canvasWidth /\ pixelHeight page = canvasHeight.
Proof.
  intros Hpage Hn.
  destruct (createAlbumPage_fulfilled env imageData page Hpage) as (_ & _ & _ & ->).
  unfold album_page, album_polaroids in *. cbn [painted pixelWidth pixelHeight] in *.
  destruct n as [|n]; [done|].
  change (polaroids env titleState 0 0
            (zip imageData.*1 (mkImage "anonymous" <$> imageData.*2)) !! n =
          Some (st, FillRect x y w h)) in Hn.
  apply polaroids_lookup_inv in Hn as (k & m & decade & img & -> & Hm & Hk & Hp).
  destruct m as [|[|[|m]]]; [|done|done|lia].
  injection Hp as <- <- <- <- <-. exists k.
  split; [lia|]. split; [|done].
  apply lookup_lt_Some in Hk. rewrite zip_entries, length_fmap in Hk. done.
Qed.

(** X12: the page has room for the six cells of the grid and no more.  On
    a page that is made, the rectangle of every frame, before its rotation,
    lies on the surface exactly when the frame is one of the first six;
    from the seventh entry on the frames fall below the bottom of the
    page. *)
Theorem frames_on_page env imageData page :
  (createAlbumPage env imageData).2 = Fulfilled page ->
  forall n st x y w h,
    painted page !! S n = Some (st, FillRect x y w h) ->
    exists k cx cy angle,
      n = (3 * k + 1)%nat /\
      transform st = [Translate cx cy; Rotate angle] /\
      (on_surface (pixelWidth page) (pixelHeight page) cx cy x y w h <->
       (k < grid_cols * grid_rows)%nat).
Proof.
  intros Hpage n st x y w h Hn.
  destruct (page_frame env imageData page n st x y w h Hpage Hn)
    as (k & -> & _ & Ht & [= -> -> -> ->] & -> & ->).
  exists k, (cellX k + cellWidth / 2), (cellY k + cellHeight / 2),
    (rotation (random env k)).
  split; [done|]. split; [done|]. apply frame_on_surface_iff.
Qed.

Lemma frames_on_page_witness :
  exists page st x y w h cx cy angle,
    (createAlbumPage sample_env seven_sources).2 = Fulfilled page /\
    painted page !! 20%nat = Some (st, FillRect x y w h) /\
    transform st = [Translate cx cy; Rotate angle] /\
    ~ on_surface (pixelWidth page) (pixelHeight page) cx cy x y w h.
Proof.
  assert (exists page st x y w h,
            (createAlbumPage sample_env seven_sources).2 = Fulfilled page /\
            painted page !! 20%nat = Some (st, FillRect x y w h))
    as (page & st & x & y & w & h & Hpage & Hn)
    by (vm_compute; eexists _, _, _, _, _, _; split; reflexivity).
  destruct (frames_on_page sample_env seven_sources page Hpage 19 st x y w h Hn)
    as (k & cx & cy & angle & Hk & Ht & Hiff).
  exists page, st, x, y, w, h, cx, cy, angle.
  split; [exact Hpage|]. split; [exact Hn|]. split; [exact Ht|].
  intros Hon. apply Hiff in Hon. unfold grid_cols, grid_rows in Hon. lia.
Defined.

(** *** The load error *)

Lemma substring_prefix (n : nat) (s : string) :
  String.prefix (String.substring 0 n s) s = true /\
  String.length (String.substring 0 n s) = Nat.min n (String.length s).
Proof.
  revert n. induction s as [|c s IH]; intros [|n]; simpl; try done.
  destruct (IH n) as [Hp Hl]. rewrite Hl. split; [|done].
  by destruct (Ascii.ascii_dec c c).
Qed.

(** X13: how a source is named in the load error.  The message is the
    fixed text, a reference and three dots, where the reference is a prefix
    of the source, all of it when the source has at most 50 characters and
    its first 50 otherwise; the message never has more than 75. *)
Theorem loadFailure_names_prefix url :
  exists reference,
    loadFailure url =
      ErrorObject ("Failed to load image: " ++ reference ++ "...")%string /\
    String.prefix reference url = true /\
    String.length reference = Nat.min 50 (String.length url) /\
    (String.length ("Failed to load image: " ++ reference ++ "...")%string <= 75)%nat.
Proof.
  exists (String.substring 0 50 url).
  destruct (substring_prefix 50 url) as [Hp Hl].
  split; [done|]. split; [done|]. split; [done|].
  assert (forall a b, String.length (a ++ b)%string =
                      (String.length a + String.length b)%nat) as Happ.
  { induction a as [|c a IH]; intros b; simpl; [done|]. by rewrite IH. }
  rewrite !Happ, Hl.
  change (String.length "Failed to load image: ") with 22%nat.
  change (String.length "...") with 3%nat. lia.
Qed.

End albumFacts.

(** ** The handlers that download and share *)
Module AppAlbumFacts.
Import App. Import AppProps. Import albumUtils. Import albumUtilsProps.
Import AppAlbum.
Local Open Scope list_scope.

(** *** The entries of the album *)

Lemma set_property_fresh key value acc :
  key ∉ acc.*1 -> set_property key value acc = acc ++ [(key, value)].
Proof.
  induction acc as [|[k v] acc IH]; simpl; [done|].
  rewrite not_elem_of_cons. intros [Hne Hnin].
  destruct (String.eqb k key) eqn:Heq.
  - apply String.eqb_eq in Heq. congruence.
  - by rewrite IH.
Qed.

Lemma ready_key entry p : ready entry = Some p -> p.1 = entry.1.
Proof.
  unfold ready. destruct (done_with_url entry.2); [|done].
  destruct (url entry.2); simpl; [|done]. by intros [= <-].
Qed.

Lemma omap_ready_keys (entries : list (string * GeneratedImage)) :
  (omap ready entries).*1 `sublist_of` entries.*1.
Proof.
  induction entries as [|entry l IH]; simpl; [done|].
  destruct (ready entry) as [p|] eqn:Hp; simpl.
  - rewrite (ready_key _ _ Hp). by apply sublist_skip.
  - by apply sublist_cons.
Qed.

Lemma imageDataOf_ready (entries : list (string * GeneratedImage)) :
  NoDup entries.*1 -> imageDataOf entries = omap ready entries.
Proof.
  unfold imageDataOf. intros Hnd.
  assert (forall acc : list (string * string),
            NoDup (acc.*1 ++ entries.*1) ->
            foldl (fun acc entry =>
                     match url entry.2 with
                     | Some href => set_property entry.1 href acc
                     | None => acc
                     end)
              acc (List.filter (fun entry => done_with_url entry.2) entries) =
            acc ++ omap ready entries) as Hgen.
  { clear Hnd. induction entries as [|[d g] l IH]; intros acc Hnd; simpl.
    - by rewrite app_nil_r.
    - simpl in Hnd. apply NoDup_app in Hnd as (Hacc & Hdisj & Hl).
      apply NoDup_cons in Hl as [Hd Hl]. unfold ready at 1. simpl.
      destruct (done_with_url g) eqn:Hdone; simpl.
      + destruct (url g) as [href|] eqn:Hurl; simpl.
        * rewrite set_property_fresh.
          2:{ intros Hin. apply (Hdisj _ Hin). by left. }
          rewrite IH; [by rewrite <- (assoc_L (++))|].
          rewrite fmap_app. simpl. rewrite <- (assoc_L (++)). simpl.
          apply NoDup_app. split; [done|]. split; [|by apply NoDup_cons].
          intros x Hx. apply Hdisj in Hx. done.
        * unfold done_with_url in Hdone. rewrite Hurl in Hdone.
          by destruct (status g).
      + apply IH. apply NoDup_app. split; [done|]. split; [|done].
        intros x Hx Hin. apply (Hdisj _ Hx). by right. }
  rewrite (Hgen []); [done|]. done.
Qed.

Lemma imageDataOf_elem entries decade href :
  NoDup entries.*1 ->
  (decade, href) ∈ imageDataOf entries <->
  href <> ""%string /\
  exists image,
    (decade, image) ∈ entries /\ status image = Done /\ url image = Some href.
Proof.
  intros Hnd. rewrite (imageDataOf_ready _ Hnd), list_elem_of_omap. split.
  - intros ([d image] & Hin & Hready). unfold ready, done_with_url in Hready.
    simpl in Hready. destruct (status image) eqn:Hst; try done.
    destruct (url image) as [u|] eqn:Hu; simpl in Hready; [|done].
    destruct (truthy u) eqn:Ht; [|done]. injection Hready as -> ->.
    split; [by intros ->|]. by exists image.
  - intros (Hne & image & Hin & Hst & Hu). exists (decade, image).
    split; [done|]. unfold ready, done_with_url. simpl. rewrite Hst, Hu. simpl.
    unfold truthy. destruct (String.eqb href "") eqn:Heq; [|done].
    by apply String.eqb_eq in Heq.
Qed.

(** X14: the images handed to the album.  From the entries of the result
    map, each decade once, the handlers keep exactly those that are done
    with a non-empty URL, each with that URL and in the order of the
    entries; a decade that is pending, has failed, or is done without a URL
    is never among them. *)
Theorem imageDataOf_keeps_ready_images entries :
  NoDup entries.*1 ->
  (forall decade href,
     (decade, href) ∈ imageDataOf entries <->
     href <> ""%string /\
     exists image,
       (decade, image) ∈ entries /\ status image = Done /\ url image = Some href) /\
  (imageDataOf entries).*1 `sublist_of` entries.*1 /\
  NoDup (imageDataOf entries).*1 /\
  (length (imageDataOf entries) <= length entries)%nat.
Proof.
  intros Hnd. split; [intros decade href; by apply imageDataOf_elem|].
  rewrite (imageDataOf_ready _ Hnd).
  pose proof (omap_ready_keys entries) as Hsub.
  split; [done|split].
  - by eapply sublist_NoDup.
  - apply sublist_length in Hsub. by rewrite !length_fmap in Hsub.
Qed.

Lemma imageDataOf_keeps_ready_images_witness :
  imageDataOf sample_entries =
    [("1950s", "data:image/png;base64,AAAA"); ("1980s", "data:image/png;base64,BBBB")]%string /\
  (imageDataOf sample_entries).*1 `sublist_of` sample_entries.*1.
Proof.
  assert (NoDup sample_entries.*1) as Hnd
    by (apply (bool_decide_unpack _); vm_compute; exact I).
  split; [vm_compute; reflexivity|].
  exact (proj1 (proj2 (imageDataOf_keeps_ready_images sample_entries Hnd))).
Defined.

(** *** Downloading the album *)

Lemma zipFiles_files page imageData e :
  e ∈ zipFiles page imageData -> is_zip_file e = true.
Proof.
  unfold zipFiles. rewrite elem_of_cons, list_elem_of_fmap.
  by intros [->|(? & -> & _)].
Qed.

Lemma filter_zip_files page imageData :
  List.filter is_zip_file (zipFiles page imageData) = zipFiles page imageData.
Proof.
  unfold zipFiles. simpl. f_equal.
  induction imageData as [|entry l IH]; simpl; [done|]. by f_equal.
Qed.

Lemma filter_none {A} (P : A -> bool) (l : list A) :
  Forall (fun x => P x = false) l -> List.filter P l = [].
Proof. induction 1 as [|x l Hx _ IH]; simpl; [done|]. by rewrite Hx. Qed.

Lemma elem_of_filter_bool {A} (P : A -> bool) (l : list A) (x : A) :
  P x = true -> (x ∈ l <-> x ∈ List.filter P l).
Proof. intros Hx. rewrite !list_elem_of_In, List.filter_In. tauto. Qed.

Lemma filter_zipFiles (P : Effect -> bool) page imageData :
  (forall name data, P (ZipFile name data) = false) ->
  List.filter P (zipFiles page imageData) = [].
Proof.
  intros HP. apply filter_none, Forall_forall. intros e Hin.
  unfold zipFiles in Hin. rewrite elem_of_cons, list_elem_of_fmap in Hin.
  by destruct Hin as [->|(? & -> & _)].
Qed.

(** The five ways [handleDownloadAlbum] can go, with what it does in each
    between the two settings of its flag. *)
Lemma handleDownloadAlbum_cases browser entries :
  let imageData := imageDataOf entries in
  let asked :=
    if decide (length imageData < length DECADES)%nat
    then [Confirm (length imageData) (length DECADES)] else [] in
  exists middle,
    handleDownloadAlbum browser entries =
      SetIsDownloading true :: middle ++ [SetIsDownloading false] /\
    ((imageData = [] /\ middle = [Alert "There are no images to download yet."])
     \/ (imageData <> [] /\
         (length imageData < length DECADES)%nat /\ confirm browser = false /\
         middle = asked)
     \/ (imageData <> [] /\
         ((length imageData < length DECADES)%nat -> confirm browser = true) /\
         exists events,
           (exists err,
              createAlbumPage (canvas browser) imageData = (events, Rejected err) /\
              middle =
                asked ++
                [CreateAlbumPage imageData events;
                 Alert "Sorry, there was an error creating your album ZIP file. Please try again."])
           \/ (exists page,
                 createAlbumPage (canvas browser) imageData = (events, Fulfilled page) /\
                 ((zip_fails browser <> None /\
                   middle =
                     asked ++ [CreateAlbumPage imageData events] ++
                     zipFiles page imageData ++
                     [Alert "Sorry, there was an error creating your album ZIP file. Please try again."])
                  \/ (zip_fails browser = None /\
                      middle =
                        asked ++ [CreateAlbumPage imageData events] ++
                        zipFiles page imageData ++
                        [ZipDownload "past-forward-album.zip"]))))).
Proof.
  cbv zeta. unfold handleDownloadAlbum, downloadAlbum_try. cbv zeta.
  destruct (imageDataOf entries) as [|entry rest] eqn:Hdata.
  { eexists. split; [reflexivity|]. by left. }
  rewrite <- Hdata.
  assert (imageDataOf entries <> []) as Hne by (by rewrite Hdata).
  replace (length (imageDataOf entries) =? 0)%nat with false
    by (by rewrite Hdata).
  set (imageData := imageDataOf entries) in *. clearbody imageData.
  set (sorry := Alert "Sorry, there was an error creating your album ZIP file. Please try again.").
  destruct (decide (length imageData < length DECADES)%nat) as [Hp|Hp];
    [replace (length imageData <? length DECADES)%nat with true
       by (symmetry; by apply Nat.ltb_lt)
    |replace (length imageData <? length DECADES)%nat with false
       by (symmetry; apply Nat.ltb_ge; lia)];
    destruct (createAlbumPage (canvas browser) imageData) as [events [page|err]];
    destruct (zip_fails browser) as [zerr|] eqn:Hzip;
    destruct (confirm browser) eqn:Hconfirm;
    cbn [negb andb fst snd].
  all: try (exists [Confirm (length imageData) (length DECADES)];
            split; [reflexivity|]; right; left; done).
  all: try (exists ([Confirm (length imageData) (length DECADES)] ++
                    [CreateAlbumPage imageData events] ++ zipFiles page imageData ++ [sorry]);
            split; [cbn [app]; by rewrite <- ?(assoc_L (++))|]; right; right;
            split; [done|]; split; [done|]; exists events; right; exists page;
            split; [done|]; left; done).
  all: try (exists ([] ++ [CreateAlbumPage imageData events] ++
                    zipFiles page imageData ++ [sorry]);
            split; [cbn [app]; by rewrite <- ?(assoc_L (++))|]; right; right;
            split; [done|]; split; [lia|]; exists events; right; exists page;
            split; [done|]; left; done).
  all: try (exists ([Confirm (length imageData) (length DECADES)] ++
                    [CreateAlbumPage imageData events] ++ zipFiles page imageData ++
                    [ZipDownload "past-forward-album.zip"]);
            split; [cbn [app]; by rewrite <- ?(assoc_L (++))|]; right; right;
            split; [done|]; split; [done|]; exists events; right; exists page;
            split; [done|]; right; done).
  all: try (exists ([] ++ [CreateAlbumPage imageData events] ++
                    zipFiles page imageData ++ [ZipDownload "past-forward-album.zip"]);
            split; [cbn [app]; by rewrite <- ?(assoc_L (++))|]; right; right;
            split; [done|]; split; [lia|]; exists events; right; exists page;
            split; [done|]; right; done).
  all: try (exists ([Confirm (length imageData) (length DECADES)] ++
                    [CreateAlbumPage imageData events; sorry]);
            split; [reflexivity|]; right; right;
            split; [done|]; split; [done|]; exists events; left; by exists err).
  all: try (exists ([] ++ [CreateAlbumPage imageData events; sorry]);
            split; [reflexivity|]; right; right;
            split; [done|]; split; [lia|]; exists events; left; by exists err).
Qed.

Ltac filter_effects :=
  repeat first
    [ progress cbn [List.filter is_download is_alert is_zip_file is_composition
                    is_flag is_confirm is_share app length]
    | rewrite List.filter_app
    | rewrite filter_zip_files
    | rewrite (filter_zipFiles _ _ _ (fun _ _ => eq_refl))
    | rewrite app_nil_r ].

Lemma download_outcome browser entries :
  let offered :=
    imageDataOf entries <> [] /\
    ((length (imageDataOf entries) < length DECADES)%nat -> confirm browser = true) /\
    (exists page,
       (createAlbumPage (canvas browser) (imageDataOf entries)).2 = Fulfilled page) /\
    zip_fails browser = None in
  (List.filter is_download (handleDownloadAlbum browser entries) = [] /\ ~ offered)
  \/ (List.filter is_download (handleDownloadAlbum browser entries) =
        [ZipDownload "past-forward-album.zip"] /\
      offered /\
      exists page,
        (createAlbumPage (canvas browser) (imageDataOf entries)).2 = Fulfilled page /\
        List.filter is_zip_file (handleDownloadAlbum browser entries) =
          zipFiles page (imageDataOf entries)).
Proof.
  cbv zeta.
  destruct (handleDownloadAlbum_cases browser entries)
    as (middle & -> &
        [[Hnil ->]|[(Hne & Hlt & Hno & ->)|(Hne & Hyes & events &
          [(err & Hpage & ->)|(page & Hpage & [(Hzip & ->)|(Hzip & ->)])])]]);
    try case_decide; filter_effects;
    try (left; split; [done|]);
    try (by intros [? _]);
    try (intros (_ & Hc & _); specialize (Hc ltac:(done)); congruence);
    try (intros (_ & _ & [page' Hp] & _); rewrite Hpage in Hp; done);
    try (by intros (_ & _ & _ & ?)).
  all: right; split; [done|]; rewrite Hpage; cbn [snd];
    (split; [split; [done|split; [done|split; [by exists page|done]]]|]);
    by exists page.
Qed.

(** X15: the ZIP is offered exactly when there is something ready, the
    user has agreed to a partial set if it is one, the page has been made
    and JSZip has not failed; it then holds the album page and one file per
    ready image, named after its decade, in the order of the entries, and
    nothing else. *)
Theorem download_offered_iff browser entries :
  (ZipDownload "past-forward-album.zip" ∈ handleDownloadAlbum browser entries <->
   imageDataOf entries <> [] /\
   ((length (imageDataOf entries) < length DECADES)%nat -> confirm browser = true) /\
   (exists page,
      (createAlbumPage (canvas browser) (imageDataOf entries)).2 = Fulfilled page) /\
   zip_fails browser = None) /\
  (forall name,
     ZipDownload name ∈ handleDownloadAlbum browser entries ->
     name = "past-forward-album.zip"%string /\
     exists page,
       (createAlbumPage (canvas browser) (imageDataOf entries)).2 = Fulfilled page /\
       List.filter is_zip_file (handleDownloadAlbum browser entries) =
         ZipFile "past-forward-album.jpg" (AlbumData page) ::
         ((fun entry =>
             ZipFile ("past-forward-" ++ entry.1 ++ ".jpg")%string
               (ImageData (split_comma entry.2 !! 1%nat))) <$> imageDataOf entries)).
Proof.
  assert (forall name,
            ZipDownload name ∈ handleDownloadAlbum browser entries <->
            ZipDownload name ∈ List.filter is_download (handleDownloadAlbum browser entries))
    as Hdl by (intros name; by apply elem_of_filter_bool).
  destruct (download_outcome browser entries)
    as [[Hnone Hnot]|(Hone & Hcond & page & Hpage & Hfiles)].
  - split.
    + split; [|done]. intros Hin. apply Hdl in Hin. rewrite Hnone in Hin.
      by apply elem_of_nil in Hin.
    + intros name Hin. apply Hdl in Hin. rewrite Hnone in Hin.
      by apply elem_of_nil in Hin.
  - split.
    + split; [done|]. intros _. apply Hdl. rewrite Hone.
      by apply list_elem_of_singleton.
    + intros name Hin. apply Hdl in Hin. rewrite Hone in Hin.
      apply list_elem_of_singleton in Hin. injection Hin as ->.
      split; [done|]. by exists page.
Qed.

Lemma download_offered_iff_witness :
  ZipDownload "past-forward-album.zip" ∈ handleDownloadAlbum sample_browser sample_entries /\
  length (List.filter is_zip_file (handleDownloadAlbum sample_browser sample_entries)) = 3%nat.
Proof.
  assert (ZipDownload "past-forward-album.zip" ∈
            handleDownloadAlbum sample_browser sample_entries) as Hin.
  { apply (proj1 (download_offered_iff sample_browser sample_entries)).
    split; [vm_compute; discriminate|]. split; [reflexivity|].
    split; [vm_compute; by eexists|reflexivity]. }
  split; [exact Hin|].
  destruct (proj2 (download_offered_iff sample_browser sample_entries) _ Hin)
    as (_ & page & _ & ->).
  vm_compute. reflexivity.
Defined.

(** X16: however [handleDownloadAlbum] goes, the flag it sets at the start
    is cleared at the end and not touched in between, and the user is told
    at most once how it went: a failure is reported by one alert and never
    together with a download, and the only way for it to end with neither
    an alert nor a download is that the user refused a partial set.  The
    question about a partial set is asked exactly when some images, but
    fewer than there are decades, are ready. *)
Theorem download_always_settles browser entries :
  exists middle,
    handleDownloadAlbum browser entries =
      SetIsDownloading true :: middle ++ [SetIsDownloading false] /\
    List.filter is_flag middle = [] /\
    (length (List.filter is_alert middle) + length (List.filter is_download middle) <= 1)%nat /\
    (length (List.filter is_alert middle) + length (List.filter is_download middle) = 0%nat <->
     imageDataOf entries <> [] /\
     (length (imageDataOf entries) < length DECADES)%nat /\
     confirm browser = false) /\
    (List.filter is_confirm middle =
       if decide (0 < length (imageDataOf entries) < length DECADES)%nat
       then [Confirm (length (imageDataOf entries)) (length DECADES)]
       else []).
Proof.
  assert (forall l : list (string * string), l <> [] -> (0 < length l)%nat) as Hpos
    by (intros [|? ?] ?; simpl; [done|lia]).
  destruct (handleDownloadAlbum_cases browser entries)
    as (middle & Heq &
        [[Hnil ->]|[(Hne & Hlt & Hno & ->)|(Hne & Hyes & events &
          [(err & Hpage & ->)|(page & Hpage & [(Hzip & ->)|(Hzip & ->)])])]]);
    (eexists; split; [exact Heq|]); try specialize (Hpos _ Hne).
  - rewrite Hnil. cbn. split; [done|]. split; [lia|]. split; [|done].
    split; [lia|]. by intros [? _].
  - rewrite decide_True by done. rewrite decide_True by lia. filter_effects.
    split; [done|]. split; [lia|]. by split.
  - destruct (decide (length (imageDataOf entries) < length DECADES)%nat) as [Hp|Hp];
      [rewrite decide_True by lia|rewrite decide_False by lia]; filter_effects;
      (split; [done|]); (split; [lia|]); (split; [|done]);
      (split; [lia|]); intros (_ & Hc & Hn); specialize (Hyes Hc); congruence.
  - destruct (decide (length (imageDataOf entries) < length DECADES)%nat) as [Hp|Hp];
      [rewrite decide_True by lia|rewrite decide_False by lia]; filter_effects;
      (split; [done|]); (split; [lia|]); (split; [|done]);
      (split; [lia|]); intros (_ & Hc & Hn); specialize (Hyes Hc); congruence.
  - destruct (decide (length (imageDataOf entries) < length DECADES)%nat) as [Hp|Hp];
      [rewrite decide_True by lia|rewrite decide_False by lia]; filter_effects;
      (split; [done|]); (split; [lia|]); (split; [|done]);
      (split; [lia|]); intros (_ & Hc & Hn); specialize (Hyes Hc); congruence.
Qed.

(** *** Sharing the album *)

(** The ways [handleShareAlbum] can go. *)
Lemma handleShareAlbum_cases browser entries :
  let imageData := imageDataOf entries in
  let shared :=
    Share "past-forward-album.jpg" "My Past Forward Album!"
      "I traveled through time with Past Forward on Google AI Studio! Check out my album." in
  exists middle,
    handleShareAlbum browser entries =
      SetIsSharing true :: middle ++ [SetIsSharing false] /\
    ((imageData = [] /\ middle = [Alert "No finished images to share in an album yet."])
     \/ (imageData <> [] /\
         exists events,
           (exists err,
              createAlbumPage (canvas browser) imageData = (events, Rejected err) /\
              middle =
                [CreateAlbumPage imageData events;
                 Alert "Sorry, there was an error creating your album for sharing. Please try again."])
           \/ (exists page,
                 createAlbumPage (canvas browser) imageData = (events, Fulfilled page) /\
                 ((fetch_fails browser = true /\
                   middle = [CreateAlbumPage imageData events;
                             Alert "Could not prepare album for sharing."])
                  \/ (fetch_fails browser = false /\ canShare browser = false /\
                      middle =
                        [CreateAlbumPage imageData events;
                         Alert "Sharing albums is not supported on your browser. Please download it to share."])
                  \/ (fetch_fails browser = false /\ canShare browser = true /\
                      share_rejects browser = None /\
                      middle = [CreateAlbumPage imageData events; shared])
                  \/ (fetch_fails browser = false /\ canShare browser = true /\
                      share_rejects browser <> None /\
                      middle =
                        [CreateAlbumPage imageData events; shared;
                         Alert "Sorry, there was an error creating your album for sharing. Please try again."]))))).
Proof.
  cbv zeta. unfold handleShareAlbum, shareAlbum_try, dataUrlToFile. cbv zeta.
  destruct (imageDataOf entries) as [|entry rest] eqn:Hdata.
  { eexists. split; [reflexivity|]. by left. }
  rewrite <- Hdata.
  assert (imageDataOf entries <> []) as Hne by (by rewrite Hdata).
  replace (length (imageDataOf entries) =? 0)%nat with false
    by (by rewrite Hdata).
  set (imageData := imageDataOf entries) in *. clearbody imageData.
  set (shared :=
         Share "past-forward-album.jpg" "My Past Forward Album!"
           "I traveled through time with Past Forward on Google AI Studio! Check out my album.").
  set (sorry :=
         Alert "Sorry, there was an error creating your album for sharing. Please try again.").
  destruct (createAlbumPage (canvas browser) imageData) as [events [page|err]].
  2:{ exists [CreateAlbumPage imageData events; sorry]. split; [reflexivity|].
      right. split; [done|]. exists events. left. by exists err. }
  destruct (fetch_fails browser) eqn:Hfetch.
  { exists [CreateAlbumPage imageData events;
            Alert "Could not prepare album for sharing."].
    split; [reflexivity|]. right. split; [done|].
    exists events. right. exists page. split; [done|]. by left. }
  destruct (canShare browser) eqn:Hcan.
  2:{ exists [CreateAlbumPage imageData events;
              Alert "Sharing albums is not supported on your browser. Please download it to share."].
      split; [reflexivity|]. right. split; [done|].
      exists events. right. exists page. split; [done|]. right. by left. }
  destruct (share_rejects browser) as [err|] eqn:Hshare.
  - exists [CreateAlbumPage imageData events; shared; sorry].
    split; [reflexivity|]. right. split; [done|].
    exists events. right. exists page. split; [done|]. right. right. right. done.
  - exists [CreateAlbumPage imageData events; shared].
    split; [reflexivity|]. right. split; [done|].
    exists events. right. exists page. split; [done|]. right. right. left. done.
Qed.

Lemma share_summary browser entries :
  let shared :=
    Share "past-forward-album.jpg" "My Past Forward Album!"
      "I traveled through time with Past Forward on Google AI Studio! Check out my album." in
  let possible :=
    imageDataOf entries <> [] /\
    (exists page,
       (createAlbumPage (canvas browser) (imageDataOf entries)).2 = Fulfilled page) /\
    fetch_fails browser = false /\
    canShare browser = true in
  exists middle,
    handleShareAlbum browser entries =
      SetIsSharing true :: middle ++ [SetIsSharing false] /\
    List.filter is_flag middle = [] /\
    List.filter is_confirm (handleShareAlbum browser entries) = [] /\
    List.filter is_share (handleShareAlbum browser entries) = List.filter is_share middle /\
    ((List.filter is_share middle = [] /\ ~ possible /\
      length (List.filter is_alert middle) = 1%nat)
     \/ (List.filter is_share middle = [shared] /\ possible /\
         ((share_rejects browser = None /\ List.filter is_alert middle = [])
          \/ (share_rejects browser <> None /\
              length (List.filter is_alert middle) = 1%nat)))).
Proof.
  cbv zeta.
  destruct (handleShareAlbum_cases browser entries)
    as (middle & Heq &
        [[Hnil ->]|(Hne & events &
          [(err & Hpage & ->)|(page & Hpage &
            [(Hfetch & ->)|[(Hfetch & Hcan & ->)|[(Hfetch & Hcan & Hrej & ->)
              |(Hfetch & Hcan & Hrej & ->)]]])])]);
    eexists; (split; [exact Heq|]); rewrite Heq; filter_effects;
    (split; [done|]); (split; [done|]); (split; [done|]).
  - left. split; [done|]. split; [|done]. by intros [? _].
  - left. split; [done|]. split; [|done].
    intros (_ & [page Hp] & _). rewrite Hpage in Hp. done.
  - left. split; [done|]. split; [|done]. intros (_ & _ & ? & _). congruence.
  - left. split; [done|]. split; [|done]. intros (_ & _ & _ & ?). congruence.
  - right. split; [done|]. split; [|by left].
    split; [done|]. split; [exists page; by rewrite Hpage|done].
  - right. split; [done|]. split; [|by right].
    split; [done|]. split; [exists page; by rewrite Hpage|done].
Qed.

(** X17: an album is shared exactly when there is something ready, the
    page has been made, the file could be prepared and the browser can
    share it; a partial album is shared without any question asked.  The
    flag set at the start is cleared at the end however it goes, and
    everything that keeps the album from being shared, a rejection of
    [navigator.share] included, is reported by exactly one alert. *)
Theorem share_album_outcomes browser entries :
  (forall file title text,
     Share file title text ∈ handleShareAlbum browser entries <->
     (file, title, text) =
       ("past-forward-album.jpg", "My Past Forward Album!",
        "I traveled through time with Past Forward on Google AI Studio! Check out my album.")%string /\
     imageDataOf entries <> [] /\
     (exists page,
        (createAlbumPage (canvas browser) (imageDataOf entries)).2 = Fulfilled page) /\
     fetch_fails browser = false /\
     canShare browser = true) /\
  List.filter is_confirm (handleShareAlbum browser entries) = [] /\
  exists middle,
    handleShareAlbum browser entries =
      SetIsSharing true :: middle ++ [SetIsSharing false] /\
    List.filter is_flag middle = [] /\
    (length (List.filter is_alert middle) <= 1)%nat /\
    (length (List.filter is_alert middle) = 0%nat <->
     length (List.filter is_share middle) = 1%nat /\ share_rejects browser = None).
Proof.
  assert (forall file title text,
            Share file title text ∈ handleShareAlbum browser entries <->
            Share file title text ∈ List.filter is_share (handleShareAlbum browser entries))
    as Hsh by (intros file title text; by apply elem_of_filter_bool).
  destruct (share_summary browser entries)
    as (middle & Heq & Hflag & Hconfirm & Hshare & Hcases).
  split; [|split; [done|exists middle; split; [done|split; [done|]]]].
  - intros file title text. split.
    + intros Hin. apply Hsh in Hin. rewrite Hshare in Hin.
      destruct Hcases as [(Hnone & _)|(Hone & Hpossible & _)].
      * rewrite Hnone in Hin. by apply elem_of_nil in Hin.
      * rewrite Hone in Hin. apply list_elem_of_singleton in Hin.
        injection Hin as -> -> ->. done.
    + intros ([= -> -> ->] & Hpossible). apply Hsh. rewrite Hshare.
      destruct Hcases as [(_ & Hnot & _)|(Hone & _)]; [done|].
      rewrite Hone. by apply list_elem_of_singleton.
  - destruct Hcases as [(Hnone & _ & Hal)|(Hone & _ & [[Hrej Hal]|[Hrej Hal]])];
      rewrite ?Hnone, ?Hone, Hal; cbn [length].
    + split; [lia|]. split; [lia|]. intros [? _]. lia.
    + split; [lia|]. done.
    + split; [lia|]. split; [lia|]. intros [_ ?]. done.
Qed.

(** *** What the album is made of *)

(** X18: [createAlbumPage] is never called on an empty mapping.  Whenever
    [handleDownloadAlbum] or [handleShareAlbum] calls it, and each does at
    most once, it is with the ready images of the result map, of which there
    is at least one: every entry given to it is a decade that is done, with
    its non-empty URL. *)
Theorem album_composed_of_ready_images browser entries :
  NoDup entries.*1 ->
  (length (List.filter is_composition (handleDownloadAlbum browser entries)) <= 1)%nat /\
  (length (List.filter is_composition (handleShareAlbum browser entries)) <= 1)%nat /\
  forall imageData events,
    CreateAlbumPage imageData events ∈
      handleDownloadAlbum browser entries ++ handleShareAlbum browser entries ->
    imageData = imageDataOf entries /\
    imageData <> [] /\
    events = (createAlbumPage (canvas browser) imageData).1 /\
    forall decade href,
      (decade, href) ∈ imageData ->
      href <> ""%string /\
      exists image,
        (decade, image) ∈ entries /\ status image = Done /\ url image = Some href.
Proof.
  intros Hnd.
  assert (forall l imageData events,
            CreateAlbumPage imageData events ∈ l <->
            CreateAlbumPage imageData events ∈ List.filter is_composition l) as Hco
    by (intros l imageData events; by apply elem_of_filter_bool).
  assert (forall l,
            l = [] \/
            (exists events,
               l = [CreateAlbumPage (imageDataOf entries) events] /\
               imageDataOf entries <> [] /\
               events = (createAlbumPage (canvas browser) (imageDataOf entries)).1) ->
            (length l <= 1)%nat /\
            forall imageData events,
              CreateAlbumPage imageData events ∈ l ->
              imageData = imageDataOf entries /\ imageData <> [] /\
              events = (createAlbumPage (canvas browser) imageData).1) as Hone.
  { intros l [->|(events & -> & Hne & ->)].
    - split; [simpl; lia|]. by intros ? ? ?%elem_of_nil.
    - split; [done|]. intros imageData events' [= -> ->]%list_elem_of_singleton. done. }
  assert (let l := List.filter is_composition (handleDownloadAlbum browser entries) in
          l = [] \/
          (exists events,
             l = [CreateAlbumPage (imageDataOf entries) events] /\
             imageDataOf entries <> [] /\
             events = (createAlbumPage (canvas browser) (imageDataOf entries)).1)) as Hd.
  { cbv zeta.
    destruct (handleDownloadAlbum_cases browser entries)
      as (middle & -> &
          [[Hnil ->]|[(Hne & Hlt & Hno & ->)|(Hne & Hyes & events &
            [(err & Hpage & ->)|(page & Hpage & [(Hzip & ->)|(Hzip & ->)])])]]);
      try case_decide; filter_effects; try (by left);
      right; exists events; rewrite Hpage; done. }
  assert (let l := List.filter is_composition (handleShareAlbum browser entries) in
          l = [] \/
          (exists events,
             l = [CreateAlbumPage (imageDataOf entries) events] /\
             imageDataOf entries <> [] /\
             events = (createAlbumPage (canvas browser) (imageDataOf entries)).1)) as Hs.
  { cbv zeta.
    destruct (handleShareAlbum_cases browser entries)
      as (middle & -> &
          [[Hnil ->]|(Hne & events &
            [(err & Hpage & ->)|(page & Hpage &
              [(Hfetch & ->)|[(Hfetch & Hcan & ->)|[(Hfetch & Hcan & Hrej & ->)
                |(Hfetch & Hcan & Hrej & ->)]]])])]);
      filter_effects; try (by left);
      right; exists events; rewrite Hpage; done. }
  destruct (Hone _ Hd) as [Hlen1 Hin1]. destruct (Hone _ Hs) as [Hlen2 Hin2].
  split; [done|]. split; [done|].
  intros imageData events Hin.
  assert (imageData = imageDataOf entries /\ imageData <> [] /\
          events = (createAlbumPage (canvas browser) imageData).1) as (-> & Hne & ->).
  { apply elem_of_app in Hin as [Hin|Hin]; apply Hco in Hin; auto. }
  split; [done|]. split; [done|]. split; [done|].
  intros decade href Hdh. by apply (imageDataOf_elem entries decade href Hnd).
Qed.

Lemma album_composed_of_ready_images_witness :
  exists events,
    CreateAlbumPage
      [("1950s", "data:image/png;base64,AAAA"); ("1980s", "data:image/png;base64,BBBB")]%string
      events ∈ handleShareAlbum sample_browser sample_entries.
Proof.
  assert (NoDup sample_entries.*1) as Hnd
    by (apply (bool_decide_unpack _); vm_compute; exact I).
  assert (exists imageData events,
            CreateAlbumPage imageData events ∈
              handleDownloadAlbum sample_browser sample_entries ++
              handleShareAlbum sample_browser sample_entries /\
            CreateAlbumPage imageData events ∈
              handleShareAlbum sample_browser sample_entries)
    as (imageData & events & Hin & Hin').
  { eexists _, _. split.
    - apply elem_of_app. right. vm_compute. apply list_elem_of_further, list_elem_of_here.
    - vm_compute. apply list_elem_of_further, list_elem_of_here. }
  destruct (album_composed_of_ready_images sample_browser sample_entries Hnd)
    as (_ & _ & Hall).
  destruct (Hall imageData events Hin) as (Heq & _).
  exists events. rewrite Heq in Hin'. exact Hin'.
Defined.

(** *** From a round to the album *)

Lemma replay_lookup m updates decade g :
  replay m updates !! decade = Some g ->
  m !! decade = Some g \/ (decade, g) ∈ updates.
Proof.
  induction updates as [|[d x] l IH] using rev_ind; [by left|].
  unfold replay in *. rewrite foldl_app. simpl.
  destruct (decide (d = decade)) as [->|Hne].
  - rewrite lookup_insert_eq. intros [= ->]. right.
    apply elem_of_app. right. by apply list_elem_of_singleton.
  - rewrite lookup_insert_ne by done. intros Hl.
    destruct (IH Hl) as [?|?]; [by left|]. right. apply elem_of_app. by left.
Qed.

(** What a round has in its result map: decades of the round only, each
    pending or holding an update published for it. *)
Lemma RoundState_images image decades s decade g :
  RoundState image decades s ->
  generatedImages s !! decade = Some g ->
  decade ∈ decades /\ (g = imagePending \/ (decade, g) ∈ published s).
Proof.
  intros (Hs & _ & _) Hl. rewrite (inv_images _ _ _ Hs) in Hl.
  apply replay_lookup in Hl as [Hl|Hin].
  - rewrite AppFacts.initialImages_lookup in Hl. case_decide; [|done].
    injection Hl as <-. auto.
  - split; [|by right].
    assert (decade ∈ filter Truthy decades) as Hf.
    { rewrite (inv_accounted _ _ _ Hs), !elem_of_app. left.
      apply list_elem_of_fmap. by exists (decade, g). }
    by apply list_elem_of_filter in Hf as [_ ?].
Qed.

(** X19: the album of a round fits the page.  At any moment of a round,
    the images the album handlers take from its result map are decades of
    the round, each with the URL of an update published as done for it, and
    there are no more of them than decades; so when the round is over at
    most six decades, every frame of a page made from them lies, before its
    rotation, on the page. *)
Theorem album_of_round_fits image decades evs s entries :
  Truthy image ->
  run evs (round image decades) = Some s ->
  entries ≡ₚ map_to_list (generatedImages s) ->
  (length (imageDataOf entries) <= length decades)%nat /\
  (forall decade href,
     (decade, href) ∈ imageDataOf entries ->
     decade ∈ decades /\
     exists done,
       (decade, done) ∈ published s /\ status done = Done /\ url done = Some href) /\
  ((length decades <= grid_cols * grid_rows)%nat ->
   forall env page n st x y w h,
     (createAlbumPage env (imageDataOf entries)).2 = Fulfilled page ->
     painted page !! S n = Some (st, FillRect x y w h) ->
     exists cx cy angle,
       transform st = [Translate cx cy; Rotate angle] /\
       on_surface (pixelWidth page) (pixelHeight page) cx cy x y w h).
Proof.
  intros Hi Hrun Hentries.
  destruct (run_state _ _ _ _ _ (round_start image decades Hi) Hrun) as [Hst _].
  assert (NoDup entries.*1) as Hnd.
  { rewrite Hentries. apply NoDup_fst_map_to_list. }
  assert (forall decade g, (decade, g) ∈ entries ->
            decade ∈ decades /\ (g = imagePending \/ (decade, g) ∈ published s)) as Hin.
  { intros decade g Hdg. rewrite Hentries in Hdg.
    apply elem_of_map_to_list in Hdg. by apply (RoundState_images image decades s). }
  assert (length (imageDataOf entries) <= length decades)%nat as Hlen.
  { rewrite (imageDataOf_ready _ Hnd).
    pose proof (omap_ready_keys entries) as Hsub.
    apply sublist_length in Hsub. rewrite !length_fmap in Hsub.
    assert (entries.*1 ⊆+ decades) as Hkeys.
    { apply NoDup_submseteq; [done|]. intros decade Hd.
      apply list_elem_of_fmap in Hd as ([d g] & -> & Hdg). by apply (Hin d g). }
    apply submseteq_length in Hkeys. rewrite length_fmap in Hkeys. lia. }
  split; [done|]. split.
  - intros decade href Hdh.
    apply (imageDataOf_elem entries decade href Hnd) in Hdh
      as (_ & g & Hg & Hst' & Hurl).
    destruct (Hin decade g Hg) as [Hd [->|Hpub]]; [done|]. split; [done|].
    by exists g.
  - intros Hsix env page n st x y w h Hpage Hn.
    destruct (albumFacts.page_frame env _ page n st x y w h Hpage Hn)
      as (k & -> & Hk & Ht & [= -> -> -> ->] & -> & ->).
    eexists _, _, _. split; [exact Ht|].
    apply albumFacts.frame_on_surface_iff. lia.
Qed.

Lemma album_of_round_fits_witness :
  exists s,
    run sample_settlements (round "photo" DECADES) = Some s /\
    (length (imageDataOf (map_to_list (generatedImages s))) <= 6)%nat /\
    forall decade href,
      (decade, href) ∈ imageDataOf (map_to_list (generatedImages s)) ->
      decade ∈ DECADES.
Proof.
  exists (default (imageUploaded "") (run sample_settlements (round "photo" DECADES))).
  assert (run sample_settlements (round "photo" DECADES) =
          Some (default (imageUploaded "")
                  (run sample_settlements (round "photo" DECADES)))) as Hrun
    by (vm_compute; reflexivity).
  destruct (album_of_round_fits "photo" DECADES _ _ _ eq_refl Hrun (reflexivity _))
    as (Hlen & Hin & _).
  split; [exact Hrun|]. split; [exact Hlen|].
  intros decade href Hdh. exact (proj1 (Hin decade href Hdh)).
Defined.

(** *** The actions of a card *)

(** X20: after a round, the download and the share of a card act on a
    decade exactly when its call was fulfilled with a non-empty URL: the
    download then links to that URL under the name of the decade, and the
    share makes one call or shows one alert; for a decade whose call was
    rejected, or fulfilled with an empty URL, neither does anything. *)
Theorem card_actions_after_round image decades generate order s decade browser :
  Truthy image ->
  Forall Truthy decades ->
  run_generate generate order (round image decades) = Some s ->
  appState s = results_shown ->
  decade ∈ decades ->
  match generate image (prompt decade) with
  | Fulfilled href =>
      if truthy href
      then handleDownloadIndividualImage decade s =
             Some (href, ("past-forward-" ++ decade ++ ".jpg")%string) /\
           length (handleShareIndividualImage browser decade s) = 1%nat /\
           (is_share <$> handleShareIndividualImage browser decade s =
              [negb (fetch_fails browser) && canShare browser])
      else handleDownloadIndividualImage decade s = None /\
           handleShareIndividualImage browser decade s = []
  | Rejected _ =>
      handleDownloadIndividualImage decade s = None /\
      handleShareIndividualImage browser decade s = []
  end.
Proof.
  intros Hi Hd Hrun Hres Hin.
  assert (Forall (fun p => p.2 = expected_image generate image p.1)
            (published (round image decades))) as Hnil
    by (by rewrite round_published).
  destruct (AppFacts.run_generate_expected image decades generate order _ s
              (round_start image decades Hi) Hnil Hrun) as [Hst Hpub].
  destruct (RoundState_final _ _ _ _ Hd Hst Hres Hin) as (g & Hg & Hl).
  rewrite Forall_forall in Hpub. specialize (Hpub _ Hg). simpl in Hpub.
  unfold handleDownloadIndividualImage, handleShareIndividualImage, dataUrlToFile.
  rewrite Hl, Hpub. unfold expected_image.
  destruct (generate image (prompt decade)) as [href|err]; [|done].
  cbn [outcome_image imageDone done_with_url status url truthy_opt].
  destruct (truthy href); [|done]. cbn [negb].
  split; [done|].
  by destruct (fetch_fails browser), (canShare browser).
Qed.

Lemma card_actions_after_round_witness :
  exists s,
    run_generate fails_on_1970s [1; 1; 0; 0; 1; 0] (round "photo" DECADES) = Some s /\
    handleDownloadIndividualImage "1970s" s = None /\
    handleShareIndividualImage sample_browser "1970s" s = [].
Proof.
  exists (default (imageUploaded "")
            (run_generate fails_on_1970s [1; 1; 0; 0; 1; 0] (round "photo" DECADES))).
  assert (run_generate fails_on_1970s [1; 1; 0; 0; 1; 0] (round "photo" DECADES) =
          Some (default (imageUploaded "")
                  (run_generate fails_on_1970s [1; 1; 0; 0; 1; 0]
                     (round "photo" DECADES)))) as Hrun
    by (vm_compute; reflexivity).
  assert (Truthy "photo") as Hi by reflexivity.
  assert (Forall Truthy DECADES) as Hd by (repeat constructor).
  assert (appState (default (imageUploaded "")
            (run_generate fails_on_1970s [1; 1; 0; 0; 1; 0] (round "photo" DECADES)))
          = results_shown) as Hres by (vm_compute; reflexivity).
  assert ("1970s" ∈ DECADES) as H70 by (unfold DECADES; repeat constructor).
  pose proof (card_actions_after_round "photo" DECADES fails_on_1970s _ _ "1970s"
                sample_browser Hi Hd Hrun Hres H70) as Hcard.
  assert (fails_on_1970s "photo" (prompt "1970s") =
          Rejected (ErrorObject "safety filter")) as Hfail by (vm_compute; reflexivity).
  rewrite Hfail in Hcard. split; [exact Hrun|]. exact Hcard.
Defined.

End AppAlbumFacts.
